(** * merge-pdfs.js: folder-scoped PDF consolidation

    A shallow embedding of the consolidation script (name sanitising, output
    naming, tree scan, eligibility filter, merge and the driver loop) and the
    properties of it that the specification states.

    JavaScript strings are sequences of UTF-16 code units; they are modelled
    as lists of [N].  The filesystem is a tree of nodes addressed by
    POSIX paths, the console is a list of emitted lines, and the asynchronous
    functions are written in a state-and-exception monad over both.

    Writes are not atomic: [fs.writeFile] and [fs.copyFile] work on the
    destination in place, and the platform decides whether and how far into
    the file they fail.

    The walk of the analysis pass, [analyzeDirectory] of analyze-files.js,
    is embedded as well, on the same tree. *)

From Stdlib Require Import List NArith ZArith Bool Lia Ascii.
From Stdlib Require String.
Import String.StringSyntax.
From Stdlib Require Import Sorting.Sorted Permutation DecimalN.
Import ListNotations.

Local Open Scope N_scope.
Local Open Scope list_scope.

(** ** JavaScript strings *)

Definition jsstring := list N.

(** An ASCII literal as code units. *)
Definition lit (s : String.string) : jsstring :=
  List.map N_of_ascii (String.list_ascii_of_string s).
Arguments lit s%_string_scope.

Fixpoint str_eqb (a b : jsstring) : bool :=
  match a, b with
  | [], [] => true
  | x :: a', y :: b' => (x =? y) && str_eqb a' b'
  | _, _ => false
  end.

(** [a < b], [a === b], [a > b] on strings: code unit by code unit, a proper
    prefix is smaller. *)
Fixpoint str_compare (a b : jsstring) : comparison :=
  match a, b with
  | [], [] => Eq
  | [], _ :: _ => Lt
  | _ :: _, [] => Gt
  | x :: a', y :: b' =>
      match x ?= y with
      | Eq => str_compare a' b'
      | c => c
      end
  end.

Definition str_leb (a b : jsstring) : bool :=
  match str_compare a b with Gt => false | _ => true end.

(** The regular-expression class [\s], which is also the set that
    [String.prototype.trim] strips: WhiteSpace and LineTerminator. *)
Definition isWhiteSpace (c : N) : bool :=
  ((9 <=? c) && (c <=? 13)) || (c =? 32) || (c =? 0xA0) || (c =? 0x1680)
  || ((0x2000 <=? c) && (c <=? 0x200A)) || (c =? 0x2028) || (c =? 0x2029)
  || (c =? 0x202F) || (c =? 0x205F) || (c =? 0x3000) || (c =? 0xFEFF).

(** [[a-f0-9]] under the [i] flag. *)
Definition isHexDigit (c : N) : bool :=
  ((48 <=? c) && (c <=? 57)) || ((97 <=? c) && (c <=? 102))
  || ((65 <=? c) && (c <=? 70)).

(** The class [\w] (no [i] flag): [[A-Za-z0-9_]]. *)
Definition isWordChar (c : N) : bool :=
  ((48 <=? c) && (c <=? 57)) || ((97 <=? c) && (c <=? 122))
  || ((65 <=? c) && (c <=? 90)) || (c =? 95).

Definition isHighSurrogate (c : N) : bool := (0xD800 <=? c) && (c <=? 0xDBFF).
Definition isLowSurrogate (c : N) : bool := (0xDC00 <=? c) && (c <=? 0xDFFF).

(** The code point of a surrogate pair. *)
Definition codePoint (hi lo : N) : N :=
  0x10000 + (hi - 0xD800) * 0x400 + (lo - 0xDC00).

Fixpoint dropWhile (p : N -> bool) (s : jsstring) : jsstring :=
  match s with
  | [] => []
  | c :: r => if p c then dropWhile p r else s
  end.

Definition trimStart (s : jsstring) : jsstring := dropWhile isWhiteSpace s.
Definition trimEnd (s : jsstring) : jsstring := rev (trimStart (rev s)).
Definition trim (s : jsstring) : jsstring := trimEnd (trimStart s).

(** [s.split(sep)] for a one-unit separator; the empty string splits into
    one empty part. *)
Fixpoint split_on (sep : N) (s : jsstring) : list jsstring :=
  match s with
  | [] => [[]]
  | c :: r =>
      if c =? sep then [] :: split_on sep r
      else match split_on sep r with
           | h :: t => (c :: h) :: t
           | [] => [[c]]
           end
  end.

(** [toLowerCase] on the ASCII letters.  The other case mappings of Unicode
    are left out: none of them produces ".", "p", "d" or "f", so the test
    [name.toLowerCase().endsWith('.pdf')], the only use in the program, is
    not affected. *)
Definition lowerUnit (c : N) : N :=
  if (65 <=? c) && (c <=? 90) then c + 32 else c.
Definition toLowerCase (s : jsstring) : jsstring := List.map lowerUnit s.

Definition endsWith (s suffix : jsstring) : bool :=
  (length suffix <=? length s)%nat
  && str_eqb (skipn (length s - length suffix) s) suffix.

(** [s.padStart(n, fill)] for a one-unit [fill]. *)
Definition padStart (n : nat) (fill : N) (s : jsstring) : jsstring :=
  repeat fill (n - length s) ++ s.

(** [String(n)] for a non-negative integer: its decimal digits. *)
Fixpoint uint_units (u : Decimal.uint) : jsstring :=
  match u with
  | Decimal.Nil => []
  | Decimal.D0 r => 48 :: uint_units r
  | Decimal.D1 r => 49 :: uint_units r
  | Decimal.D2 r => 50 :: uint_units r
  | Decimal.D3 r => 51 :: uint_units r
  | Decimal.D4 r => 52 :: uint_units r
  | Decimal.D5 r => 53 :: uint_units r
  | Decimal.D6 r => 54 :: uint_units r
  | Decimal.D7 r => 55 :: uint_units r
  | Decimal.D8 r => 56 :: uint_units r
  | Decimal.D9 r => 57 :: uint_units r
  end.

Definition String_of_N (n : N) : jsstring := uint_units (N.to_uint n).

(** What a template literal prints for an array slot that does not exist. *)
Definition undefined_str : jsstring := lit "undefined".

(** [arr[i]] inside a template literal. *)
Definition at_index (arr : list jsstring) (i : nat) : jsstring :=
  nth i arr undefined_str.

(** ** cleanFolderName *)

(** [/\s+[a-f0-9]{32}$/i], matched by backtracking.  [hex32_end s]: the rest
    of the pattern, [[a-f0-9]{32}$], matches the whole of [s]. *)
Definition hex32_end (s : jsstring) : bool :=
  (length s =? 32)%nat && forallb isHexDigit s.

(** One whitespace unit has been consumed: [\s+] first tries to take one
    more (greedy), and gives it back when the rest then fails. *)
Fixpoint after_space (s : jsstring) : bool :=
  match s with
  | [] => hex32_end s
  | c :: r => (isWhiteSpace c && after_space r) || hex32_end s
  end.

(** The pattern matches at the start of [s] (and runs to its end). *)
Definition hash_match_here (s : jsstring) : bool :=
  match s with
  | [] => false
  | c :: r => isWhiteSpace c && after_space r
  end.

(** [folderName.replace(/\s+[a-f0-9]{32}$/i, '')]: the leftmost start
    position where the pattern matches; the match runs to the end of the
    string, so replacing it leaves the text before that position. *)
Fixpoint strip_hash (s : jsstring) : jsstring :=
  if hash_match_here s then []
  else match s with
       | [] => []
       | c :: r => c :: strip_hash r
       end.

(** The code points that the negated class of the second pattern does NOT
    match, that is the ones that are kept. *)
Definition isEmoji (cp : N) : bool :=
  ((0x1F600 <=? cp) && (cp <=? 0x1F64F)) || ((0x1F300 <=? cp) && (cp <=? 0x1F5FF))
  || ((0x1F680 <=? cp) && (cp <=? 0x1F6FF)) || ((0x1F1E0 <=? cp) && (cp <=? 0x1F1FF))
  || ((0x2600 <=? cp) && (cp <=? 0x26FF)) || ((0x2700 <=? cp) && (cp <=? 0x27BF)).

Definition keptCodePoint (cp : N) : bool :=
  isWordChar cp || isWhiteSpace cp || isEmoji cp.

(** [.replace(/[^\w\s...]/gu, '')].  Under the [u] flag the pattern walks
    code points: a high surrogate followed by a low one is one code point,
    any other unit (a lone surrogate too) is a code point by itself. *)
Fixpoint remove_special (s : jsstring) : jsstring :=
  match s with
  | [] => []
  | c :: r =>
      match r with
      | lo :: r' =>
          if isHighSurrogate c && isLowSurrogate lo then
            if keptCodePoint (codePoint c lo) then c :: lo :: remove_special r'
            else remove_special r'
          else
            if keptCodePoint c then c :: remove_special r else remove_special r
      | [] => if keptCodePoint c then [c] else []
      end
  end.

(** [.replace(/\s+/g, '_')]: every maximal run of whitespace becomes one
    underscore.  [in_run] tells that the previous unit was whitespace. *)
Fixpoint collapse_from (in_run : bool) (s : jsstring) : jsstring :=
  match s with
  | [] => []
  | c :: r =>
      if isWhiteSpace c then
        if in_run then collapse_from true r else 95 :: collapse_from true r
      else c :: collapse_from false r
  end.

Definition collapse_spaces (s : jsstring) : jsstring := collapse_from false s.

Definition cleanFolderName (folderName : jsstring) : jsstring :=
  let cleaned := strip_hash folderName in
  trim (collapse_spaces (remove_special cleaned)).

(** ** generateFileName *)

Definition generateFileName (folderPath : jsstring) (index : N) : jsstring :=
  let parts :=
    filter (fun part => negb (str_eqb part (lit "."))) (split_on 47 folderPath) in
  let cleanedParts := List.map cleanFolderName parts in
  let paddedIndex := padStart 2 48 (String_of_N index) in
  if (length cleanedParts =? 0)%nat then
    paddedIndex ++ lit "-Root.pdf"
  else if (length cleanedParts =? 1)%nat then
    paddedIndex ++ lit "-" ++ at_index cleanedParts 0 ++ lit ".pdf"
  else
    let parent := at_index cleanedParts (length cleanedParts - 2) in
    let child := at_index cleanedParts (length cleanedParts - 1) in
    paddedIndex ++ lit "-" ++ parent ++ lit "-" ++ child ++ lit ".pdf".

(** ** The world: a file system and a console *)

(** The outcome of an operation that may throw; [Throw] carries
    [error.message]. *)
Inductive Exn (A : Type) : Type :=
| Ok (a : A)
| Throw (message : jsstring).
Arguments Ok {A} a.
Arguments Throw {A} message.

Definition bytes := list Byte.byte.

Set Warnings "-register-all".

(** A node of the file system.  A regular file carries what [fs.stat] and
    [fs.readFile] give for it, a directory what [fs.readdir] gives; anything
    else (symbolic link, socket, ...) has [isFile()] and [isDirectory()]
    both false. *)
Inductive node : Type :=
| File (stat_size : Exn N) (data : Exn bytes)
| Dir (entries : Exn (list (jsstring * node)))
| Special.

Inductive level : Type := Log | Warn | Error.

(** One call of [console.log], [console.warn] or [console.error]. *)
Definition event : Type := level * jsstring.

Definition ENOENT : jsstring := lit "ENOENT: no such file or directory".
Definition ENOTDIR : jsstring := lit "ENOTDIR: not a directory".
Definition EISDIR : jsstring := lit "EISDIR: illegal operation on a directory".
Definition EACCES : jsstring := lit "EACCES: permission denied".
Definition EEXIST : jsstring := lit "EEXIST: file already exists".

(** POSIX [path.join(a, b)] where [a] is normalised and has no trailing
    separator and [b] is a plain name or a normalised relative path, which
    is how the program calls it. *)
Definition path_join (a b : jsstring) : jsstring := a ++ lit "/" ++ b.

(** The components of a path.  The program builds its paths from
    [process.cwd()] and the names that [readdir] returns, so they hold no
    [..]; such a component is not resolved here. *)
Definition segments (p : jsstring) : list jsstring :=
  filter (fun s => negb (str_eqb s []) && negb (str_eqb s (lit ".")))
         (split_on 47 p).

Fixpoint find_entry (name : jsstring) (items : list (jsstring * node))
  : option node :=
  match items with
  | [] => None
  | (n, c) :: rest => if str_eqb n name then Some c else find_entry name rest
  end.

(** Replace the entry called [name], or add it at the end. *)
Fixpoint set_entry (name : jsstring) (c : node) (items : list (jsstring * node))
  : list (jsstring * node) :=
  match items with
  | [] => [(name, c)]
  | (n, c0) :: rest =>
      if str_eqb n name then (n, c) :: rest else (n, c0) :: set_entry name c rest
  end.

Fixpoint lookup (n : node) (segs : list jsstring) : option node :=
  match segs with
  | [] => Some n
  | s :: rest =>
      match n with
      | Dir (Ok items) =>
          match find_entry s items with
          | Some c => lookup c rest
          | None => None
          end
      | _ => None
      end
  end.

(** Create or overwrite the regular file at [segs]. *)
Fixpoint put (segs : list jsstring) (f : node) (n : node) : Exn node :=
  match segs with
  | [] => Throw EISDIR
  | s :: rest =>
      match n with
      | Dir (Ok items) =>
          match rest with
          | [] =>
              match find_entry s items with
              | Some (Dir _) => Throw EISDIR
              | Some Special => Throw EACCES
              | _ => Ok (Dir (Ok (set_entry s f items)))
              end
          | _ :: _ =>
              match find_entry s items with
              | Some c =>
                  match put rest f c with
                  | Ok c' => Ok (Dir (Ok (set_entry s c' items)))
                  | Throw m => Throw m
                  end
              | None => Throw ENOENT
              end
          end
      | Dir (Throw m) => Throw m
      | _ => Throw ENOTDIR
      end
  end.

(** [mkdir] with [recursive: true]. *)
Fixpoint mkdirp (segs : list jsstring) (n : node) : Exn node :=
  match segs with
  | [] => match n with Dir _ => Ok n | _ => Throw EEXIST end
  | s :: rest =>
      match n with
      | Dir (Ok items) =>
          match find_entry s items with
          | Some c =>
              match mkdirp rest c with
              | Ok c' => Ok (Dir (Ok (set_entry s c' items)))
              | Throw m => Throw m
              end
          | None =>
              match mkdirp rest (Dir (Ok [])) with
              | Ok c' => Ok (Dir (Ok (set_entry s c' items)))
              | Throw m => Throw m
              end
          end
      | Dir (Throw m) => Throw m
      | _ => Throw ENOTDIR
      end
  end.

(** The listing without the entries called [name]. *)
Definition remove_entry (name : jsstring) (items : list (jsstring * node))
  : list (jsstring * node) :=
  filter (fun it => negb (str_eqb (fst it) name)) items.

(** Remove the entry at [segs]. *)
Fixpoint unlink (segs : list jsstring) (n : node) : node :=
  match segs with
  | [] => n
  | s :: rest =>
      match n with
      | Dir (Ok items) =>
          match rest with
          | [] => Dir (Ok (remove_entry s items))
          | _ :: _ =>
              match find_entry s items with
              | Some c => Dir (Ok (set_entry s (unlink rest c) items))
              | None => n
              end
          end
      | _ => n
      end
  end.

(** The tree with the regular file [f] at [segs], where one can be put. *)
Definition with_file (segs : list jsstring) (f : node) (n : node) : node :=
  match put segs f n with
  | Ok n' => n'
  | Throw _ => n
  end.

(** ** The monad of the asynchronous functions

    A computation reads and updates the file system, emits console events
    and returns or throws.  What was written before a throw stays. *)

Definition M (A : Type) : Type := node -> Exn A * node * list event.

Definition ret {A} (a : A) : M A := fun fs => (Ok a, fs, []).

Definition throw {A} (m : jsstring) : M A := fun fs => (Throw m, fs, []).

Definition bind {A B} (c : M A) (k : A -> M B) : M B :=
  fun fs =>
    match c fs with
    | (Ok a, fs1, e1) =>
        match k a fs1 with
        | (r, fs2, e2) => (r, fs2, e1 ++ e2)
        end
    | (Throw m, fs1, e1) => (Throw m, fs1, e1)
    end.

(** [try { c } catch (error) { h error.message }] *)
Definition try_catch {A} (c : M A) (h : jsstring -> M A) : M A :=
  fun fs =>
    match c fs with
    | (Ok a, fs1, e1) => (Ok a, fs1, e1)
    | (Throw m, fs1, e1) =>
        match h m fs1 with
        | (r, fs2, e2) => (r, fs2, e1 ++ e2)
        end
    end.

Definition lift {A} (r : Exn A) : M A := fun fs => (r, fs, []).

Definition console (l : level) (msg : jsstring) : M unit :=
  fun fs => (Ok tt, fs, [(l, msg)]).

Declare Scope js_scope.
Delimit Scope js_scope with js.
Notation "x <- c1 ;; c2" := (bind c1 (fun x => c2))
  (at level 61, c1 at next level, right associativity) : js_scope.
Notation "c1 ;; c2" := (bind c1 (fun _ => c2))
  (at level 61, right associativity) : js_scope.
Local Open Scope js_scope.

Definition result_of {A} (r : Exn A * node * list event) : Exn A := fst (fst r).
Definition fs_of {A} (r : Exn A * node * list event) : node := snd (fst r).
Definition events_of {A} (r : Exn A * node * list event) : list event := snd r.

(** ** fs.promises *)

Inductive kind : Type := KFile | KDirectory | KOther.

(** A [Dirent] of [readdir(..., { withFileTypes: true })]. *)
Record Dirent : Type := { d_name : jsstring; d_kind : kind }.

Definition isFile (d : Dirent) : bool :=
  match d_kind d with KFile => true | _ => false end.
Definition isDirectory (d : Dirent) : bool :=
  match d_kind d with KDirectory => true | _ => false end.

Definition kind_of (n : node) : kind :=
  match n with File _ _ => KFile | Dir _ => KDirectory | Special => KOther end.

Definition dirent_of (it : jsstring * node) : Dirent :=
  {| d_name := fst it; d_kind := kind_of (snd it) |}.

Definition fs_readdir (p : jsstring) : M (list Dirent) :=
  fun fs =>
    match lookup fs (segments p) with
    | Some (Dir (Ok items)) => (Ok (List.map dirent_of items), fs, [])
    | Some (Dir (Throw m)) => (Throw m, fs, [])
    | Some _ => (Throw ENOTDIR, fs, [])
    | None => (Throw ENOENT, fs, [])
    end.

(** [(await fs.stat(p)).size] *)
Definition fs_stat (p : jsstring) : M N :=
  fun fs =>
    match lookup fs (segments p) with
    | Some (File sz _) => (sz, fs, [])
    | Some (Dir _) => (Ok 4096, fs, [])
    | Some Special => (Ok 0, fs, [])
    | None => (Throw ENOENT, fs, [])
    end.

Definition fs_readFile (p : jsstring) : M bytes :=
  fun fs =>
    match lookup fs (segments p) with
    | Some (File _ d) => (d, fs, [])
    | Some (Dir _) => (Throw EISDIR, fs, [])
    | Some Special => (Throw EACCES, fs, [])
    | None => (Throw ENOENT, fs, [])
    end.

Definition new_file (b : bytes) : node :=
  File (Ok (N.of_nat (length b))) (Ok b).

Definition fs_mkdir_recursive (p : jsstring) : M unit :=
  fun fs =>
    match mkdirp (segments p) fs with
    | Ok fs' => (Ok tt, fs', [])
    | Throw m => (Throw m, fs, [])
    end.

(** ** Array.prototype.sort

    A stable insertion sort; [before a b] tells that [a] may stay in front of
    [b] (the comparator gives a value that is not positive). *)
Fixpoint insert_by {A} (before : A -> A -> bool) (x : A) (l : list A) : list A :=
  match l with
  | [] => [x]
  | y :: r => if before x y then x :: l else y :: insert_by before x r
  end.

Definition sort_by {A} (before : A -> A -> bool) (l : list A) : list A :=
  fold_right (insert_by before) [] l.

(** [arr.sort()] on strings: by code units. *)
Definition sort_default (l : list jsstring) : list jsstring := sort_by str_leb l.

(** How far a write that fails for a reason the tree does not show (disk
    full, quota, I/O error, no descriptor left) has come: it fails before
    its destination is opened, or after that, with some of the bytes
    written.  Opening creates the file or empties it. *)
Inductive progress : Type :=
| NotOpened
| Opened (written : nat).

(** ** The platform

    What the program takes from outside the repository's code: the PDF
    library, the locale's collation, the failures of the storage below the
    tree, and [formatBytes], whose floating-point arithmetic ([Math.log],
    [toFixed]) is not modelled; it only produces text for the console. *)
Class Platform : Type := {
  page : Type;
  (** [PDFDocument.load(bytes)] *)
  PDFDocument_load : bytes -> Exn (list page);
  (** [mergedPdf.copyPages(pdf, pdf.getPageIndices())] *)
  copyPages : list page -> Exn (list page);
  (** [mergedPdf.save()]: the document after the call and its bytes *)
  PDFDocument_save : list page -> Exn (list page * bytes);
  (** [a.localeCompare(b)] *)
  localeCompare : jsstring -> jsstring -> Z;
  formatBytes : N -> jsstring;
  (** whether [fs.writeFile(p, b)], in the file system [fs] and on a path
      that can be written, fails all the same, with which message and how
      far it has come *)
  writeFile_fault : node -> jsstring -> bytes -> option (jsstring * progress);
  (** the same for [fs.copyFile(src, dst)] *)
  copyFile_fault : node -> jsstring -> jsstring -> option (jsstring * progress);
  (** whether the destination of a copy that failed after opening it can
      be removed *)
  copyFile_removes : node -> jsstring -> bool
}.

(** ** fs.promises: writing *)

Section Writing.

Context {platform : Platform}.

(** [fs.writeFile(p, b)] opens [p] with flag [w] and writes [b] to it in
    place: a failure of the open leaves the tree as it is, a later failure
    leaves the file with the bytes written so far. *)
Definition fs_writeFile (p : jsstring) (b : bytes) : M unit :=
  fun fs =>
    match put (segments p) (new_file b) fs with
    | Ok fs' =>
        match writeFile_fault fs p b with
        | None => (Ok tt, fs', [])
        | Some (message, NotOpened) => (Throw message, fs, [])
        | Some (message, Opened written) =>
            (Throw message,
             with_file (segments p) (new_file (firstn written b)) fs, [])
        end
    | Throw m => (Throw m, fs, [])
    end.

(** [fs.copyFile(src, dst)] is not atomic either: after a failure that comes
    once [dst] is open, it tries to remove [dst]; where that does not work
    the bytes copied so far stay. *)
Definition fs_copyFile (src dst : jsstring) : M unit :=
  b <- fs_readFile src ;;
  fun fs =>
    match put (segments dst) (new_file b) fs with
    | Ok fs' =>
        match copyFile_fault fs src dst with
        | None => (Ok tt, fs', [])
        | Some (message, NotOpened) => (Throw message, fs, [])
        | Some (message, Opened written) =>
            (Throw message,
             if copyFile_removes fs dst then unlink (segments dst) fs
             else with_file (segments dst) (new_file (firstn written b)) fs,
             [])
        end
    | Throw m => (Throw m, fs, [])
    end.

End Writing.

(** ** Configuration *)

Definition MIN_FILE_SIZE : N := 20 * 1024.
Definition OUTPUT_DIR : jsstring := lit "output".

Section Program.

Context {platform : Platform}.

(** ** getValidPDFs *)

Record PdfFile : Type := { name : jsstring; path : jsstring; size : N }.

Definition is_pdf_entry (item : Dirent) : bool :=
  isFile item && endsWith (toLowerCase (d_name item)) (lit ".pdf").

(** The body of the loop for an entry that passed the name test: the inner
    [try] around [fs.stat], for a threshold [minFileSize]. *)
Definition stat_and_filter (minFileSize : N) (folderPath : jsstring)
    (item : Dirent) (validPDFs : list PdfFile) : M (list PdfFile) :=
  let fullPath := path_join folderPath (d_name item) in
  try_catch
    (stats_size <- fs_stat fullPath ;;
     if minFileSize <=? stats_size then
       ret (validPDFs ++
            [{| name := d_name item; path := fullPath; size := stats_size |}])
     else
       console Log (lit "  Skipping small file: " ++ d_name item ++ lit " ("
                    ++ formatBytes stats_size ++ lit ")") ;;
       ret validPDFs)
    (fun message =>
       console Warn (lit "  Warning: Could not stat " ++ d_name item
                     ++ lit ": " ++ message) ;;
       ret validPDFs).

(** The loop over [items]. *)
Fixpoint collect_pdfs (minFileSize : N) (folderPath : jsstring)
    (items : list Dirent) (validPDFs : list PdfFile) : M (list PdfFile) :=
  match items with
  | [] => ret validPDFs
  | item :: rest =>
      if is_pdf_entry item then
        validPDFs' <- stat_and_filter minFileSize folderPath item validPDFs ;;
        collect_pdfs minFileSize folderPath rest validPDFs'
      else collect_pdfs minFileSize folderPath rest validPDFs
  end.

Definition by_name (a b : PdfFile) : bool :=
  (localeCompare (name a) (name b) <=? 0)%Z.

Definition getValidPDFs_with (minFileSize : N) (folderPath : jsstring)
  : M (list PdfFile) :=
  try_catch
    (items <- fs_readdir folderPath ;;
     validPDFs <- collect_pdfs minFileSize folderPath items [] ;;
     ret (sort_by by_name validPDFs))
    (fun message =>
       console Error (lit "Error reading folder " ++ folderPath ++ lit ": "
                      ++ message) ;;
       ret []).

Definition getValidPDFs (folderPath : jsstring) : M (list PdfFile) :=
  getValidPDFs_with MIN_FILE_SIZE folderPath.

(** ** mergePDFs *)

(** The body of the inner [try]: read one input and copy its pages. *)
Definition import_pdf (pdfFile : PdfFile) : M (list page) :=
  console Log (lit "  Adding: " ++ name pdfFile ++ lit " ("
               ++ formatBytes (size pdfFile) ++ lit ")") ;;
  pdfBytes <- fs_readFile (path pdfFile) ;;
  pdf <- lift (PDFDocument_load pdfBytes) ;;
  lift (copyPages pdf).

(** The body of the loop: the inner [try], which skips an input that cannot
    be imported.  [mergedPdf] is the pages added so far. *)
Definition add_one (pdfFile : PdfFile) (mergedPdf : list page)
  : M (list page) :=
  try_catch
    (pages <- import_pdf pdfFile ;;
     ret (mergedPdf ++ pages))
    (fun message =>
       console Warn (lit "  Warning: Could not process " ++ name pdfFile
                     ++ lit ": " ++ message) ;;
       ret mergedPdf).

(** The loop over [pdfFiles]. *)
Fixpoint add_all (pdfFiles : list PdfFile) (mergedPdf : list page)
  : M (list page) :=
  match pdfFiles with
  | [] => ret mergedPdf
  | pdfFile :: rest =>
      mergedPdf' <- add_one pdfFile mergedPdf ;;
      add_all rest mergedPdf'
  end.

Definition mergePDFs (pdfFiles : list PdfFile) (outputPath : jsstring) : M bool :=
  match pdfFiles with
  | [] =>
      console Log (lit "  No PDFs to merge") ;;
      ret false
  | [only] =>
      try_catch
        (fs_copyFile (path only) outputPath ;;
         console Log (lit "  Copied single PDF: " ++ name only) ;;
         ret true)
        (fun message =>
           console Error (lit "  Error copying single PDF: " ++ message) ;;
           ret false)
  | _ :: _ :: _ =>
      try_catch
        (mergedPdf <- add_all pdfFiles [] ;;
         saved <- lift (PDFDocument_save mergedPdf) ;;
         fs_writeFile outputPath (snd saved) ;;
         console Log (lit "  Created merged PDF with "
                      ++ String_of_N (N.of_nat (length (fst saved)))
                      ++ lit " pages") ;;
         ret true)
        (fun message =>
           console Error (lit "  Error merging PDFs: " ++ message) ;;
           ret false)
  end.

(** ** scanFolders *)

Definition is_pdf_item (it : jsstring * node) : bool :=
  is_pdf_entry (dirent_of it).

(** The inner function [scan], by recursion on the directory that
    [readdir(currentPath)] lists: the pushes to [folders], in order, and the
    console events. *)
Fixpoint scan (n : node) (currentPath relativePath : jsstring)
  : list jsstring * list event :=
  match n with
  | Dir (Ok items) =>
      let hasDirectPDFs := existsb is_pdf_item items in
      let here := if hasDirectPDFs then [relativePath] else [] in
      let below :=
        (fix each (its : list (jsstring * node)) : list jsstring * list event :=
           match its with
           | [] => ([], [])
           | (item_name, child) :: rest =>
               match child with
               | Dir _ =>
                   let subPath := path_join currentPath item_name in
                   let subRelative :=
                     if str_eqb relativePath (lit ".") then item_name
                     else path_join relativePath item_name in
                   let sub := scan child subPath subRelative in
                   let others := each rest in
                   (fst sub ++ fst others, snd sub ++ snd others)
               | _ => each rest
               end
           end) items in
      (here ++ fst below, snd below)
  | Dir (Throw message) =>
      ([], [(Error, lit "Error scanning " ++ currentPath ++ lit ": " ++ message)])
  | _ =>
      ([], [(Error, lit "Error scanning " ++ currentPath ++ lit ": " ++ ENOTDIR)])
  end.

Definition scanFolders (basePath : jsstring) : M (list jsstring) :=
  fun fs =>
    let root :=
      match lookup fs (segments basePath) with
      | Some n => n
      | None => Dir (Throw ENOENT)
      end in
    let found := scan root basePath (lit ".") in
    (Ok (sort_default (fst found)), fs, snd found).

(** ** main *)

(** The three marks of the per-folder lines. *)
Definition CHECK_MARK : jsstring := [0x2713].
Definition BALLOT_X : jsstring := [0x2717].
Definition WARNING_SIGN : jsstring := [0x26A0].
Definition NL : jsstring := [10].

(** The body of the loop, for index [i]; it gives the new value of
    [successCount]. *)
Definition process_folder (sourceDir outputDir : jsstring) (total : nat)
    (i : nat) (folderPath : jsstring) (successCount : N) : M N :=
  let fullFolderPath :=
    if str_eqb folderPath (lit ".") then sourceDir
    else path_join sourceDir folderPath in
  let outputFileName := generateFileName folderPath (N.of_nat i + 1) in
  let outputPath := path_join outputDir outputFileName in
  console Log (lit "[" ++ String_of_N (N.of_nat i + 1) ++ lit "/"
               ++ String_of_N (N.of_nat total) ++ lit "] Processing: "
               ++ (if str_eqb folderPath (lit ".") then lit "(root)"
                   else folderPath)) ;;
  console Log (lit "  Output: " ++ outputFileName) ;;
  pdfFiles <- getValidPDFs fullFolderPath ;;
  if (0 <? length pdfFiles)%nat then
    success <- mergePDFs pdfFiles outputPath ;;
    if success : bool then
      stats_size <- fs_stat outputPath ;;
      console Log (lit "  " ++ CHECK_MARK ++ lit " Success: "
                   ++ formatBytes stats_size ++ NL) ;;
      ret (successCount + 1)
    else
      console Log (lit "  " ++ BALLOT_X ++ lit " Failed to merge" ++ NL) ;;
      ret successCount
  else
    console Log (lit "  " ++ WARNING_SIGN ++ lit " No valid PDFs found (all files < "
                 ++ formatBytes MIN_FILE_SIZE ++ lit ")" ++ NL) ;;
    ret successCount.

(** [for (let i = ...; i < folders.length; i++)], from index [i] on, over
    the folders that are left; it gives [(processedCount, successCount)]. *)
Fixpoint process_from (sourceDir outputDir : jsstring) (total : nat) (i : nat)
    (folders : list jsstring) (processedCount successCount : N) : M (N * N) :=
  match folders with
  | [] => ret (processedCount, successCount)
  | folderPath :: rest =>
      successCount' <-
        process_folder sourceDir outputDir total i folderPath successCount ;;
      process_from sourceDir outputDir total (S i) rest
                   (processedCount + 1) successCount'
  end.

Fixpoint log_each (files : list jsstring) : M unit :=
  match files with
  | [] => ret tt
  | file :: rest => console Log (lit "  - " ++ file) ;; log_each rest
  end.

(** [main], with [process.cwd()] as [sourceDir]; the value is the exit code:
    1 after [process.exit(1)], 0 otherwise. *)
Definition main (sourceDir : jsstring) : M N :=
  let outputDir := path_join sourceDir OUTPUT_DIR in
  console Log (lit "PDF Merger Starting...") ;;
  console Log (lit "Source: " ++ sourceDir) ;;
  console Log (lit "Output: " ++ outputDir) ;;
  console Log (lit "Minimum file size: " ++ formatBytes MIN_FILE_SIZE ++ NL) ;;
  try_catch
    (fs_mkdir_recursive outputDir ;;
     console Log (lit "Scanning for folders with PDF files...") ;;
     folders <- scanFolders sourceDir ;;
     console Log (lit "Found " ++ String_of_N (N.of_nat (length folders))
                  ++ lit " folders with PDF files" ++ NL) ;;
     counts <- process_from sourceDir outputDir (length folders) 0 folders 0 0 ;;
     console Log (repeat 61 60) ;;
     console Log (lit "Merge Summary:") ;;
     console Log (lit "- Folders processed: " ++ String_of_N (fst counts)) ;;
     console Log (lit "- Successful merges: " ++ String_of_N (snd counts)) ;;
     console Log (lit "- Output directory: " ++ outputDir) ;;
     outputFiles <- fs_readdir outputDir ;;
     (if (0 <? length outputFiles)%nat then
        console Log (NL ++ lit "Generated files:") ;;
        log_each (sort_default (List.map d_name outputFiles))
      else ret tt) ;;
     ret 0)
    (fun message =>
       console Error (lit "Fatal error: " ++ message) ;;
       ret 1).

End Program.

(** ** A sample world

    A small platform and tree on which the program is run below.  In the
    sample platform a page is a byte, a document is its pages, a file
    without bytes does not load, and no write fails. *)

Definition sample_platform : Platform :=
  {| page := Byte.byte;
     PDFDocument_load :=
       fun b => match b with
                | [] => Throw (lit "Failed to parse PDF document")
                | _ => Ok b
                end;
     copyPages := fun pages => Ok pages;
     PDFDocument_save := fun doc => Ok (doc, doc);
     localeCompare :=
       fun a b => match str_compare a b with
                  | Lt => (-1)%Z
                  | Eq => 0%Z
                  | Gt => 1%Z
                  end;
     formatBytes := fun n => String_of_N n ++ lit " B";
     writeFile_fault := fun _ _ _ => None;
     copyFile_fault := fun _ _ _ => None;
     copyFile_removes := fun _ _ => true |}.

Definition ENOSPC : jsstring := lit "ENOSPC: no space left on device".

(** The sample platform on a full disk: a file can be created or emptied,
    and no byte can be written to it; [removable] tells whether the
    destination of a failed copy can be removed. *)
Definition full_disk_platform (removable : bool) : Platform :=
  {| page := Byte.byte;
     PDFDocument_load := @PDFDocument_load sample_platform;
     copyPages := @copyPages sample_platform;
     PDFDocument_save := @PDFDocument_save sample_platform;
     localeCompare := @localeCompare sample_platform;
     formatBytes := @formatBytes sample_platform;
     writeFile_fault := fun _ _ _ => Some (ENOSPC, Opened 0);
     copyFile_fault := fun _ _ _ => Some (ENOSPC, Opened 0);
     copyFile_removes := fun _ _ => removable |}.

Definition sample_file (sz : N) (b : bytes) : node := File (Ok sz) (Ok b).

(** The tree below [/w]: the root holds [z.pdf], [A] holds one file of
    20480 bytes and one of 20479, [B/C] holds two good files, [(old)] holds
    two files that do not load, and [tmp] holds one small file. *)
Definition sample_fs : node :=
  Dir (Ok [(lit "w", Dir (Ok [
     (lit "A", Dir (Ok [(lit "doc1.pdf", sample_file 20480 [Byte.x01]);
                        (lit "stub.PDF", sample_file 20479 [Byte.x02])]));
     (lit "B", Dir (Ok [(lit "C", Dir (Ok [
        (lit "doc2.pdf", sample_file 50000 [Byte.x03]);
        (lit "doc3.pdf", sample_file 50000 [Byte.x04])]))]));
     (lit "(old)", Dir (Ok [(lit "x.pdf", sample_file 50000 []);
                            (lit "y.pdf", sample_file 50000 [])]));
     (lit "tmp", Dir (Ok [(lit "s.pdf", sample_file 5000 [Byte.x06])]));
     (lit "z.pdf", sample_file 30000 [Byte.x05])]))]).

Definition sample_x : PdfFile :=
  {| name := lit "x.pdf"; path := lit "/w/(old)/x.pdf"; size := 50000 |}.
Definition sample_y : PdfFile :=
  {| name := lit "y.pdf"; path := lit "/w/(old)/y.pdf"; size := 50000 |}.

(** A second tree, below [/v]: the root holds a PDF file, and so do
    [api], [Guides] and [Guides/Setup]. *)
Definition sample_docs : node :=
  Dir (Ok [(lit "v", Dir (Ok [
     (lit "index.pdf", sample_file 30000 [Byte.x01]);
     (lit "api", Dir (Ok [(lit "ref.pdf", sample_file 30000 [Byte.x02])]));
     (lit "Guides", Dir (Ok [
        (lit "intro.pdf", sample_file 30000 [Byte.x03]);
        (lit "Setup", Dir (Ok [(lit "steps.pdf", sample_file 30000 [Byte.x04])]))
      ]))]))]).

(** The sample tree with the listing of [/w] in the opposite order. *)
Definition sample_fs_reversed : node :=
  match sample_fs with
  | Dir (Ok [(w, Dir (Ok items))]) => Dir (Ok [(w, Dir (Ok (rev items)))])
  | n => n
  end.

(** * The vocabulary of the properties *)

(** [s] is [pre] followed by a run of whitespace and exactly 32 hexadecimal
    characters. *)
Definition ends_in_hash_suffix (pre s : jsstring) : Prop :=
  exists ws hex,
    s = pre ++ ws ++ hex /\ ws <> []
    /\ forallb isWhiteSpace ws = true
    /\ length hex = 32%nat /\ forallb isHexDigit hex = true.

(** [pre] does not end in whitespace, so that a whitespace run after it is
    the whole run. *)
Definition no_trailing_space (pre : jsstring) : Prop :=
  forall p c, pre = p ++ [c] -> isWhiteSpace c = false.

(** A string made of code points that the second pattern keeps, each unit
    or pair passing [ok]: single units that are kept, and well-formed
    surrogate pairs of kept code points. *)
Inductive made_of (ok : N -> bool) : jsstring -> Prop :=
| made_nil : made_of ok []
| made_unit c r :
    keptCodePoint c = true -> ok c = true -> made_of ok r ->
    made_of ok (c :: r)
| made_pair hi lo r :
    isHighSurrogate hi = true -> isLowSurrogate lo = true ->
    keptCodePoint (codePoint hi lo) = true -> made_of ok r ->
    made_of ok (hi :: lo :: r).

Definition any_unit (c : N) : bool := true.
Definition not_space (c : N) : bool := negb (isWhiteSpace c).

(** The sanitised segments of a path, as [generateFileName] computes them. *)
Definition cleanedParts (folderPath : jsstring) : list jsstring :=
  List.map cleanFolderName
    (filter (fun part => negb (str_eqb part (lit "."))) (split_on 47 folderPath)).

Definition paddedIndex (index : N) : jsstring :=
  padStart 2 48 (String_of_N index).

(** Zeros in front of a decimal number. *)
Fixpoint zeros (k : nat) (u : Decimal.uint) : Decimal.uint :=
  match k with
  | O => u
  | S k' => Decimal.D0 (zeros k' u)
  end.

(** Lexicographic order on code units, in words: the empty string is below
    every string; otherwise the first units decide, and when they are equal
    the rests do. *)
Inductive lex_le : jsstring -> jsstring -> Prop :=
| lex_le_nil b : lex_le [] b
| lex_le_lt c d a b : c < d -> lex_le (c :: a) (d :: b)
| lex_le_eq c a b : lex_le a b -> lex_le (c :: a) (c :: b).

(** The directory that a scan of [basePath] starts from; a path that does
    not exist reads as a directory whose listing fails. *)
Definition scan_root (basePath : jsstring) (fs : node) : node :=
  match lookup fs (segments basePath) with
  | Some n => n
  | None => Dir (Throw ENOENT)
  end.

(** A computation that leaves the file system as it is. *)
Definition readonly {A} (c : M A) : Prop := forall fs, fs_of (c fs) = fs.

(** A computation that never throws. *)
Definition never_throws {A} (c : M A) : Prop :=
  forall fs, exists a, result_of (c fs) = Ok a.

(** [s.startsWith(prefix)] *)
Fixpoint startsWith (prefix s : jsstring) : bool :=
  match prefix, s with
  | [], _ => true
  | _ :: _, [] => false
  | c :: p, d :: r => (c =? d) && startsWith p r
  end.

(** The file name of a console line ["  Output: <name>"], the line by which
    [main] announces the name it has given to a directory. *)
Definition output_line (e : event) : list jsstring :=
  match e with
  | (Log, msg) =>
      if startsWith (lit "  Output: ") msg then [skipn 10 msg] else []
  | _ => []
  end.

(** The names announced in a run, in order. *)
Definition output_names (evs : list event) : list jsstring :=
  flat_map output_line evs.

(** A computation that announces no name. *)
Definition quiet {A} (c : M A) : Prop :=
  forall fs, output_names (events_of (c fs)) = [].

(** The names the loop gives from index [i] on: the folder at position [k]
    of what is left gets index [i + k + 1]. *)
Fixpoint names_from (i : nat) (folders : list jsstring) : list jsstring :=
  match folders with
  | [] => []
  | folderPath :: rest =>
      generateFileName folderPath (N.of_nat i + 1) :: names_from (S i) rest
  end.

(** The scan result that [main] works on, in the file system [fs]. *)
Definition scanned (sourceDir : jsstring) (fs : node) : list jsstring :=
  match result_of (scanFolders sourceDir fs) with
  | Ok folders => folders
  | Throw _ => []
  end.

(** ** What a write may change *)

(** [touched segs fs fs']: [fs'] is [fs], or [fs] with a regular file put at
    the position [segs], or [fs] with the file at [segs] removed. *)
Inductive touched (segs : list jsstring) (fs : node) : node -> Prop :=
| touched_not : touched segs fs fs
| touched_put b fs' : put segs (new_file b) fs = Ok fs' -> touched segs fs fs'
| touched_removed b fs' :
    put segs (new_file b) fs = Ok fs' -> touched segs fs (unlink segs fs).

(** [fs'] holds what [fs] holds at every position (a sequence of entry
    names from the root) that is not [segs] or above it. *)
Definition same_elsewhere (segs : list jsstring) (fs fs' : node) : Prop :=
  forall p, (forall below, segs <> p ++ below) -> lookup fs' p = lookup fs p.

(** A path without [..] components, as all the paths are that the program
    builds: such a path leads to the position made of its components. *)
Definition no_dotdot (p : jsstring) : Prop := ~ In (lit "..") (split_on 47 p).

(** ** The walk of the tree scan *)

(** The relative path that [scan] gives to the entry [item_name] of the
    directory whose relative path is [relativePath]. *)
Definition sub_relative (relativePath item_name : jsstring) : jsstring :=
  if str_eqb relativePath (lit ".") then item_name
  else path_join relativePath item_name.

(** [reaches n names m]: starting in [n] and going down through the entries
    [names], each a directory found in a listing that could be read, the
    walk arrives at [m]. *)
Inductive reaches : node -> list jsstring -> node -> Prop :=
| reaches_here n : reaches n [] n
| reaches_down items item_name child names m :
    In (item_name, child) items ->
    kind_of child = KDirectory ->
    reaches child names m ->
    reaches (Dir (Ok items)) (item_name :: names) m.

(** The listing holds a regular file whose name ends in [.pdf], in any
    case. *)
Definition holds_pdf (items : list (jsstring * node)) : Prop :=
  exists file_name sz data,
    In (file_name, File sz data) items
    /\ endsWith (toLowerCase file_name) (lit ".pdf") = true.

(** [decided_lt u v]: [u] and [v] differ at a position that both have, and
    [u] holds the smaller unit at the first such position. *)
Fixpoint decided_lt (u v : jsstring) : bool :=
  match u, v with
  | x :: u', y :: v' => (x <? y) || ((x =? y) && decided_lt u' v')
  | _, _ => false
  end.

(** The same tree up to the order in which each directory lists its
    entries. *)
Inductive same_tree : node -> node -> Prop :=
| same_file sz d : same_tree (File sz d) (File sz d)
| same_special : same_tree Special Special
| same_unlisted m m' : same_tree (Dir (Throw m)) (Dir (Throw m'))
| same_listed items1 items2 reordered :
    Permutation items2 reordered ->
    Forall2 (fun a b => fst a = fst b /\ same_tree (snd a) (snd b))
            items1 reordered ->
    same_tree (Dir (Ok items1)) (Dir (Ok items2)).

(** The indices [first], [first + 1], ... ([count] of them). *)
Definition index_range (first count : nat) : list N :=
  List.map N.of_nat (seq first count).

(** A word character or an emoji of the kept ranges. *)
Definition word_or_emoji (c : N) : bool := isWordChar c || isEmoji c.

Section Vocabulary.

Context {platform : Platform}.

(** What one directory entry contributes to the eligible set. *)
Definition eligible_record (minFileSize : N) (folderPath : jsstring)
    (fs : node) (item : Dirent) : list PdfFile :=
  if is_pdf_entry item then
    match result_of (fs_stat (path_join folderPath (d_name item)) fs) with
    | Ok s =>
        if minFileSize <=? s then
          [{| name := d_name item;
              path := path_join folderPath (d_name item);
              size := s |}]
        else []
    | Throw _ => []
    end
  else [].

(** The import of [pdfFile] throws: reading it, loading it or copying its
    pages fails. *)
Definition import_fails (pdfFile : PdfFile) (fs : node) : Prop :=
  exists message, result_of (import_pdf pdfFile fs) = Throw message.

(** The message with which the import of [pdfFile] throws. *)
Definition import_error (pdfFile : PdfFile) (fs : node) : jsstring :=
  match result_of (import_pdf pdfFile fs) with
  | Throw message => message
  | Ok _ => []
  end.

(** The two console lines of an input that is skipped: that it is being
    added, and the warning that it could not be processed. *)
Definition skipped_lines (fs : node) (pdfFile : PdfFile) : list event :=
  [(Log, lit "  Adding: " ++ name pdfFile ++ lit " ("
         ++ formatBytes (size pdfFile) ++ lit ")");
   (Warn, lit "  Warning: Could not process " ++ name pdfFile ++ lit ": "
          ++ import_error pdfFile fs)].

(** The last console line of a merge of two or more files. *)
Definition merged_line (saved : list page * bytes) : event :=
  (Log, lit "  Created merged PDF with "
        ++ String_of_N (N.of_nat (length (fst saved))) ++ lit " pages").

Definition merge_error_line (message : jsstring) : event :=
  (Error, lit "  Error merging PDFs: " ++ message).

End Vocabulary.

Section VocabularyMore.

Context {platform : Platform}.

(** The pages that [pdfFile] brings into a merge: those of its import, and
    none when the import throws. *)
Definition imported_pages (fs : node) (pdfFile : PdfFile) : list page :=
  match result_of (import_pdf pdfFile fs) with
  | Ok pages => pages
  | Throw _ => []
  end.

(** The lines that [main] prints before anything else. *)
Definition main_header (sourceDir : jsstring) : list event :=
  [(Log, lit "PDF Merger Starting...");
   (Log, lit "Source: " ++ sourceDir);
   (Log, lit "Output: " ++ path_join sourceDir OUTPUT_DIR);
   (Log, lit "Minimum file size: " ++ formatBytes MIN_FILE_SIZE ++ NL)].

End VocabularyMore.

(** * analyze-files.js: the analysis pass *)

(** POSIX [path.relative(from, to)] where [to] is [from] or lies below it
    ([from], a separator, and a normalised relative path), which is all that
    the walk passes to it. *)
Definition path_relative (from to : jsstring) : jsstring :=
  if str_eqb from to then [] else skipn (length from + 1) to.

(** One value of [folderStats].  The counts are JavaScript numbers; they are
    exact as long as they stay below 2^53. *)
Record FolderStat : Type :=
  { fileCount : N; totalSize : N; folderCount : N }.

(** The two objects that [analyzeDirectory] fills: the own properties of
    [folderStats], and the [Set] [allFolders] in insertion order. *)
Record Analysis : Type :=
  { folderStats : list (jsstring * FolderStat); allFolders : list jsstring }.

(** The property names that every plain object inherits from
    [Object.prototype]; each of them reads as an object or a function. *)
Definition OBJECT_PROTOTYPE_KEYS : list jsstring :=
  [lit "constructor"; lit "__defineGetter__"; lit "__defineSetter__";
   lit "hasOwnProperty"; lit "__lookupGetter__"; lit "__lookupSetter__";
   lit "isPrototypeOf"; lit "propertyIsEnumerable"; lit "toString";
   lit "valueOf"; lit "__proto__"; lit "toLocaleString"].

Definition is_inherited (key : jsstring) : bool :=
  existsb (str_eqb key) OBJECT_PROTOTYPE_KEYS.

Fixpoint own_stat (key : jsstring) (stats : list (jsstring * FolderStat))
  : option FolderStat :=
  match stats with
  | [] => None
  | (k, v) :: rest => if str_eqb k key then Some v else own_stat key rest
  end.

(** [allFolders.add(key)] *)
Definition set_add (key : jsstring) (folders : list jsstring) : list jsstring :=
  if existsb (str_eqb key) folders then folders else folders ++ [key].

(** [if (!folderStats[key]) folderStats[key] = {0, 0, 0}]: an own value and
    an inherited one are both objects, so only a key that reads as
    [undefined] is initialised. *)
Definition init_stat (key : jsstring) (stats : list (jsstring * FolderStat))
  : list (jsstring * FolderStat) :=
  match own_stat key stats with
  | Some _ => stats
  | None =>
      if is_inherited key then stats
      else stats ++ [(key, {| fileCount := 0; totalSize := 0; folderCount := 0 |})]
  end.

Fixpoint replace_stat (key : jsstring) (v : FolderStat)
    (stats : list (jsstring * FolderStat)) : list (jsstring * FolderStat) :=
  match stats with
  | [] => []
  | (k, v0) :: rest =>
      if str_eqb k key then (k, v) :: rest
      else (k, v0) :: replace_stat key v rest
  end.

(** [folderStats[key].field++] and [+=], as [change] of the record.  On an
    own value it updates the value.  On an inherited one it writes to the
    object of the prototype and [folderStats] keeps its own properties.  On
    [undefined] it throws a [TypeError]. *)
Definition update_stat (key : jsstring) (change : FolderStat -> FolderStat)
    (stats : list (jsstring * FolderStat))
  : Exn (list (jsstring * FolderStat)) :=
  match own_stat key stats with
  | Some v => Ok (replace_stat key (change v) stats)
  | None =>
      if is_inherited key then Ok stats
      else Throw (lit "Cannot read properties of undefined")
  end.

Definition count_folder (v : FolderStat) : FolderStat :=
  {| fileCount := fileCount v; totalSize := totalSize v;
     folderCount := folderCount v + 1 |}.

Definition count_file (v : FolderStat) : FolderStat :=
  {| fileCount := fileCount v + 1; totalSize := totalSize v;
     folderCount := folderCount v |}.

Definition add_size (sz : N) (v : FolderStat) : FolderStat :=
  {| fileCount := fileCount v; totalSize := totalSize v + sz;
     folderCount := folderCount v |}.

Definition with_stats (a : Analysis) (stats : list (jsstring * FolderStat))
  : Analysis :=
  {| folderStats := stats; allFolders := allFolders a |}.

(** The branch for a regular file: the inner [try] around [fs.stat] and
    the two updates; whatever is thrown there is caught and reported with
    [console.warn]. *)
Definition file_step (fullPath rel : jsstring) (stat_size : Exn N)
    (a : Analysis) : Analysis * list event :=
  let warn message :=
    [(Warn, lit "Warning: Could not get stats for " ++ fullPath ++ lit ": "
            ++ message)] in
  match stat_size with
  | Ok sz =>
      match update_stat rel count_file (folderStats a) with
      | Ok stats1 =>
          match update_stat rel (add_size sz) stats1 with
          | Ok stats2 => (with_stats a stats2, [])
          | Throw message => (with_stats a stats1, warn message)
          end
      | Throw message => (a, warn message)
      end
  | Throw message => (a, warn message)
  end.

(** The loop over [items] in the directory with relative path [rel]:
    the analysis so far, the console events, and whether the loop ended or
    threw.  [walk] is the recursive call of [scanDirectory] on an entry. *)
Fixpoint each_item (walk : node -> jsstring -> Analysis -> Analysis * list event)
    (currentPath rel : jsstring) (items : list (jsstring * node))
    (a : Analysis) : Analysis * list event * Exn unit :=
  match items with
  | [] => (a, [], Ok tt)
  | (item_name, child) :: rest =>
      let fullPath := path_join currentPath item_name in
      match child with
      | Dir _ =>
          match update_stat rel count_folder (folderStats a) with
          | Ok stats =>
              let below := walk child fullPath (with_stats a stats) in
              let others := each_item walk currentPath rel rest (fst below) in
              (fst (fst others), snd below ++ snd (fst others), snd others)
          | Throw message => (a, [], Throw message)
          end
      | File stat_size _ =>
          let step := file_step fullPath rel stat_size a in
          let others := each_item walk currentPath rel rest (fst step) in
          (fst (fst others), snd step ++ snd (fst others), snd others)
      | Special => each_item walk currentPath rel rest a
      end
  end.

(** The inner function [scanDirectory], by recursion on the directory that
    [readdir(currentPath)] lists. *)
Fixpoint scanDirectory (basePath : jsstring) (n : node) (currentPath : jsstring)
    (a : Analysis) : Analysis * list event :=
  match n with
  | Dir (Ok items) =>
      let relative := path_relative basePath currentPath in
      let relativeDirPath :=
        match relative with [] => lit "." | _ => relative end in
      let a1 :=
        {| folderStats := init_stat relativeDirPath (folderStats a);
           allFolders := set_add relativeDirPath (allFolders a) |} in
      match each_item (scanDirectory basePath) currentPath relativeDirPath
                      items a1 with
      | (a2, evs, Ok _) => (a2, evs)
      | (a2, evs, Throw message) =>
          (a2, evs ++ [(Error, lit "Error reading directory " ++ currentPath
                               ++ lit ": " ++ message)])
      end
  | Dir (Throw message) =>
      (a, [(Error, lit "Error reading directory " ++ currentPath ++ lit ": "
                   ++ message)])
  | _ =>
      (a, [(Error, lit "Error reading directory " ++ currentPath ++ lit ": "
                   ++ ENOTDIR)])
  end.

(** [analyzeDirectory(dirPath)], with [basePath = dirPath]. *)
Definition analyzeDirectory (dirPath : jsstring) : M Analysis :=
  fun fs =>
    let found :=
      scanDirectory dirPath (scan_root dirPath fs) dirPath
                    {| folderStats := []; allFolders := [] |} in
    (Ok (fst found), fs, snd found).


(** What the walk sees below a directory that can be listed: the regular
    files whose [stat] succeeds and their sizes, and the entries that are
    directories. *)
Definition stat_add (x y : FolderStat) : FolderStat :=
  {| fileCount := fileCount x + fileCount y;
     totalSize := totalSize x + totalSize y;
     folderCount := folderCount x + folderCount y |}.

Definition stat_zero : FolderStat :=
  {| fileCount := 0; totalSize := 0; folderCount := 0 |}.

Fixpoint sum_items (below : node -> FolderStat) (items : list (jsstring * node))
  : FolderStat :=
  match items with
  | [] => stat_zero
  | (_, child) :: rest =>
      let here :=
        match child with
        | Dir _ => count_folder (below child)
        | File (Ok sz) _ => add_size sz (count_file stat_zero)
        | _ => stat_zero
        end in
      stat_add here (sum_items below rest)
  end.

Fixpoint tree_totals (n : node) : FolderStat :=
  match n with
  | Dir (Ok items) => sum_items tree_totals items
  | _ => stat_zero
  end.

(** The sum of the values of [folderStats]. *)
Definition stats_total (stats : list (jsstring * FolderStat)) : FolderStat :=
  fold_right (fun kv acc => stat_add (snd kv) acc) stat_zero stats.

(** Every folder listed has its statistics, and only those. *)
Definition keys_match (a : Analysis) : Prop :=
  forall key,
    (exists v, own_stat key (folderStats a) = Some v)
    <-> (In key (allFolders a) /\ is_inherited key = false).

(** A change that adds a fixed amount. *)
Definition additive (change : FolderStat -> FolderStat) : Prop :=
  forall v, change v = stat_add v (change stat_zero).

(** The sample tree with the output directory made, and then with one
    artifact written into it. *)
Definition sample_fs_output : node :=
  match mkdirp (segments (lit "/w/output")) sample_fs with
  | Ok n => n
  | Throw _ => sample_fs
  end.

Definition sample_fs_written : node :=
  match put (segments (path_join (path_join (lit "/w") OUTPUT_DIR)
                                 (generateFileName (lit "A") 3)))
            (new_file [Byte.x01]) sample_fs_output with
  | Ok n => n
  | Throw _ => sample_fs_output
  end.

(** * Properties *)

(** ** Character classes *)

(** Decide a goal about the character classes by splitting their bounds. *)
Ltac split_bounds :=
  repeat match goal with
         | |- context [N.leb ?a ?b] => destruct (N.leb_spec a b); try lia
         | |- context [N.eqb ?a ?b] => destruct (N.eqb_spec a b); try lia
         | H : context [N.leb ?a ?b] |- _ => destruct (N.leb_spec a b); try lia
         | H : context [N.eqb ?a ?b] |- _ => destruct (N.eqb_spec a b); try lia
         end;
  simpl in *; try discriminate; try reflexivity; try lia.

Lemma kept_not_high c : keptCodePoint c = true -> isHighSurrogate c = false.
Proof.
  unfold keptCodePoint, isWordChar, isWhiteSpace, isEmoji, isHighSurrogate.
  intros H. split_bounds.
Qed.

Lemma high_not_space c : isHighSurrogate c = true -> isWhiteSpace c = false.
Proof.
  unfold isWhiteSpace, isHighSurrogate. intros H. split_bounds.
Qed.

Lemma low_not_space c : isLowSurrogate c = true -> isWhiteSpace c = false.
Proof.
  unfold isWhiteSpace, isLowSurrogate. intros H. split_bounds.
Qed.

Lemma hex_not_space c : isHexDigit c = true -> isWhiteSpace c = false.
Proof.
  unfold isWhiteSpace, isHexDigit. intros H. split_bounds.
Qed.

Lemma kept_not_dash c : keptCodePoint c = true -> c <> 45.
Proof.
  unfold keptCodePoint, isWordChar, isWhiteSpace, isEmoji.
  intros H ->. discriminate H.
Qed.

(** ** The hash-stripping step *)

Lemma after_space_inv s :
  after_space s = true ->
  exists ws hex, s = ws ++ hex /\ forallb isWhiteSpace ws = true
                 /\ hex32_end hex = true.
Proof.
  induction s as [|c r IH]; simpl; intros H.
  - exists [], []. auto.
  - apply orb_true_iff in H. destruct H as [H|H].
    + apply andb_true_iff in H. destruct H as [Hc Hr].
      destruct (IH Hr) as (ws & hex & -> & Hws & Hhex).
      exists (c :: ws), hex. simpl. rewrite Hc, Hws. auto.
    + exists [], (c :: r). auto.
Qed.

Lemma after_space_intro ws hex :
  forallb isWhiteSpace ws = true -> hex32_end hex = true ->
  after_space (ws ++ hex) = true.
Proof.
  intros Hws Hhex. induction ws as [|c ws IH]; simpl in *.
  - destruct hex; simpl; auto. rewrite Hhex. apply orb_true_r.
  - apply andb_true_iff in Hws. destruct Hws as [Hc Hws].
    rewrite Hc, (IH Hws). reflexivity.
Qed.

Lemma hash_match_here_inv s :
  hash_match_here s = true ->
  exists ws hex, s = ws ++ hex /\ ws <> [] /\ forallb isWhiteSpace ws = true
                 /\ hex32_end hex = true.
Proof.
  destruct s as [|c r]; simpl; [discriminate|]. intros H.
  apply andb_true_iff in H. destruct H as [Hc Hr].
  destruct (after_space_inv _ Hr) as (ws & hex & -> & Hws & Hhex).
  exists (c :: ws), hex. simpl. rewrite Hc, Hws. repeat split; auto.
  discriminate.
Qed.

Lemma hash_match_here_intro ws hex :
  ws <> [] -> forallb isWhiteSpace ws = true -> hex32_end hex = true ->
  hash_match_here (ws ++ hex) = true.
Proof.
  destruct ws as [|c ws]; [congruence|]. simpl. intros _ Hws Hhex.
  apply andb_true_iff in Hws. destruct Hws as [Hc Hws].
  rewrite Hc. simpl. apply after_space_intro; assumption.
Qed.

Lemma hex32_end_iff hex :
  hex32_end hex = true <->
  length hex = 32%nat /\ forallb isHexDigit hex = true.
Proof.
  unfold hex32_end. rewrite andb_true_iff, Nat.eqb_eq. reflexivity.
Qed.

(** Two splits of one string with tails of the same length are the same
    split. *)
Lemma app_same_tail_length {A} (a b x y : list A) :
  a ++ x = b ++ y -> length x = length y -> a = b /\ x = y.
Proof.
  revert b. induction a as [|h a IH]; intros [|k b] E L; simpl in *.
  - auto.
  - exfalso. apply (f_equal (@length A)) in E. simpl in E.
    rewrite length_app in E. lia.
  - exfalso. apply (f_equal (@length A)) in E. simpl in E.
    rewrite length_app in E. lia.
  - injection E as -> E. destruct (IH _ E L) as [-> ->]. auto.
Qed.

(** What the replacement computes: the text before the leftmost match, or
    the whole string when there is none. *)
Lemma strip_hash_cases s :
  (exists t, s = strip_hash s ++ t /\ hash_match_here t = true)
  \/ strip_hash s = s.
Proof.
  induction s as [|c r IH].
  - right. reflexivity.
  - unfold strip_hash; fold strip_hash.
    destruct (hash_match_here (c :: r)) eqn:E.
    + left. exists (c :: r). auto.
    + destruct IH as [(t & Es & Ht)|IH].
      * left. exists t. simpl. rewrite <- Es. auto.
      * right. rewrite IH. reflexivity.
Qed.

Lemma no_match_inside pre ws hex c :
  no_trailing_space (c :: pre) ->
  forallb isWhiteSpace ws = true -> hex32_end hex = true ->
  hash_match_here (c :: pre ++ ws ++ hex) = false.
Proof.
  intros Hpre Hws Hhex.
  destruct (hash_match_here (c :: pre ++ ws ++ hex)) eqn:E; [|reflexivity].
  exfalso. apply hash_match_here_inv in E.
  destruct E as (ws' & hex' & E & _ & Hws' & Hhex').
  apply hex32_end_iff in Hhex, Hhex'.
  change (c :: pre ++ ws ++ hex) with ((c :: pre) ++ ws ++ hex) in E.
  rewrite app_assoc in E.
  apply app_same_tail_length in E; [|lia]. destruct E as [E _].
  destruct (exists_last (l := c :: pre)) as (p & x & Ep); [discriminate|].
  specialize (Hpre p x Ep).
  rewrite Ep in E. rewrite <- E in Hws'.
  rewrite !forallb_app in Hws'. simpl in Hws'. rewrite Hpre in Hws'.
  destruct (forallb isWhiteSpace p); discriminate Hws'.
Qed.

Lemma no_trailing_space_tail c pre :
  no_trailing_space (c :: pre) -> pre <> [] -> no_trailing_space pre.
Proof.
  intros H _ p x E. apply (H (c :: p) x). rewrite E. reflexivity.
Qed.

Lemma strip_hash_suffix pre s :
  no_trailing_space pre -> ends_in_hash_suffix pre s -> strip_hash s = pre.
Proof.
  intros Hpre (ws & hex & -> & Hne & Hws & Hlen & Hhex).
  assert (Hend : hex32_end hex = true) by (apply hex32_end_iff; auto).
  induction pre as [|c pre IH].
  - simpl. destruct (ws ++ hex) eqn:E.
    + reflexivity.
    + rewrite <- E. unfold strip_hash.
      rewrite E. fold strip_hash. rewrite <- E.
      rewrite (hash_match_here_intro ws hex Hne Hws Hend). reflexivity.
  - change ((c :: pre) ++ ws ++ hex) with (c :: pre ++ ws ++ hex).
    unfold strip_hash; fold strip_hash.
    rewrite (no_match_inside pre ws hex c Hpre Hws Hend).
    f_equal. apply IH.
    destruct pre as [|d pre'].
    + intros p x E. destruct p; discriminate.
    + apply (no_trailing_space_tail c); [assumption|discriminate].
Qed.

Lemma strip_hash_no_suffix s :
  (forall pre, ~ ends_in_hash_suffix pre s) -> strip_hash s = s.
Proof.
  intros Hno. destruct (strip_hash_cases s) as [(t & Es & Ht)|E]; [|exact E].
  exfalso. apply hash_match_here_inv in Ht.
  destruct Ht as (ws & hex & -> & Hne & Hws & Hhex).
  apply hex32_end_iff in Hhex. destruct Hhex as [Hlen Hhex].
  apply (Hno (strip_hash s)). exists ws, hex. auto.
Qed.

(** C6.  The first step of [cleanFolderName] removes a trailing hash suffix
    and nothing else: when the name is [pre], then a run of whitespace (the
    whole run, [pre] not ending in whitespace), then exactly 32 hexadecimal
    characters, the step gives [pre]; when the name has no such suffix, the
    step gives the name unchanged.  The rest of [cleanFolderName] works on
    the result of this step. *)
Theorem strip_hash_exact :
  forall s,
    (forall pre, no_trailing_space pre -> ends_in_hash_suffix pre s ->
                 strip_hash s = pre)
    /\ ((forall pre, ~ ends_in_hash_suffix pre s) -> strip_hash s = s)
    /\ cleanFolderName s
       = trim (collapse_spaces (remove_special (strip_hash s))).
Proof.
  intros s. split; [|split].
  - intros pre. apply strip_hash_suffix.
  - apply strip_hash_no_suffix.
  - reflexivity.
Qed.

(** ** The shape of a sanitised name *)

Lemma remove_special_made s :
  made_of any_unit (remove_special s)
  /\ forall c, made_of any_unit (remove_special (c :: s)).
Proof.
  induction s as [|a s [IH1 IH2]].
  - split; [constructor|]. intros c. simpl.
    destruct (keptCodePoint c) eqn:K; repeat constructor; assumption.
  - split; [apply IH2|]. intros c.
    change (remove_special (c :: a :: s)) with
      (if isHighSurrogate c && isLowSurrogate a then
         if keptCodePoint (codePoint c a) then c :: a :: remove_special s
         else remove_special s
       else if keptCodePoint c then c :: remove_special (a :: s)
            else remove_special (a :: s)).
    destruct (isHighSurrogate c && isLowSurrogate a) eqn:P.
    + apply andb_true_iff in P. destruct P as [Hh Hl].
      destruct (keptCodePoint (codePoint c a)) eqn:K; [|exact IH1].
      apply made_pair; assumption.
    + destruct (keptCodePoint c) eqn:K; [|apply IH2].
      apply made_unit; [assumption|reflexivity|apply IH2].
Qed.

Lemma underscore_kept : keptCodePoint 95 = true.
Proof. reflexivity. Qed.

Lemma collapse_made s :
  made_of any_unit s -> forall b, made_of not_space (collapse_from b s).
Proof.
  induction 1 as [|c r K _ _ IH|hi lo r Hh Hl K _ IH]; intros b; simpl.
  - constructor.
  - destruct (isWhiteSpace c) eqn:W.
    + destruct b; [apply IH|].
      apply made_unit; [exact underscore_kept|reflexivity|apply IH].
    + apply made_unit; [assumption| |apply IH].
      unfold not_space. rewrite W. reflexivity.
  - rewrite (high_not_space _ Hh), (low_not_space _ Hl).
    apply made_pair; auto.
Qed.

Lemma made_no_space s :
  made_of not_space s -> forallb not_space s = true.
Proof.
  induction 1 as [|c r _ W _ IH|hi lo r Hh Hl _ _ IH]; simpl.
  - reflexivity.
  - rewrite W, IH. reflexivity.
  - unfold not_space at 1 2.
    rewrite (high_not_space _ Hh), (low_not_space _ Hl), IH. reflexivity.
Qed.

Lemma made_no_dash s : made_of not_space s -> ~ In 45 s.
Proof.
  induction 1 as [|c r K _ _ IH|hi lo r Hh Hl _ _ IH]; simpl.
  - tauto.
  - intros [E|I]; [|tauto]. apply (kept_not_dash c K). auto.
  - intros [E|[E|I]]; [| |tauto]; subst; discriminate.
Qed.

Lemma remove_special_fixed s :
  made_of not_space s -> remove_special s = s.
Proof.
  induction 1 as [|c r K _ _ IH|hi lo r Hh Hl K _ IH].
  - reflexivity.
  - destruct r as [|lo r'].
    + simpl. rewrite K. reflexivity.
    + change (remove_special (c :: lo :: r')) with
        (if isHighSurrogate c && isLowSurrogate lo then
           if keptCodePoint (codePoint c lo) then c :: lo :: remove_special r'
           else remove_special r'
         else if keptCodePoint c then c :: remove_special (lo :: r')
              else remove_special (lo :: r')).
      rewrite (kept_not_high c K). cbn [andb]. rewrite K, IH. reflexivity.
  - change (remove_special (hi :: lo :: r)) with
      (if isHighSurrogate hi && isLowSurrogate lo then
         if keptCodePoint (codePoint hi lo) then hi :: lo :: remove_special r
         else remove_special r
       else if keptCodePoint hi then hi :: remove_special (lo :: r)
            else remove_special (lo :: r)).
    rewrite Hh, Hl, K, IH. reflexivity.
Qed.

(** On a string without whitespace the other three steps do nothing. *)
Lemma strip_hash_no_space s :
  forallb not_space s = true -> strip_hash s = s.
Proof.
  induction s as [|c r IH]; [reflexivity|]. simpl. intros H.
  apply andb_true_iff in H. destruct H as [Hc Hr].
  unfold not_space in Hc. apply negb_true_iff in Hc.
  rewrite Hc. simpl. rewrite (IH Hr). reflexivity.
Qed.

Lemma collapse_no_space s b :
  forallb not_space s = true -> collapse_from b s = s.
Proof.
  revert b. induction s as [|c r IH]; [reflexivity|]. simpl. intros b H.
  apply andb_true_iff in H. destruct H as [Hc Hr].
  unfold not_space in Hc. apply negb_true_iff in Hc.
  rewrite Hc, (IH false Hr). reflexivity.
Qed.

Lemma trimStart_no_space s :
  forallb not_space s = true -> trimStart s = s.
Proof.
  destruct s as [|c r]; [reflexivity|]. simpl. intros H.
  apply andb_true_iff in H. destruct H as [Hc _].
  unfold not_space in Hc. apply negb_true_iff in Hc.
  unfold trimStart. simpl. rewrite Hc. reflexivity.
Qed.

Lemma forallb_rev {A} (p : A -> bool) l :
  forallb p (rev l) = forallb p l.
Proof.
  induction l as [|a l IH]; [reflexivity|]. simpl.
  rewrite forallb_app, IH. simpl. rewrite andb_true_r. apply andb_comm.
Qed.

Lemma trim_no_space s : forallb not_space s = true -> trim s = s.
Proof.
  intros H. unfold trim, trimEnd.
  rewrite (trimStart_no_space s H).
  rewrite trimStart_no_space by (rewrite forallb_rev; exact H).
  apply rev_involutive.
Qed.

(** A sanitised name consists of kept code points none of which is
    whitespace; [trim], coming last, finds nothing to strip. *)
Lemma cleanFolderName_made x :
  made_of not_space (cleanFolderName x)
  /\ cleanFolderName x = collapse_spaces (remove_special (strip_hash x)).
Proof.
  unfold cleanFolderName.
  assert (M : made_of not_space
                (collapse_spaces (remove_special (strip_hash x)))).
  { apply collapse_made. apply remove_special_made. }
  rewrite (trim_no_space _ (made_no_space _ M)). auto.
Qed.

Lemma cleanFolderName_fixed y :
  made_of not_space y -> cleanFolderName y = y.
Proof.
  intros M. pose proof (made_no_space _ M) as W.
  unfold cleanFolderName, collapse_spaces.
  rewrite (strip_hash_no_space _ W), (remove_special_fixed _ M),
    (collapse_no_space _ _ W).
  apply trim_no_space. exact W.
Qed.

(** C7.  [cleanFolderName] is idempotent.  Its result holds no whitespace,
    so it never ends in a further hash suffix, and the equation holds for
    every input, those of the claim included. *)
Theorem cleanFolderName_idempotent :
  forall x,
    cleanFolderName (cleanFolderName x) = cleanFolderName x
    /\ forall pre, ~ ends_in_hash_suffix pre (cleanFolderName x).
Proof.
  intros x. destruct (cleanFolderName_made x) as [M _]. split.
  - apply cleanFolderName_fixed. exact M.
  - intros pre (ws & hex & E & Hne & Hws & _).
    pose proof (made_no_space _ M) as W. rewrite E in W.
    rewrite !forallb_app in W.
    destruct ws as [|c ws]; [congruence|]. simpl in *.
    apply andb_true_iff in Hws. destruct Hws as [Hc _].
    unfold not_space in W at 2. rewrite Hc in W. simpl in W.
    rewrite andb_false_r in W. discriminate.
Qed.

(** C2.  The run of [cleanFolderName] on [" a "]: the whitespace at both
    ends has become an underscore before [trim] is applied, and [trim]
    strips nothing. *)
Theorem cleanFolderName_keeps_outer_underscores :
  cleanFolderName (lit " a ") = lit "_a_"
  /\ collapse_spaces (remove_special (strip_hash (lit " a "))) = lit "_a_"
  /\ collapse_spaces (trim (remove_special (strip_hash (lit " a ")))) = lit "a"
  /\ cleanFolderName (lit "Notes -") = lit "Notes_".
Proof. repeat split; reflexivity. Qed.

(** ** Output names *)

Lemma generateFileName_unfold folderPath index :
  generateFileName folderPath index =
  if (length (cleanedParts folderPath) =? 0)%nat then
    paddedIndex index ++ lit "-Root.pdf"
  else if (length (cleanedParts folderPath) =? 1)%nat then
    paddedIndex index ++ lit "-" ++ at_index (cleanedParts folderPath) 0
      ++ lit ".pdf"
  else
    paddedIndex index ++ lit "-"
      ++ at_index (cleanedParts folderPath) (length (cleanedParts folderPath) - 2)
      ++ lit "-"
      ++ at_index (cleanedParts folderPath) (length (cleanedParts folderPath) - 1)
      ++ lit ".pdf".
Proof. reflexivity. Qed.

Lemma at_index_last_two front parent child :
  at_index (front ++ [parent; child]) (length (front ++ [parent; child]) - 2)
  = parent
  /\ at_index (front ++ [parent; child]) (length (front ++ [parent; child]) - 1)
     = child.
Proof.
  unfold at_index. rewrite length_app. simpl. split.
  - rewrite app_nth2 by lia.
    replace (length front + 2 - 2 - length front)%nat with 0%nat by lia.
    reflexivity.
  - rewrite app_nth2 by lia.
    replace (length front + 2 - 1 - length front)%nat with 1%nat by lia.
    reflexivity.
Qed.

(** C5.  The output name is determined by the padded index and the
    sanitised segments of the path: no segment gives [NN-Root.pdf] (so does
    the path ["."]), one segment gives [NN-segment.pdf], and two or more
    give [NN-parent-child.pdf] from the last two, whatever comes before
    them. *)
Theorem generateFileName_by_segments :
  forall folderPath index,
    (cleanedParts folderPath = [] ->
     generateFileName folderPath index = paddedIndex index ++ lit "-Root.pdf")
    /\ (forall segment,
           cleanedParts folderPath = [segment] ->
           generateFileName folderPath index
           = paddedIndex index ++ lit "-" ++ segment ++ lit ".pdf")
    /\ (forall front parent child,
           cleanedParts folderPath = front ++ [parent; child] ->
           generateFileName folderPath index
           = paddedIndex index ++ lit "-" ++ parent ++ lit "-" ++ child
               ++ lit ".pdf")
    /\ generateFileName (lit ".") index = paddedIndex index ++ lit "-Root.pdf".
Proof.
  intros folderPath index. repeat split.
  - intros E. rewrite generateFileName_unfold, E. reflexivity.
  - intros segment E. rewrite generateFileName_unfold, E. reflexivity.
  - intros front parent child E. rewrite generateFileName_unfold, E.
    destruct (at_index_last_two front parent child) as [-> ->].
    rewrite length_app. simpl.
    replace (length front + 2 =? 0)%nat with false
      by (symmetry; apply Nat.eqb_neq; lia).
    replace (length front + 2 =? 1)%nat with false
      by (symmetry; apply Nat.eqb_neq; lia).
    reflexivity.
Qed.

(** *** The index prefix *)

Lemma uint_units_inj u v : uint_units u = uint_units v -> u = v.
Proof.
  revert v. induction u; intros v E; destruct v; simpl in E;
    try discriminate E; try reflexivity;
    injection E as E; f_equal; apply IHu; exact E.
Qed.

Lemma uint_units_digits u : ~ In 45 (uint_units u).
Proof.
  induction u; simpl; intros H; try tauto;
    destruct H as [H|H]; try discriminate H; tauto.
Qed.

Lemma zeros_units k u : repeat 48 k ++ uint_units u = uint_units (zeros k u).
Proof.
  induction k as [|k IH]; simpl; [reflexivity|]. rewrite IH. reflexivity.
Qed.

Lemma zeros_value k u : N.of_uint (zeros k u) = N.of_uint u.
Proof.
  induction k as [|k IH]; simpl; [reflexivity|]. exact IH.
Qed.

Lemma paddedIndex_decimal index :
  exists u, paddedIndex index = uint_units u /\ N.of_uint u = index.
Proof.
  unfold paddedIndex, padStart, String_of_N.
  exists (zeros (2 - length (uint_units (N.to_uint index))) (N.to_uint index)).
  split.
  - apply zeros_units.
  - rewrite zeros_value. apply DecimalN.Unsigned.of_to.
Qed.

Lemma paddedIndex_inj i j : paddedIndex i = paddedIndex j -> i = j.
Proof.
  intros E.
  destruct (paddedIndex_decimal i) as (u & Eu & <-).
  destruct (paddedIndex_decimal j) as (v & Ev & <-).
  rewrite Eu, Ev in E. apply uint_units_inj in E. rewrite E. reflexivity.
Qed.

Lemma paddedIndex_no_dash i : ~ In 45 (paddedIndex i).
Proof.
  destruct (paddedIndex_decimal i) as (u & -> & _). apply uint_units_digits.
Qed.

(** The text up to the first ["-"] of a string. *)
Lemma before_first_dash (a b x y : jsstring) :
  ~ In 45 a -> ~ In 45 b -> a ++ 45 :: x = b ++ 45 :: y -> a = b.
Proof.
  revert b. induction a as [|c a IH]; intros [|d b] Ha Hb E; simpl in *.
  - reflexivity.
  - injection E as E _. exfalso. apply Hb. left. auto.
  - injection E as E _. exfalso. apply Ha. left. auto.
  - injection E as -> E. f_equal. apply (IH b); tauto.
Qed.

Lemma generateFileName_prefix folderPath index :
  exists rest, generateFileName folderPath index = paddedIndex index ++ 45 :: rest.
Proof.
  rewrite generateFileName_unfold.
  destruct (length (cleanedParts folderPath) =? 0)%nat;
    [|destruct (length (cleanedParts folderPath) =? 1)%nat];
    eexists; reflexivity.
Qed.

Lemma generateFileName_inj_index p q i j :
  generateFileName p i = generateFileName q j -> i = j.
Proof.
  destruct (generateFileName_prefix p i) as (x & ->).
  destruct (generateFileName_prefix q j) as (y & ->).
  intros E. apply paddedIndex_inj.
  apply (before_first_dash _ _ x y); auto using paddedIndex_no_dash.
Qed.

(** ** Sorting *)

Section SortBy.

Variable A : Type.
Variable before : A -> A -> bool.
Hypothesis before_total : forall a b, before a b = true \/ before b a = true.
Hypothesis before_trans :
  forall a b c, before a b = true -> before b c = true -> before a c = true.

Let le (a b : A) : Prop := before a b = true.

Lemma insert_by_perm x l : Permutation (x :: l) (insert_by before x l).
Proof.
  induction l as [|y r IH]; simpl.
  - apply Permutation_refl.
  - destruct (before x y).
    + apply Permutation_refl.
    + eapply perm_trans; [apply perm_swap|]. apply perm_skip. exact IH.
Qed.

Lemma sort_by_perm l : Permutation l (sort_by before l).
Proof.
  induction l as [|x l IH]; simpl.
  - apply perm_nil.
  - eapply perm_trans; [apply perm_skip; exact IH|]. apply insert_by_perm.
Qed.

Lemma insert_by_sorted x l :
  StronglySorted le l -> StronglySorted le (insert_by before x l).
Proof.
  induction 1 as [|y r Hs IH Hall]; simpl.
  - constructor; constructor.
  - destruct (before x y) eqn:E.
    + constructor; [constructor; assumption|].
      constructor; [exact E|].
      eapply Forall_impl; [|exact Hall].
      intros z Hz. exact (before_trans _ _ _ E Hz).
    + constructor; [exact IH|].
      assert (Hyx : le y x).
      { destruct (before_total x y) as [H|H]; [congruence|exact H]. }
      eapply Permutation_Forall; [apply insert_by_perm|].
      constructor; assumption.
Qed.

Lemma sort_by_sorted l : StronglySorted le (sort_by before l).
Proof.
  induction l as [|x l IH]; simpl.
  - constructor.
  - apply insert_by_sorted. exact IH.
Qed.

End SortBy.

(** *** The order of [sort()] on strings *)

Lemma str_leb_lex a b : str_leb a b = true <-> lex_le a b.
Proof.
  unfold str_leb. revert b.
  induction a as [|c a IH]; intros [|d b]; simpl.
  - split; [constructor|reflexivity].
  - split; [constructor|reflexivity].
  - split; [discriminate|]. intros H. inversion H.
  - destruct (N.compare_spec c d) as [->|L|G].
    + rewrite IH. split; intros H.
      * apply lex_le_eq. exact H.
      * inversion H; subst; [lia|assumption].
    + split; [intros _; apply lex_le_lt; exact L|reflexivity].
    + split; [discriminate|]. intros H. inversion H; subst; lia.
Qed.

Lemma lex_le_total a b : lex_le a b \/ lex_le b a.
Proof.
  revert b. induction a as [|c a IH]; intros [|d b].
  - left. constructor.
  - left. constructor.
  - right. constructor.
  - destruct (N.lt_trichotomy c d) as [L|[->|G]].
    + left. apply lex_le_lt. exact L.
    + destruct (IH b); [left|right]; apply lex_le_eq; assumption.
    + right. apply lex_le_lt. exact G.
Qed.

Lemma lex_le_trans a b c : lex_le a b -> lex_le b c -> lex_le a c.
Proof.
  intros H. revert c. induction H as [b|x y a b L|x a b H IH]; intros c H2.
  - constructor.
  - inversion H2; subst.
    + apply lex_le_lt. lia.
    + apply lex_le_lt. exact L.
  - inversion H2; subst.
    + apply lex_le_lt. assumption.
    + apply lex_le_eq. apply IH. assumption.
Qed.

Lemma lex_le_antisym a b : lex_le a b -> lex_le b a -> a = b.
Proof.
  induction 1 as [b|x y a b L|x a b H IH]; intros H2.
  - inversion H2. reflexivity.
  - inversion H2; subst; lia.
  - inversion H2; subst; [lia|]. f_equal. apply IH. assumption.
Qed.

Lemma str_leb_total a b : str_leb a b = true \/ str_leb b a = true.
Proof. rewrite !str_leb_lex. apply lex_le_total. Qed.

Lemma str_leb_trans a b c :
  str_leb a b = true -> str_leb b c = true -> str_leb a c = true.
Proof. rewrite !str_leb_lex. apply lex_le_trans. Qed.

Lemma sort_default_sorted l : StronglySorted lex_le (sort_default l).
Proof.
  unfold sort_default.
  pose proof (sort_by_sorted _ str_leb str_leb_total str_leb_trans l) as H.
  induction H as [|x r _ IH Hall]; constructor.
  - exact IH.
  - eapply Forall_impl; [|exact Hall]. intros y. apply str_leb_lex.
Qed.

(** The strings that the root path ["."] does not precede: the empty one
    and those whose first unit is below ["."], U+002E. *)
Lemma root_le_iff p :
  lex_le (lit ".") p <-> exists c r, p = c :: r /\ 46 <= c.
Proof.
  change (lit ".") with [46]. split.
  - intros H. inversion H; subst.
    + exists d, b. split; [reflexivity|lia].
    + exists 46, b. split; [reflexivity|lia].
  - intros (c & r & -> & Hc).
    destruct (N.eq_dec c 46) as [->|Hne].
    + apply lex_le_eq. constructor.
    + apply lex_le_lt. lia.
Qed.

Lemma sorted_head_least l x :
  StronglySorted lex_le l -> In x l ->
  (forall p, In p l -> lex_le x p) -> hd_error l = Some x.
Proof.
  intros Hs Hin Hleast. destruct l as [|h t]; [contradiction|].
  simpl. f_equal. apply lex_le_antisym.
  - inversion Hs as [|? ? _ Hall]; subst.
    destruct Hin as [->|Hin].
    + apply Hleast. left. reflexivity.
    + rewrite Forall_forall in Hall. apply Hall. exact Hin.
  - apply Hleast. left. reflexivity.
Qed.

(** C3, as the code has it.  The scan returns the paths that the walk
    pushed, in ascending order of their code units, and leaves the file
    system as it is.  The root ["."] is the first of them exactly when every
    path returned begins with a unit that is not below ["."]; a directory
    whose name begins with a space, ["("], ["-"] or another unit below
    U+002E comes before it. *)
Theorem scanFolders_sorted :
  forall basePath fs,
  exists folders,
    scanFolders basePath fs
    = (Ok folders, fs, snd (scan (scan_root basePath fs) basePath (lit ".")))
    /\ StronglySorted lex_le folders
    /\ Permutation (fst (scan (scan_root basePath fs) basePath (lit ".")))
                   folders
    /\ (In (lit ".") folders ->
        (hd_error folders = Some (lit ".")
         <-> forall p, In p folders -> exists c r, p = c :: r /\ 46 <= c)).
Proof.
  intros basePath fs. unfold scanFolders. fold (scan_root basePath fs).
  set (found := scan _ basePath (lit ".")).
  exists (sort_default (fst found)).
  pose proof (sort_default_sorted (fst found)) as Hs.
  repeat split.
  - exact Hs.
  - apply sort_by_perm.
  - intros Hhd p Hp. apply root_le_iff.
    destruct (sort_default (fst found)) as [|h t]; [contradiction|].
    simpl in Hhd. injection Hhd as ->.
    inversion Hs as [|? ? _ Hall]; subst.
    destruct Hp as [<-|Hp].
    + apply lex_le_eq. constructor.
    + rewrite Forall_forall in Hall. apply Hall. exact Hp.
  - intros Hall. apply sorted_head_least; [exact Hs|assumption|].
    intros p Hp. apply root_le_iff. apply Hall. exact Hp.
Qed.

(** ** Reasoning about computations *)

Lemma result_bind {A B} (c : M A) (k : A -> M B) fs :
  result_of (bind c k fs) =
  match result_of (c fs) with
  | Ok a => result_of (k a (fs_of (c fs)))
  | Throw m => Throw m
  end.
Proof.
  unfold bind, result_of, fs_of. destruct (c fs) as [[[a|m] fs1] e1]; simpl.
  - destruct (k a fs1) as [[r fs2] e2]. reflexivity.
  - reflexivity.
Qed.

Lemma fs_bind {A B} (c : M A) (k : A -> M B) fs :
  fs_of (bind c k fs) =
  match result_of (c fs) with
  | Ok a => fs_of (k a (fs_of (c fs)))
  | Throw _ => fs_of (c fs)
  end.
Proof.
  unfold bind, result_of, fs_of. destruct (c fs) as [[[a|m] fs1] e1]; simpl.
  - destruct (k a fs1) as [[r fs2] e2]. reflexivity.
  - reflexivity.
Qed.

Lemma events_bind {A B} (c : M A) (k : A -> M B) fs :
  events_of (bind c k fs) =
  events_of (c fs) ++
  match result_of (c fs) with
  | Ok a => events_of (k a (fs_of (c fs)))
  | Throw _ => []
  end.
Proof.
  unfold bind, result_of, fs_of, events_of.
  destruct (c fs) as [[[a|m] fs1] e1]; simpl.
  - destruct (k a fs1) as [[r fs2] e2]. reflexivity.
  - rewrite app_nil_r. reflexivity.
Qed.

Lemma result_try {A} (c : M A) (h : jsstring -> M A) fs :
  result_of (try_catch c h fs) =
  match result_of (c fs) with
  | Ok a => Ok a
  | Throw m => result_of (h m (fs_of (c fs)))
  end.
Proof.
  unfold try_catch, result_of, fs_of. destruct (c fs) as [[[a|m] fs1] e1]; simpl.
  - reflexivity.
  - destruct (h m fs1) as [[r fs2] e2]. reflexivity.
Qed.

Lemma fs_try {A} (c : M A) (h : jsstring -> M A) fs :
  fs_of (try_catch c h fs) =
  match result_of (c fs) with
  | Ok _ => fs_of (c fs)
  | Throw m => fs_of (h m (fs_of (c fs)))
  end.
Proof.
  unfold try_catch, result_of, fs_of. destruct (c fs) as [[[a|m] fs1] e1]; simpl.
  - reflexivity.
  - destruct (h m fs1) as [[r fs2] e2]. reflexivity.
Qed.

Lemma events_try {A} (c : M A) (h : jsstring -> M A) fs :
  events_of (try_catch c h fs) =
  events_of (c fs) ++
  match result_of (c fs) with
  | Ok _ => []
  | Throw m => events_of (h m (fs_of (c fs)))
  end.
Proof.
  unfold try_catch, result_of, fs_of, events_of.
  destruct (c fs) as [[[a|m] fs1] e1]; simpl.
  - rewrite app_nil_r. reflexivity.
  - destruct (h m fs1) as [[r fs2] e2]. reflexivity.
Qed.

Lemma readonly_ret {A} (a : A) : readonly (ret a).
Proof. intros fs. reflexivity. Qed.

Lemma readonly_lift {A} (r : Exn A) : readonly (lift r).
Proof. intros fs. reflexivity. Qed.

Lemma readonly_console l msg : readonly (console l msg).
Proof. intros fs. reflexivity. Qed.

Lemma readonly_bind {A B} (c : M A) (k : A -> M B) :
  readonly c -> (forall a, readonly (k a)) -> readonly (bind c k).
Proof.
  intros Hc Hk fs. rewrite fs_bind, Hc.
  destruct (result_of (c fs)); [apply Hk|reflexivity].
Qed.

Lemma readonly_try {A} (c : M A) (h : jsstring -> M A) :
  readonly c -> (forall m, readonly (h m)) -> readonly (try_catch c h).
Proof.
  intros Hc Hh fs. rewrite fs_try, Hc.
  destruct (result_of (c fs)); [reflexivity|apply Hh].
Qed.

Lemma readonly_stat p : readonly (fs_stat p).
Proof.
  intros fs. unfold fs_stat.
  destruct (lookup fs (segments p)) as [[| |]|]; reflexivity.
Qed.

Lemma readonly_readFile p : readonly (fs_readFile p).
Proof.
  intros fs. unfold fs_readFile.
  destruct (lookup fs (segments p)) as [[| |]|]; reflexivity.
Qed.

Lemma readonly_readdir p : readonly (fs_readdir p).
Proof.
  intros fs. unfold fs_readdir.
  destruct (lookup fs (segments p)) as [[|[|]|]|]; reflexivity.
Qed.

Lemma nothrow_ret {A} (a : A) : never_throws (ret a).
Proof. intros fs. exists a. reflexivity. Qed.

Lemma nothrow_console l msg : never_throws (console l msg).
Proof. intros fs. exists tt. reflexivity. Qed.

Lemma nothrow_bind {A B} (c : M A) (k : A -> M B) :
  never_throws c -> (forall a, never_throws (k a)) -> never_throws (bind c k).
Proof.
  intros Hc Hk fs. rewrite result_bind.
  destruct (Hc fs) as (a & ->). apply Hk.
Qed.

Lemma nothrow_try {A} (c : M A) (h : jsstring -> M A) :
  (forall m, never_throws (h m)) -> never_throws (try_catch c h).
Proof.
  intros Hh fs. rewrite result_try.
  destruct (result_of (c fs)) as [a|m]; [exists a; reflexivity|apply Hh].
Qed.

Create HintDb js.

#[local] Hint Resolve readonly_ret readonly_lift readonly_console
  readonly_stat readonly_readFile readonly_readdir
  nothrow_ret nothrow_console : js.

(** ** The file system *)

Lemma str_eqb_refl a : str_eqb a a = true.
Proof.
  induction a as [|c a IH]; simpl; [reflexivity|].
  rewrite N.eqb_refl, IH. reflexivity.
Qed.

Lemma find_set_entry s c items : find_entry s (set_entry s c items) = Some c.
Proof.
  induction items as [|[n c0] rest IH]; simpl.
  - rewrite str_eqb_refl. reflexivity.
  - destruct (str_eqb n s) eqn:E; simpl; rewrite E; [reflexivity|exact IH].
Qed.

(** What was put at a path is found there. *)
Lemma lookup_put segs f :
  forall n n', put segs f n = Ok n' -> lookup n' segs = Some f.
Proof.
  induction segs as [|s rest IH]; intros n n' H; simpl in H.
  - discriminate.
  - destruct n as [| [items|m] |]; try discriminate.
    destruct rest as [|s2 rest'].
    + assert (E : n' = Dir (Ok (set_entry s f items))).
      { destruct (find_entry s items) as [[| |]|];
          try discriminate; injection H as <-; reflexivity. }
      subst n'. simpl. rewrite find_set_entry. reflexivity.
    + destruct (find_entry s items) as [c|]; [|discriminate].
      destruct (put (s2 :: rest') f c) as [c'|m] eqn:E; [|discriminate].
      injection H as <-.
      change (lookup (Dir (Ok (set_entry s c' items))) (s :: s2 :: rest'))
        with (match find_entry s (set_entry s c' items) with
              | Some c => lookup c (s2 :: rest')
              | None => None
              end).
      rewrite find_set_entry. apply (IH c c' E).
Qed.

Lemma str_eqb_eq a b : str_eqb a b = true <-> a = b.
Proof.
  revert b. induction a as [|x a IH]; intros [|y b]; simpl;
    try (split; [discriminate|discriminate]); [tauto|].
  rewrite andb_true_iff, N.eqb_eq, IH. split.
  - intros [-> ->]. reflexivity.
  - intros E. injection E as -> ->. auto.
Qed.

Lemma find_set_entry_other s s' c items :
  s <> s' -> find_entry s' (set_entry s c items) = find_entry s' items.
Proof.
  intros Hne. induction items as [|[n c0] rest IH]; simpl.
  - destruct (str_eqb s s') eqn:E; [|reflexivity].
    apply str_eqb_eq in E. contradiction.
  - destruct (str_eqb n s) eqn:E; simpl.
    + apply str_eqb_eq in E. subst n.
      destruct (str_eqb s s') eqn:E2; [|reflexivity].
      apply str_eqb_eq in E2. contradiction.
    + rewrite IH. reflexivity.
Qed.

Lemma lookup_file_below sz d p : p <> [] -> lookup (File sz d) p = None.
Proof. destruct p; [congruence|reflexivity]. Qed.

(** Writing a file leaves every path alone that is not the path written or
    one of the directories above it. *)
Lemma lookup_put_other b segs :
  forall n n' p,
    put segs (new_file b) n = Ok n' ->
    (forall t, segs <> p ++ t) ->
    lookup n' p = lookup n p.
Proof.
  induction segs as [|s rest IH]; intros n n' p H Hp; simpl in H.
  - discriminate.
  - destruct n as [| [items|m] |]; try discriminate.
    destruct p as [|s' p']; [exfalso; apply (Hp (s :: rest)); reflexivity|].
    destruct (list_eq_dec N.eq_dec s s') as [<-|Hne].
    + destruct rest as [|s2 rest'].
      * assert (Hp' : p' <> []).
        { intros ->. apply (Hp []). reflexivity. }
        assert (E : n' = Dir (Ok (set_entry s (new_file b) items))
                    /\ (find_entry s items = None
                        \/ exists sz d, find_entry s items = Some (File sz d))).
        { destruct (find_entry s items) as [[sz d| |]|];
            try discriminate; injection H as <-; split; eauto. }
        destruct E as [-> E]. cbn [lookup]. rewrite find_set_entry.
        unfold new_file. rewrite lookup_file_below by exact Hp'.
        destruct E as [->|(sz & d & ->)]; [reflexivity|].
        rewrite lookup_file_below by exact Hp'. reflexivity.
      * destruct (find_entry s items) as [c|] eqn:Ef; [|discriminate].
        destruct (put (s2 :: rest') (new_file b) c) as [c'|m] eqn:E;
          [|discriminate].
        injection H as <-. cbn [lookup]. rewrite find_set_entry, Ef.
        apply (IH c c' p' E). intros t Et. apply (Hp t). rewrite Et.
        reflexivity.
    + assert (E : exists c', n' = Dir (Ok (set_entry s c' items))).
      { destruct rest as [|s2 rest'].
        - destruct (find_entry s items) as [[sz d| |]|];
            try discriminate; injection H as <-; eauto.
        - destruct (find_entry s items) as [c|]; [|discriminate].
          destruct (put (s2 :: rest') (new_file b) c) as [c'|m];
            [|discriminate].
          injection H as <-. eauto. }
      destruct E as (c' & ->). cbn [lookup].
      rewrite (find_set_entry_other s s' c' items Hne). reflexivity.
Qed.

(** Writing a file keeps every directory that could be listed a directory
    that can be listed. *)
Lemma put_keeps_listed b segs :
  forall n n' p items,
    put segs (new_file b) n = Ok n' ->
    lookup n p = Some (Dir (Ok items)) ->
    exists items', lookup n' p = Some (Dir (Ok items')).
Proof.
  induction segs as [|s rest IH]; intros n n' p items0 H Hl; simpl in H.
  - discriminate.
  - destruct n as [| [items|m] |]; try discriminate.
    assert (E : exists c', n' = Dir (Ok (set_entry s c' items))
                /\ (rest = [] -> c' = new_file b
                    /\ (find_entry s items = None
                        \/ exists sz d, find_entry s items = Some (File sz d)))
                /\ (rest <> [] -> exists c, find_entry s items = Some c
                                            /\ put rest (new_file b) c = Ok c')).
    { destruct rest as [|s2 rest'].
      - destruct (find_entry s items) as [[sz d| |]|];
          try discriminate; injection H as <-;
          exists (new_file b);
          (split; [reflexivity|]; split; [intros _|congruence]);
          split; eauto.
      - destruct (find_entry s items) as [c|]; [|discriminate].
        destruct (put (s2 :: rest') (new_file b) c) as [c'|m] eqn:E;
          [|discriminate].
        injection H as <-. exists c'.
        split; [reflexivity|]. split; [discriminate|].
        intros _. exists c. auto. }
    destruct E as (c' & -> & Hnil & Hcons).
    destruct p as [|s' p']; [eexists; reflexivity|].
    cbn [lookup] in *.
    destruct (list_eq_dec N.eq_dec s s') as [<-|Hne].
    + rewrite find_set_entry.
      destruct rest as [|s2 rest'].
      * destruct (Hnil eq_refl) as (-> & [Ef|(sz & d & Ef)]);
          rewrite Ef in Hl; [discriminate|].
        destruct p'; discriminate Hl.
      * destruct (Hcons ltac:(discriminate)) as (c & Ef & Ep).
        rewrite Ef in Hl. apply (IH c c' p' items0 Ep Hl).
    + rewrite (find_set_entry_other s s' c' items Hne).
      destruct (find_entry s' items); [|discriminate]. eauto.
Qed.

(** Whether a file can be put at a position does not depend on the
    file. *)
Lemma put_any_file segs f f' :
  forall n n', put segs f n = Ok n' -> exists n'', put segs f' n = Ok n''.
Proof.
  induction segs as [|s rest IH]; intros n n' H; simpl in H.
  - discriminate.
  - destruct n as [| [items|m] |]; try discriminate.
    destruct rest as [|s2 rest'].
    + cbn [put].
      destruct (find_entry s items) as [[| |]|]; try discriminate; eauto.
    + destruct (find_entry s items) as [c|] eqn:Ef; [|discriminate].
      destruct (put (s2 :: rest') f c) as [c'|m] eqn:E; [|discriminate].
      destruct (IH c c' E) as (c'' & E'').
      exists (Dir (Ok (set_entry s c'' items))).
      change (put (s :: s2 :: rest') f' (Dir (Ok items)))
        with (match find_entry s items with
              | Some c =>
                  match put (s2 :: rest') f' c with
                  | Ok c' => Ok (Dir (Ok (set_entry s c' items)))
                  | Throw m => Throw m
                  end
              | None => Throw ENOENT
              end).
      rewrite Ef, E''. reflexivity.
Qed.

Lemma with_file_put segs f n n' : put segs f n = Ok n' -> with_file segs f n = n'.
Proof. intros H. unfold with_file. rewrite H. reflexivity. Qed.

Lemma find_remove_entry s items : find_entry s (remove_entry s items) = None.
Proof.
  induction items as [|[n c] rest IH]; [reflexivity|].
  unfold remove_entry in *. cbn [filter fst].
  destruct (str_eqb n s) eqn:E; cbn [negb]; [exact IH|].
  cbn [find_entry]. rewrite E. exact IH.
Qed.

Lemma find_remove_entry_other s s' items :
  s <> s' -> find_entry s' (remove_entry s items) = find_entry s' items.
Proof.
  intros Hne. induction items as [|[n c] rest IH]; [reflexivity|].
  unfold remove_entry in *. cbn [filter fst].
  destruct (str_eqb n s) eqn:E; cbn [negb find_entry].
  - apply str_eqb_eq in E. subst n.
    destruct (str_eqb s s') eqn:E2; [|exact IH].
    apply str_eqb_eq in E2. contradiction.
  - rewrite IH. reflexivity.
Qed.

(** What can be put at a position is a regular file or nothing. *)
Lemma put_last_entry s f items n' :
  put [s] f (Dir (Ok items)) = Ok n' ->
  find_entry s items = None \/ exists sz d, find_entry s items = Some (File sz d).
Proof.
  cbn [put]. destruct (find_entry s items) as [[sz d| |]|];
    try discriminate; eauto.
Qed.

Lemma put_inner_entry s s2 rest f items n' :
  put (s :: s2 :: rest) f (Dir (Ok items)) = Ok n' ->
  exists c c', find_entry s items = Some c /\ put (s2 :: rest) f c = Ok c'.
Proof.
  change (put (s :: s2 :: rest) f (Dir (Ok items)))
    with (match find_entry s items with
          | Some c =>
              match put (s2 :: rest) f c with
              | Ok c' => Ok (Dir (Ok (set_entry s c' items)))
              | Throw m => Throw m
              end
          | None => Throw ENOENT
          end).
  destruct (find_entry s items) as [c|]; [|discriminate].
  destruct (put (s2 :: rest) f c) as [c'|m] eqn:E; [|discriminate].
  eauto.
Qed.

(** After the removal of a file nothing is found at its position. *)
Lemma lookup_unlink f segs :
  forall n n', put segs f n = Ok n' -> lookup (unlink segs n) segs = None.
Proof.
  induction segs as [|s rest IH]; intros n n' H.
  - discriminate.
  - destruct n as [| [items|m] |]; try discriminate.
    destruct rest as [|s2 rest'].
    + cbn [unlink lookup]. rewrite find_remove_entry. reflexivity.
    + destruct (put_inner_entry _ _ _ _ _ _ H) as (c & c' & Ef & E).
      cbn [unlink]. rewrite Ef. cbn [lookup]. rewrite find_set_entry.
      apply (IH c c' E).
Qed.

(** The removal of a file leaves every position alone that is not the
    file's or above it. *)
Lemma lookup_unlink_other f segs :
  forall n n' p,
    put segs f n = Ok n' ->
    (forall t, segs <> p ++ t) ->
    lookup (unlink segs n) p = lookup n p.
Proof.
  induction segs as [|s rest IH]; intros n n' p H Hp.
  - discriminate.
  - destruct n as [| [items|m] |]; try discriminate.
    destruct p as [|s' p']; [exfalso; apply (Hp (s :: rest)); reflexivity|].
    destruct (list_eq_dec N.eq_dec s s') as [<-|Hne].
    + destruct rest as [|s2 rest'].
      * assert (Hp' : p' <> []).
        { intros ->. apply (Hp []). reflexivity. }
        cbn [unlink lookup]. rewrite find_remove_entry.
        destruct (put_last_entry _ _ _ _ H) as [->|(sz & d & ->)];
          [reflexivity|].
        rewrite lookup_file_below by exact Hp'. reflexivity.
      * destruct (put_inner_entry _ _ _ _ _ _ H) as (c & c' & Ef & E).
        cbn [unlink]. rewrite Ef. cbn [lookup]. rewrite find_set_entry, Ef.
        apply (IH c c' p' E). intros t Et. apply (Hp t). rewrite Et.
        reflexivity.
    + destruct rest as [|s2 rest'].
      * cbn [unlink lookup]. rewrite (find_remove_entry_other s s' items Hne).
        reflexivity.
      * destruct (put_inner_entry _ _ _ _ _ _ H) as (c & c' & Ef & E).
        cbn [unlink]. rewrite Ef. cbn [lookup].
        rewrite (find_set_entry_other s s' _ items Hne). reflexivity.
Qed.

(** The removal of a file keeps every directory that could be listed a
    directory that can be listed. *)
Lemma unlink_keeps_listed f segs :
  forall n n' p items,
    put segs f n = Ok n' ->
    lookup n p = Some (Dir (Ok items)) ->
    exists items', lookup (unlink segs n) p = Some (Dir (Ok items')).
Proof.
  induction segs as [|s rest IH]; intros n n' p items0 H Hl.
  - discriminate.
  - destruct n as [| [items|m] |]; try discriminate.
    destruct p as [|s' p'].
    { destruct rest as [|s2 rest']; cbn [unlink lookup]; [eauto|].
      destruct (find_entry s items); eauto. }
    cbn [lookup] in Hl.
    destruct (list_eq_dec N.eq_dec s s') as [<-|Hne].
    + destruct rest as [|s2 rest'].
      * destruct (put_last_entry _ _ _ _ H) as [Ef|(sz & d & Ef)];
          rewrite Ef in Hl; [discriminate|].
        destruct p'; discriminate Hl.
      * destruct (put_inner_entry _ _ _ _ _ _ H) as (c & c' & Ef & E).
        cbn [unlink]. rewrite Ef. cbn [lookup]. rewrite find_set_entry.
        rewrite Ef in Hl. apply (IH c c' p' items0 E Hl).
    + destruct rest as [|s2 rest'].
      * cbn [unlink lookup]. rewrite (find_remove_entry_other s s' items Hne).
        destruct (find_entry s' items); [|discriminate]. eauto.
      * destruct (put_inner_entry _ _ _ _ _ _ H) as (c & c' & Ef & E).
        cbn [unlink]. rewrite Ef. cbn [lookup].
        rewrite (find_set_entry_other s s' _ items Hne).
        destruct (find_entry s' items); [|discriminate]. eauto.
Qed.

(** *** What a write may change *)

Lemma touched_elsewhere segs fs fs' :
  touched segs fs fs' -> same_elsewhere segs fs fs'.
Proof.
  intros [|b n H|b n H] p Hp.
  - reflexivity.
  - apply (lookup_put_other b _ _ _ _ H Hp).
  - apply (lookup_unlink_other _ _ _ _ _ H Hp).
Qed.

Lemma touched_keeps_listed segs fs fs' p items :
  touched segs fs fs' ->
  lookup fs p = Some (Dir (Ok items)) ->
  exists items', lookup fs' p = Some (Dir (Ok items')).
Proof.
  intros [|b n H|b n H] Hl.
  - eauto.
  - apply (put_keeps_listed b _ _ _ _ _ H Hl).
  - apply (unlink_keeps_listed _ _ _ _ _ _ H Hl).
Qed.

Lemma touched_with_file segs b b' fs fs' :
  put segs (new_file b) fs = Ok fs' ->
  touched segs fs (with_file segs (new_file b') fs).
Proof.
  intros H.
  destruct (put_any_file _ _ (new_file b') _ _ H) as (fs'' & E).
  rewrite (with_file_put _ _ _ _ E). apply (touched_put _ _ _ _ E).
Qed.

Lemma lookup_with_file segs b b' fs fs' :
  put segs (new_file b) fs = Ok fs' ->
  lookup (with_file segs (new_file b') fs) segs = Some (new_file b').
Proof.
  intros H.
  destruct (put_any_file _ _ (new_file b') _ _ H) as (fs'' & E).
  rewrite (with_file_put _ _ _ _ E). apply (lookup_put _ _ _ _ E).
Qed.

Section WritingFacts.

Context {platform : Platform}.

Lemma writeFile_touched p b fs :
  touched (segments p) fs (fs_of (fs_writeFile p b fs)).
Proof.
  unfold fs_writeFile.
  destruct (put (segments p) (new_file b) fs) as [fs'|m] eqn:E; [|constructor].
  destruct (writeFile_fault fs p b) as [[message [|written]]|];
    cbn [fs_of fst snd].
  - constructor.
  - apply (touched_with_file _ _ _ _ _ E).
  - apply (touched_put _ _ _ _ E).
Qed.

Lemma writeFile_ok p b fs :
  result_of (fs_writeFile p b fs) = Ok tt ->
  put (segments p) (new_file b) fs = Ok (fs_of (fs_writeFile p b fs)).
Proof.
  unfold fs_writeFile.
  destruct (put (segments p) (new_file b) fs) as [fs'|m] eqn:E; [|discriminate].
  destruct (writeFile_fault fs p b) as [[message [|written]]|];
    try discriminate.
  reflexivity.
Qed.

Lemma writeFile_events p b fs : events_of (fs_writeFile p b fs) = [].
Proof.
  unfold fs_writeFile.
  destruct (put (segments p) (new_file b) fs) as [fs'|m]; [|reflexivity].
  destruct (writeFile_fault fs p b) as [[message [|written]]|]; reflexivity.
Qed.

(** What [fs.copyFile] does once the source has been read. *)
Lemma copyFile_steps src dst fs :
  fs_copyFile src dst fs =
  match result_of (fs_readFile src fs) with
  | Ok b =>
      match put (segments dst) (new_file b) fs with
      | Ok fs' =>
          match copyFile_fault fs src dst with
          | None => (Ok tt, fs', [])
          | Some (message, NotOpened) => (Throw message, fs, [])
          | Some (message, Opened written) =>
              (Throw message,
               if copyFile_removes fs dst then unlink (segments dst) fs
               else with_file (segments dst) (new_file (firstn written b)) fs,
               [])
          end
      | Throw m => (Throw m, fs, [])
      end
  | Throw m => (Throw m, fs, [])
  end.
Proof.
  unfold fs_copyFile, bind, fs_readFile, result_of.
  destruct (lookup fs (segments src)) as [[sz [b|m]| |]|]; cbn [fst];
    try reflexivity.
  destruct (put (segments dst) (new_file b) fs) as [fs'|m]; [|reflexivity].
  destruct (copyFile_fault fs src dst) as [[message [|written]]|]; reflexivity.
Qed.

Lemma copyFile_touched src dst fs :
  touched (segments dst) fs (fs_of (fs_copyFile src dst fs)).
Proof.
  rewrite copyFile_steps.
  destruct (result_of (fs_readFile src fs)) as [b|m]; [|constructor].
  destruct (put (segments dst) (new_file b) fs) as [fs'|m] eqn:E; [|constructor].
  destruct (copyFile_fault fs src dst) as [[message [|written]]|];
    cbn [fs_of fst snd].
  - constructor.
  - destruct (copyFile_removes fs dst).
    + apply (touched_removed _ _ _ _ E).
    + apply (touched_with_file _ _ _ _ _ E).
  - apply (touched_put _ _ _ _ E).
Qed.

Lemma copyFile_ok src dst fs :
  result_of (fs_copyFile src dst fs) = Ok tt ->
  exists b,
    put (segments dst) (new_file b) fs = Ok (fs_of (fs_copyFile src dst fs)).
Proof.
  rewrite copyFile_steps.
  destruct (result_of (fs_readFile src fs)) as [b|m]; [|discriminate].
  destruct (put (segments dst) (new_file b) fs) as [fs'|m] eqn:E; [|discriminate].
  destruct (copyFile_fault fs src dst) as [[message [|written]]|];
    try discriminate.
  intros _. exists b. exact E.
Qed.

Lemma copyFile_events src dst fs : events_of (fs_copyFile src dst fs) = [].
Proof.
  rewrite copyFile_steps.
  destruct (result_of (fs_readFile src fs)) as [b|m]; [|reflexivity].
  destruct (put (segments dst) (new_file b) fs) as [fs'|m]; [|reflexivity].
  destruct (copyFile_fault fs src dst) as [[message [|written]]|]; reflexivity.
Qed.

End WritingFacts.

(** ** The eligibility filter *)

Section Eligibility.

Context {platform : Platform}.

Lemma stat_and_filter_result m fp item acc fs :
  is_pdf_entry item = true ->
  result_of (stat_and_filter m fp item acc fs)
  = Ok (acc ++ eligible_record m fp fs item)
  /\ fs_of (stat_and_filter m fp item acc fs) = fs.
Proof.
  intros P. unfold stat_and_filter, eligible_record. rewrite P.
  rewrite result_try, fs_try, result_bind, fs_bind, readonly_stat.
  destruct (result_of (fs_stat (path_join fp (d_name item)) fs)) as [s|msg].
  - destruct (m <=? s); [auto|].
    rewrite app_nil_r. auto.
  - rewrite app_nil_r. auto.
Qed.

Lemma collect_pdfs_result m fp items :
  forall acc fs,
    result_of (collect_pdfs m fp items acc fs)
    = Ok (acc ++ flat_map (eligible_record m fp fs) items)
    /\ fs_of (collect_pdfs m fp items acc fs) = fs.
Proof.
  induction items as [|item rest IH]; intros acc fs; simpl.
  - rewrite app_nil_r. auto.
  - destruct (is_pdf_entry item) eqn:P.
    + rewrite result_bind, fs_bind.
      destruct (stat_and_filter_result m fp item acc fs P) as [-> ->].
      destruct (IH (acc ++ eligible_record m fp fs item) fs) as [-> ->].
      rewrite <- app_assoc. auto.
    + unfold eligible_record at 1. rewrite P. apply IH.
Qed.

Lemma getValidPDFs_with_result m fp fs :
  result_of (getValidPDFs_with m fp fs) =
  Ok (match result_of (fs_readdir fp fs) with
      | Ok items => sort_by by_name (flat_map (eligible_record m fp fs) items)
      | Throw _ => []
      end)
  /\ fs_of (getValidPDFs_with m fp fs) = fs.
Proof.
  unfold getValidPDFs_with.
  rewrite result_try, fs_try, result_bind, fs_bind, readonly_readdir.
  destruct (result_of (fs_readdir fp fs)) as [items|msg].
  - rewrite result_bind, fs_bind.
    destruct (collect_pdfs_result m fp items [] fs) as [-> ->]. auto.
  - auto.
Qed.

(** C8.  Let [item] be an entry of the listing of [folderPath], a regular
    file whose name ends in [.pdf] in any case, with [fs.stat] giving size
    [s].  Its record is in the result of the filter exactly when
    [minFileSize <= s]: it is left out when [s] is [minFileSize - 1], it is
    in when [s] is [minFileSize].  No record of the result is smaller than
    the threshold, and [getValidPDFs] is the filter at [MIN_FILE_SIZE]. *)
Theorem getValidPDFs_threshold :
  forall minFileSize folderPath fs items item s,
    result_of (fs_readdir folderPath fs) = Ok items ->
    In item items ->
    isFile item = true ->
    endsWith (toLowerCase (d_name item)) (lit ".pdf") = true ->
    result_of (fs_stat (path_join folderPath (d_name item)) fs) = Ok s ->
    exists validPDFs,
      result_of (getValidPDFs_with minFileSize folderPath fs) = Ok validPDFs
      /\ let record := {| name := d_name item;
                          path := path_join folderPath (d_name item);
                          size := s |} in
         (In record validPDFs <-> minFileSize <= s)
         /\ (s + 1 = minFileSize -> ~ In record validPDFs)
         /\ (s = minFileSize -> In record validPDFs)
         /\ (forall f, In f validPDFs -> minFileSize <= size f)
         /\ getValidPDFs folderPath = getValidPDFs_with MIN_FILE_SIZE folderPath.
Proof.
  intros m fp fs items item s Hdir Hin Hfile Hext Hstat.
  destruct (getValidPDFs_with_result m fp fs) as [Hres _].
  rewrite Hdir in Hres. eexists. split; [exact Hres|].
  assert (Hsmall : forall f,
             In f (sort_by by_name (flat_map (eligible_record m fp fs) items)) ->
             m <= size f).
  { intros f Hf.
    apply (Permutation_in _ (Permutation_sym (sort_by_perm _ _ _))) in Hf.
    apply in_flat_map in Hf. destruct Hf as (it & _ & Hf).
    unfold eligible_record in Hf.
    destruct (is_pdf_entry it); [|contradiction].
    destruct (result_of (fs_stat (path_join fp (d_name it)) fs)) as [s'|];
      [|contradiction].
    destruct (N.leb_spec m s') as [L|L]; [|contradiction].
    destruct Hf as [<-|[]]. exact L. }
  assert (Hiff : In {| name := d_name item; path := path_join fp (d_name item);
                       size := s |}
                    (sort_by by_name (flat_map (eligible_record m fp fs) items))
                 <-> m <= s).
  { split.
    - intros Hf. apply (Hsmall _ Hf).
    - intros L. apply (Permutation_in _ (sort_by_perm _ _ _)).
      apply in_flat_map. exists item. split; [exact Hin|].
      unfold eligible_record, is_pdf_entry. rewrite Hfile, Hext, Hstat. simpl.
      apply N.leb_le in L. rewrite L. left. reflexivity. }
  simpl. split; [exact Hiff|]. split; [|split; [|split]].
  - intros E Hf. apply Hiff in Hf. lia.
  - intros E. apply Hiff. lia.
  - exact Hsmall.
  - reflexivity.
Qed.

End Eligibility.

(** ** Merging *)

Section Merging.

Context {platform : Platform}.

Lemma readonly_import f : readonly (import_pdf f).
Proof.
  unfold import_pdf.
  repeat (apply readonly_bind; [auto with js|intros]). auto with js.
Qed.

Lemma readonly_add_one f acc : readonly (add_one f acc).
Proof.
  unfold add_one. apply readonly_try.
  - apply readonly_bind; [apply readonly_import|auto with js].
  - intros m. apply readonly_bind; auto with js.
Qed.

Lemma nothrow_add_one f acc : never_throws (add_one f acc).
Proof.
  unfold add_one. apply nothrow_try. intros m.
  apply nothrow_bind; auto with js.
Qed.

Lemma readonly_add_all files : forall acc, readonly (add_all files acc).
Proof.
  induction files as [|f rest IH]; intros acc; simpl.
  - auto with js.
  - apply readonly_bind; [apply readonly_add_one|auto].
Qed.

Lemma nothrow_add_all files : forall acc, never_throws (add_all files acc).
Proof.
  induction files as [|f rest IH]; intros acc; simpl.
  - auto with js.
  - apply nothrow_bind; [apply nothrow_add_one|auto].
Qed.

Lemma add_one_fails f acc fs :
  import_fails f fs -> result_of (add_one f acc fs) = Ok acc.
Proof.
  intros (m & Hm). unfold add_one.
  rewrite result_try, result_bind, Hm. reflexivity.
Qed.

(** When every import fails, the loop ends with the document it began
    with. *)
Lemma add_all_fails files :
  forall acc fs,
    (forall f, In f files -> import_fails f fs) ->
    result_of (add_all files acc fs) = Ok acc.
Proof.
  induction files as [|f rest IH]; intros acc fs Hall; simpl.
  - reflexivity.
  - rewrite result_bind, add_one_fails by (apply Hall; left; reflexivity).
    rewrite readonly_add_one. apply IH.
    intros g Hg. apply Hall. right. exact Hg.
Qed.

Lemma add_one_pages f acc fs :
  result_of (add_one f acc fs) = Ok (acc ++ imported_pages fs f).
Proof.
  unfold add_one, imported_pages. rewrite result_try, result_bind.
  destruct (result_of (import_pdf f fs)) as [pages|m]; [reflexivity|].
  rewrite app_nil_r. reflexivity.
Qed.

Lemma add_all_pages files :
  forall acc fs,
    result_of (add_all files acc fs)
    = Ok (acc ++ flat_map (imported_pages fs) files).
Proof.
  induction files as [|f rest IH]; intros acc fs; simpl.
  - rewrite app_nil_r. reflexivity.
  - rewrite result_bind, add_one_pages, readonly_add_one, IH, <- app_assoc.
    reflexivity.
Qed.

(** What one input brings, step by step. *)
Lemma imported_pages_steps fs f :
  imported_pages fs f =
  match result_of (fs_readFile (path f) fs) with
  | Ok pdfBytes =>
      match PDFDocument_load pdfBytes with
      | Ok pdf => match copyPages pdf with Ok pages => pages | Throw _ => [] end
      | Throw _ => []
      end
  | Throw _ => []
  end.
Proof.
  pose proof (readonly_readFile (path f) fs) as Hr.
  unfold imported_pages, import_pdf, bind, console, lift, result_of, fs_of in *.
  destruct (fs_readFile (path f) fs) as [[[b|m] fs1] e1]; cbn [fst snd] in *;
    [|reflexivity].
  destruct (PDFDocument_load b) as [pdf|m]; [|reflexivity].
  destruct (copyPages pdf); reflexivity.
Qed.

Lemma triple_eta {A} (r : Exn A * node * list event) :
  r = (result_of r, fs_of r, events_of r).
Proof. destruct r as [[? ?] ?]. reflexivity. Qed.

Lemma import_pdf_events f fs :
  events_of (import_pdf f fs)
  = [(Log, lit "  Adding: " ++ name f ++ lit " (" ++ formatBytes (size f)
           ++ lit ")")].
Proof.
  unfold import_pdf, bind, console, lift, fs_readFile, events_of.
  destruct (lookup fs (segments (path f))) as [[sz [b|m]| |]|]; try reflexivity.
  destruct (PDFDocument_load b) as [pdf|m]; [|reflexivity].
  destruct (copyPages pdf); reflexivity.
Qed.

(** An input whose import throws is logged twice and leaves the document as
    it is. *)
Lemma add_one_skips f acc fs :
  import_fails f fs -> add_one f acc fs = (Ok acc, fs, skipped_lines fs f).
Proof.
  intros Hf. rewrite (triple_eta (add_one f acc fs)).
  rewrite (add_one_fails f acc fs Hf), readonly_add_one.
  destruct Hf as (m & Hm). f_equal.
  unfold add_one. rewrite events_try, events_bind, result_bind, Hm.
  rewrite import_pdf_events.
  unfold skipped_lines, import_error. rewrite Hm. reflexivity.
Qed.

Lemma add_all_skips files :
  forall acc fs,
    (forall f, In f files -> import_fails f fs) ->
    add_all files acc fs = (Ok acc, fs, flat_map (skipped_lines fs) files).
Proof.
  induction files as [|f rest IH]; intros acc fs Hall.
  - reflexivity.
  - cbn [add_all]. unfold bind.
    rewrite (add_one_skips f acc fs) by (apply Hall; left; reflexivity).
    rewrite (IH acc fs) by (intros g Hg; apply Hall; right; exact Hg).
    reflexivity.
Qed.

(** The branch for two or more inputs: the loop never throws, and the
    outcome is decided by [save] and [writeFile] alone. *)
Lemma mergePDFs_many_run f1 f2 rest outputPath fs :
  let pdfFiles := f1 :: f2 :: rest in
  let logged := events_of (add_all pdfFiles [] fs) in
  mergePDFs pdfFiles outputPath fs =
  match PDFDocument_save (flat_map (imported_pages fs) pdfFiles) with
  | Ok saved =>
      match result_of (fs_writeFile outputPath (snd saved) fs) with
      | Ok _ =>
          (Ok true, fs_of (fs_writeFile outputPath (snd saved) fs),
           logged ++ [merged_line saved])
      | Throw message =>
          (Ok false, fs_of (fs_writeFile outputPath (snd saved) fs),
           logged ++ [merge_error_line message])
      end
  | Throw message => (Ok false, fs, logged ++ [merge_error_line message])
  end.
Proof.
  intros pdfFiles logged.
  pose proof (add_all_pages pdfFiles [] fs) as Hr.
  pose proof (readonly_add_all pdfFiles [] fs) as Hf.
  pose proof (writeFile_events outputPath) as Hw.
  unfold mergePDFs, merged_line, merge_error_line, logged, pdfFiles in *.
  unfold try_catch, bind, lift, console, ret, result_of, fs_of, events_of in *.
  destruct (add_all (f1 :: f2 :: rest) [] fs) as [[r fs1] e1].
  cbn [fst snd app] in Hr, Hf. subst r fs1.
  destruct (PDFDocument_save _) as [saved|m]; cbn [fst snd app].
  - specialize (Hw (snd saved) fs).
    destruct (fs_writeFile outputPath (snd saved) fs) as [[[u|m] fs2] e2];
      cbn [fst snd app] in *; subst e2; cbn [fst snd app];
      rewrite ?app_nil_r; reflexivity.
  - rewrite ?app_nil_r. reflexivity.
Qed.

(** The branch for one input. *)
Lemma mergePDFs_one_run only outputPath fs :
  mergePDFs [only] outputPath fs =
  match result_of (fs_copyFile (path only) outputPath fs) with
  | Ok _ =>
      (Ok true, fs_of (fs_copyFile (path only) outputPath fs),
       [(Log, lit "  Copied single PDF: " ++ name only)])
  | Throw message =>
      (Ok false, fs_of (fs_copyFile (path only) outputPath fs),
       [(Error, lit "  Error copying single PDF: " ++ message)])
  end.
Proof.
  pose proof (copyFile_events (path only) outputPath fs) as Hc.
  unfold mergePDFs.
  unfold try_catch, bind, console, ret, result_of, fs_of, events_of in *.
  destruct (fs_copyFile (path only) outputPath fs) as [[[u|m] fs1] e1];
    cbn [fst snd app] in *; subst e1; reflexivity.
Qed.

Lemma nothrow_mergePDFs files outputPath : never_throws (mergePDFs files outputPath).
Proof.
  destruct files as [|f1 [|f2 rest]]; simpl.
  - apply nothrow_bind; auto with js.
  - apply nothrow_try. intros m. apply nothrow_bind; auto with js.
  - apply nothrow_try. intros m. apply nothrow_bind; auto with js.
Qed.

(** A merge changes the tree at the output position only, and after a merge
    that reports success the output path holds the file that was written. *)
Lemma mergePDFs_touched files outputPath fs :
  touched (segments outputPath) fs (fs_of (mergePDFs files outputPath fs))
  /\ (result_of (mergePDFs files outputPath fs) = Ok true ->
      exists b,
        put (segments outputPath) (new_file b) fs
        = Ok (fs_of (mergePDFs files outputPath fs))).
Proof.
  destruct files as [|f1 [|f2 rest]].
  - split; [constructor|discriminate].
  - rewrite mergePDFs_one_run.
    pose proof (copyFile_touched (path f1) outputPath fs) as Ht.
    pose proof (copyFile_ok (path f1) outputPath fs) as Hok.
    destruct (result_of (fs_copyFile (path f1) outputPath fs)) as [[]|m].
    + split; [exact Ht|]. intros _. apply Hok. reflexivity.
    + split; [exact Ht|discriminate].
  - rewrite mergePDFs_many_run. cbv zeta.
    destruct (PDFDocument_save _) as [saved|m];
      [|split; [constructor|discriminate]].
    pose proof (writeFile_touched outputPath (snd saved) fs) as Ht.
    pose proof (writeFile_ok outputPath (snd saved) fs) as Hok.
    destruct (result_of (fs_writeFile outputPath (snd saved) fs)) as [[]|m].
    + split; [exact Ht|]. intros _. exists (snd saved). apply Hok. reflexivity.
    + split; [exact Ht|discriminate].
Qed.

Lemma mergePDFs_true files outputPath fs :
  result_of (mergePDFs files outputPath fs) = Ok true ->
  exists b,
    put (segments outputPath) (new_file b) fs
    = Ok (fs_of (mergePDFs files outputPath fs)).
Proof. apply mergePDFs_touched. Qed.

(** C1, as the code has it.  When every input of a set of two or more
    fails to import, each of them is logged as being added and then as
    skipped, the loop leaves the new document empty, and the merge goes on
    to save and write it.  It reports success, with the saved bytes at the
    output path, when saving and writing succeed.  It reports failure only
    when one of the two throws: the file system is then as before when
    [save] throws or the output file cannot be opened, and when the write
    fails later the output path is left with the bytes written so far, none
    or some, in place of what it held. *)
Theorem mergePDFs_all_imports_fail :
  forall pdfFiles outputPath fs,
    (2 <= length pdfFiles)%nat ->
    (forall f, In f pdfFiles -> import_fails f fs) ->
    let run := mergePDFs pdfFiles outputPath fs in
    let logged := flat_map (skipped_lines fs) pdfFiles in
    add_all pdfFiles [] fs = (Ok [], fs, logged)
    /\ match PDFDocument_save [] with
       | Ok saved =>
           match put (segments outputPath) (new_file (snd saved)) fs with
           | Ok fs' =>
               match writeFile_fault fs outputPath (snd saved) with
               | None =>
                   run = (Ok true, fs', logged ++ [merged_line saved])
                   /\ lookup fs' (segments outputPath)
                      = Some (new_file (snd saved))
               | Some (message, NotOpened) =>
                   run = (Ok false, fs, logged ++ [merge_error_line message])
               | Some (message, Opened written) =>
                   result_of run = Ok false
                   /\ events_of run = logged ++ [merge_error_line message]
                   /\ lookup (fs_of run) (segments outputPath)
                      = Some (new_file (firstn written (snd saved)))
                   /\ same_elsewhere (segments outputPath) fs (fs_of run)
               end
           | Throw message =>
               run = (Ok false, fs, logged ++ [merge_error_line message])
           end
       | Throw message =>
           run = (Ok false, fs, logged ++ [merge_error_line message])
       end.
Proof.
  intros files outputPath fs Hlen Hall run logged.
  destruct files as [|f1 [|f2 rest]]; simpl in Hlen; try lia.
  pose proof (add_all_skips _ [] fs Hall) as Hskips. fold logged in Hskips.
  split; [exact Hskips|].
  assert (Hpages : flat_map (imported_pages fs) (f1 :: f2 :: rest) = []).
  { pose proof (add_all_pages (f1 :: f2 :: rest) [] fs) as Hp.
    rewrite Hskips in Hp. cbn [result_of fst app] in Hp.
    injection Hp as Hp. symmetry. exact Hp. }
  unfold run. rewrite mergePDFs_many_run. cbv zeta.
  rewrite Hpages, Hskips. cbn [events_of snd].
  destruct (PDFDocument_save []) as [saved|m]; [|reflexivity].
  unfold fs_writeFile.
  destruct (put (segments outputPath) (new_file (snd saved)) fs)
    as [fs'|m] eqn:E; [|reflexivity].
  destruct (writeFile_fault fs outputPath (snd saved))
    as [[message [|written]]|]; cbn [result_of fs_of events_of fst snd].
  - reflexivity.
  - repeat split.
    + apply (lookup_with_file _ _ _ _ _ E).
    + apply touched_elsewhere. apply (touched_with_file _ _ _ _ _ E).
  - split; [reflexivity|]. apply (lookup_put _ _ _ _ E).
Qed.

End Merging.

(** ** The driver loop *)

Lemma output_names_app a b :
  output_names (a ++ b) = output_names a ++ output_names b.
Proof. apply flat_map_app. Qed.

Lemma names_bind {A B} (c : M A) (k : A -> M B) fs :
  output_names (events_of (bind c k fs)) =
  output_names (events_of (c fs)) ++
  match result_of (c fs) with
  | Ok a => output_names (events_of (k a (fs_of (c fs))))
  | Throw _ => []
  end.
Proof.
  rewrite events_bind, output_names_app.
  destruct (result_of (c fs)); reflexivity.
Qed.

Lemma names_console {A} l msg (k : unit -> M A) fs :
  output_names (events_of (bind (console l msg) k fs))
  = output_line (l, msg) ++ output_names (events_of (k tt fs)).
Proof.
  unfold bind, console, events_of.
  destruct (k tt fs) as [[r fs2] e2]. reflexivity.
Qed.

Lemma result_console {A} l msg (k : unit -> M A) fs :
  result_of (bind (console l msg) k fs) = result_of (k tt fs).
Proof.
  unfold bind, console, result_of.
  destruct (k tt fs) as [[r fs2] e2]. reflexivity.
Qed.

Lemma quiet_ret {A} (a : A) : quiet (ret a).
Proof. intros fs. reflexivity. Qed.

Lemma quiet_lift {A} (r : Exn A) : quiet (lift r).
Proof. intros fs. reflexivity. Qed.

Lemma quiet_console l msg : output_line (l, msg) = [] -> quiet (console l msg).
Proof.
  intros H fs. change (output_line (l, msg) ++ [] = []).
  rewrite H. reflexivity.
Qed.

Lemma quiet_bind {A B} (c : M A) (k : A -> M B) :
  quiet c -> (forall a, quiet (k a)) -> quiet (bind c k).
Proof.
  intros Hc Hk fs. rewrite names_bind, Hc.
  destruct (result_of (c fs)); [apply Hk|reflexivity].
Qed.

Lemma quiet_try {A} (c : M A) (h : jsstring -> M A) :
  quiet c -> (forall m, quiet (h m)) -> quiet (try_catch c h).
Proof.
  intros Hc Hh fs. rewrite events_try, output_names_app, Hc.
  destruct (result_of (c fs)); [reflexivity|apply Hh].
Qed.

Lemma quiet_stat p : quiet (fs_stat p).
Proof.
  intros fs. unfold fs_stat.
  destruct (lookup fs (segments p)) as [[| |]|]; reflexivity.
Qed.

Lemma quiet_readFile p : quiet (fs_readFile p).
Proof.
  intros fs. unfold fs_readFile.
  destruct (lookup fs (segments p)) as [[| |]|]; reflexivity.
Qed.

Lemma quiet_readdir p : quiet (fs_readdir p).
Proof.
  intros fs. unfold fs_readdir.
  destruct (lookup fs (segments p)) as [[|[|]|]|]; reflexivity.
Qed.

Lemma quiet_writeFile {platform : Platform} p b : quiet (fs_writeFile p b).
Proof. intros fs. rewrite writeFile_events. reflexivity. Qed.

Lemma quiet_copyFile {platform : Platform} src dst :
  quiet (fs_copyFile src dst).
Proof. intros fs. rewrite copyFile_events. reflexivity. Qed.

Lemma quiet_mkdir p : quiet (fs_mkdir_recursive p).
Proof.
  intros fs. unfold fs_mkdir_recursive.
  destruct (mkdirp (segments p) fs); reflexivity.
Qed.

(** Break a computation into its steps; the console lines are compared
    with the announcement by evaluation. *)
Ltac quiet_steps :=
  repeat first
    [ apply quiet_ret | apply quiet_lift | apply quiet_stat
    | apply quiet_readFile | apply quiet_readdir | apply quiet_writeFile
    | apply quiet_copyFile | apply quiet_mkdir
    | apply quiet_console; reflexivity
    | apply quiet_bind; [|intros ?]
    | apply quiet_try; [|intros ?] ].

Section Orchestration.

Context {platform : Platform}.

Lemma quiet_collect m fp items : forall acc, quiet (collect_pdfs m fp items acc).
Proof.
  induction items as [|item rest IH]; intros acc; simpl.
  - quiet_steps.
  - destruct (is_pdf_entry item); [|apply IH].
    apply quiet_bind; [|intros ?; apply IH].
    unfold stat_and_filter. quiet_steps.
    destruct (m <=? _); quiet_steps.
Qed.

Lemma quiet_getValidPDFs p : quiet (getValidPDFs p).
Proof.
  unfold getValidPDFs, getValidPDFs_with.
  apply quiet_try; [|intros ?; quiet_steps].
  apply quiet_bind; [quiet_steps|intros items].
  apply quiet_bind; [apply quiet_collect|intros ?; quiet_steps].
Qed.

Lemma quiet_add_all files : forall acc, quiet (add_all files acc).
Proof.
  induction files as [|f rest IH]; intros acc; simpl.
  - quiet_steps.
  - apply quiet_bind; [|intros ?; apply IH].
    unfold add_one, import_pdf. quiet_steps.
Qed.

Lemma quiet_mergePDFs files outputPath : quiet (mergePDFs files outputPath).
Proof.
  destruct files as [|f1 [|f2 rest]]; unfold mergePDFs.
  - quiet_steps.
  - quiet_steps.
  - apply quiet_try; [|intros ?; quiet_steps].
    apply quiet_bind; [apply quiet_add_all|intros ?]. quiet_steps.
Qed.

Lemma nothrow_getValidPDFs p : never_throws (getValidPDFs p).
Proof.
  unfold getValidPDFs, getValidPDFs_with. apply nothrow_try. intros m.
  apply nothrow_bind; auto with js.
Qed.

(** What [fs.stat] gives for a file that has just been written. *)
Lemma stat_after_put p b fs fs' :
  put (segments p) (new_file b) fs = Ok fs' ->
  fs_stat p fs' = (Ok (N.of_nat (length b)), fs', []).
Proof.
  intros H. unfold fs_stat. rewrite (lookup_put _ _ _ _ H). reflexivity.
Qed.

(** One turn of the loop announces exactly the name made from the folder
    and the turn's index plus one, and it does not throw. *)
Lemma process_folder_turn sourceDir outputDir total i folderPath successCount fs :
  output_names
    (events_of
       (process_folder sourceDir outputDir total i folderPath successCount fs))
  = [generateFileName folderPath (N.of_nat i + 1)]
  /\ exists successCount',
      result_of
        (process_folder sourceDir outputDir total i folderPath successCount fs)
      = Ok successCount'.
Proof.
  unfold process_folder.
  set (fullFolderPath := if str_eqb folderPath (lit ".") then sourceDir
                         else path_join sourceDir folderPath).
  set (outputFileName := generateFileName folderPath (N.of_nat i + 1)).
  set (outputPath := path_join outputDir outputFileName).
  set (line1 := lit "[" ++ _).
  rewrite !names_console, !result_console. cbv beta.
  change (output_line (Log, line1)) with (@nil jsstring).
  change (output_line (Log, lit "  Output: " ++ outputFileName))
    with [outputFileName].
  rewrite names_bind, result_bind.
  destruct (nothrow_getValidPDFs fullFolderPath fs) as (pdfFiles & Hv).
  rewrite Hv.
  rewrite (quiet_getValidPDFs fullFolderPath fs).
  set (fs1 := fs_of (getValidPDFs fullFolderPath fs)).
  cbn [app].
  destruct (0 <? length pdfFiles)%nat.
  - rewrite names_bind, result_bind.
    destruct (nothrow_mergePDFs pdfFiles outputPath fs1) as (success & Hm).
    rewrite Hm, (quiet_mergePDFs pdfFiles outputPath fs1). cbn [app].
    destruct success.
    + destruct (mergePDFs_true _ _ _ Hm) as (b & Hput).
      rewrite names_bind, result_bind.
      rewrite (stat_after_put _ _ _ _ Hput).
      cbn [result_of fs_of events_of fst snd output_names flat_map app].
      split; [reflexivity|]. eexists. reflexivity.
    + split; [reflexivity|]. eexists. reflexivity.
  - split; [reflexivity|]. eexists. reflexivity.
Qed.

Lemma process_from_names sourceDir outputDir total folders :
  forall i processedCount successCount fs,
    output_names
      (events_of
         (process_from sourceDir outputDir total i folders
                       processedCount successCount fs))
    = names_from i folders
    /\ exists successCount',
        result_of
          (process_from sourceDir outputDir total i folders
                        processedCount successCount fs)
        = Ok (processedCount + N.of_nat (length folders), successCount').
Proof.
  induction folders as [|folderPath rest IH]; intros i pc sc fs; simpl.
  - split; [reflexivity|]. exists sc. unfold ret, result_of. simpl.
    rewrite N.add_0_r. reflexivity.
  - rewrite names_bind, result_bind.
    destruct (process_folder_turn sourceDir outputDir total i folderPath sc fs)
      as (-> & sc' & ->).
    destruct (IH (S i) (pc + 1) sc'
                 (fs_of (process_folder sourceDir outputDir total i folderPath
                                        sc fs)))
      as (-> & sc'' & ->).
    split; [reflexivity|]. exists sc''. f_equal. f_equal. lia.
Qed.

Lemma names_from_nth folders :
  forall i k folderPath,
    nth_error folders k = Some folderPath ->
    nth_error (names_from i folders) k
    = Some (generateFileName folderPath (N.of_nat (i + k) + 1)).
Proof.
  induction folders as [|f rest IH]; intros i [|k] folderPath H; simpl in *;
    try discriminate.
  - injection H as ->. rewrite Nat.add_0_r. reflexivity.
  - rewrite (IH (S i) k folderPath H). do 3 f_equal. lia.
Qed.

Lemma names_from_length folders :
  forall i, length (names_from i folders) = length folders.
Proof.
  induction folders as [|f rest IH]; intros i; simpl; [reflexivity|].
  rewrite IH. reflexivity.
Qed.

(** Every name the loop gives from index [i] on carries an index above
    [i]. *)
Lemma names_from_in folders :
  forall i x,
    In x (names_from i folders) ->
    exists folderPath k,
      x = generateFileName folderPath (N.of_nat (i + k) + 1).
Proof.
  induction folders as [|f rest IH]; intros i x H; simpl in H.
  - contradiction.
  - destruct H as [<-|H].
    + exists f, 0%nat. rewrite Nat.add_0_r. reflexivity.
    + destruct (IH (S i) x H) as (g & k & ->).
      exists g, (S k). do 3 f_equal. lia.
Qed.

Lemma names_from_NoDup folders : forall i, NoDup (names_from i folders).
Proof.
  induction folders as [|f rest IH]; intros i; simpl; constructor.
  - intros H. apply names_from_in in H. destruct H as (g & k & E).
    apply generateFileName_inj_index in E. lia.
  - apply IH.
Qed.

(** The walk writes to the console through [console.error] only. *)
Lemma scan_events_error :
  forall n currentPath relativePath,
    Forall (fun e : event => fst e = Error)
           (snd (scan n currentPath relativePath)).
Proof.
  fix IH 1. intros [sz d|[items|m]|] currentPath relativePath.
  - repeat constructor.
  - change (scan (Dir (Ok items)) currentPath relativePath) with
      (let below :=
         (fix each (its : list (jsstring * node)) : list jsstring * list event :=
            match its with
            | [] => ([], [])
            | (item_name, child) :: rest =>
                match child with
                | Dir _ =>
                    let sub :=
                      scan child (path_join currentPath item_name)
                           (if str_eqb relativePath (lit ".") then item_name
                            else path_join relativePath item_name) in
                    let others := each rest in
                    (fst sub ++ fst others, snd sub ++ snd others)
                | _ => each rest
                end
            end) items in
       ((if existsb is_pdf_item items then [relativePath] else []) ++ fst below,
        snd below)).
    cbv zeta. cbn [snd].
    revert items. fix IHr 1. intros [|[item_name child] rest].
    + constructor.
    + pose proof (IHr rest) as Hrest.
      pose proof (IH child (path_join currentPath item_name)
                    (if str_eqb relativePath (lit ".") then item_name
                     else path_join relativePath item_name)) as Hchild.
      destruct child as [sz d|entries|]; try exact Hrest.
      cbn [snd]. apply Forall_app. split; [exact Hchild|exact Hrest].
  - repeat constructor.
  - repeat constructor.
Qed.

Lemma error_events_quiet evs :
  Forall (fun e : event => fst e = Error) evs -> output_names evs = [].
Proof.
  induction 1 as [|[l msg] r H _ IH]; [reflexivity|].
  simpl in H. subst l. simpl. exact IH.
Qed.

Lemma quiet_scanFolders basePath : quiet (scanFolders basePath).
Proof.
  intros fs. unfold scanFolders, events_of. cbn [snd].
  apply error_events_quiet. apply scan_events_error.
Qed.

Lemma quiet_log_each files : quiet (log_each files).
Proof.
  induction files as [|file rest IH]; simpl; quiet_steps. exact IH.
Qed.

(** The names announced by a whole run: those of the loop over the scan
    result, taken after the output directory has been made. *)
Lemma main_names sourceDir fs :
  output_names (events_of (main sourceDir fs)) =
  match mkdirp (segments (path_join sourceDir OUTPUT_DIR)) fs with
  | Ok fs1 => names_from 0 (scanned sourceDir fs1)
  | Throw _ => []
  end.
Proof.
  unfold main. rewrite !names_console. cbv beta.
  change (output_line (Log, lit "PDF Merger Starting...")) with (@nil jsstring).
  change (output_line (Log, lit "Source: " ++ sourceDir)) with (@nil jsstring).
  change (output_line (Log, lit "Output: " ++ path_join sourceDir OUTPUT_DIR))
    with (@nil jsstring).
  change (output_line
            (Log, lit "Minimum file size: " ++ formatBytes MIN_FILE_SIZE ++ NL))
    with (@nil jsstring).
  cbn [app].
  rewrite events_try, output_names_app.
  match goal with
  | |- _ ++ ?handler = _ =>
      assert (Hh : handler = []);
      [ destruct (result_of _); [reflexivity|]; apply quiet_bind;
        [apply quiet_console; reflexivity|intros ?; apply quiet_ret]
      | rewrite Hh, app_nil_r; clear Hh ]
  end.
  rewrite names_bind, quiet_mkdir. cbn [app].
  unfold fs_mkdir_recursive at 1 2.
  destruct (mkdirp (segments (path_join sourceDir OUTPUT_DIR)) fs) as [fs1|m];
    [|reflexivity].
  cbn [result_of fs_of fst snd].
  rewrite names_console. cbv beta.
  change (output_line (Log, lit "Scanning for folders with PDF files..."))
    with (@nil jsstring).
  cbn [app]. rewrite names_bind, quiet_scanFolders. cbn [app].
  unfold scanned.
  destruct (result_of (scanFolders sourceDir fs1)) as [folders|m] eqn:Escan;
    [|discriminate Escan].
  assert (Efs : fs_of (scanFolders sourceDir fs1) = fs1) by reflexivity.
  rewrite Efs, names_console. cbv beta.
  match goal with
  | |- output_line ?e ++ _ = _ => change (output_line e) with (@nil jsstring)
  end.
  cbn [app]. rewrite names_bind.
  destruct (process_from_names sourceDir (path_join sourceDir OUTPUT_DIR)
              (length folders) folders 0 0 0 fs1) as (-> & sc & ->).
  match goal with
  | |- _ ++ ?rest = _ => assert (Hr : rest = []); [|rewrite Hr; apply app_nil_r]
  end.
  apply quiet_bind; [apply quiet_console; reflexivity|intros ?].
  apply quiet_bind; [apply quiet_console; reflexivity|intros ?].
  apply quiet_bind; [apply quiet_console; reflexivity|intros ?].
  apply quiet_bind; [apply quiet_console; reflexivity|intros ?].
  apply quiet_bind; [apply quiet_console; reflexivity|intros ?].
  apply quiet_bind; [apply quiet_readdir|intros outputFiles].
  apply quiet_bind; [|intros ?; apply quiet_ret].
  destruct (0 <? length outputFiles)%nat; [|apply quiet_ret].
  apply quiet_bind; [apply quiet_console; reflexivity|intros ?].
  apply quiet_log_each.
Qed.

End Orchestration.

(** ** The empty set *)

Section Naming.

Context {platform : Platform}.

Lemma readonly_getValidPDFs p : readonly (getValidPDFs p).
Proof.
  intros fs. exact (proj2 (getValidPDFs_with_result MIN_FILE_SIZE p fs)).
Qed.

(** C9.  [mergePDFs] on an empty set returns at once: the file system is
    as before, nothing is thrown, and the one console line is
    ["  No PDFs to merge"], written with [console.log] and not with
    [console.error].  (The value returned is [false].)  In [main] a
    directory whose eligible set is empty is not handed to [mergePDFs]: the
    turn writes nothing, leaves [successCount] as it is, and ends with the
    line about no valid PDFs, not with the line about a failed merge. *)
Theorem mergePDFs_empty_is_noop :
  forall outputPath fs,
    mergePDFs [] outputPath fs
    = (Ok false, fs, [(Log, lit "  No PDFs to merge")])
    /\ (forall sourceDir outputDir total i folderPath successCount,
           let fullFolderPath :=
             if str_eqb folderPath (lit ".") then sourceDir
             else path_join sourceDir folderPath in
           result_of (getValidPDFs fullFolderPath fs) = Ok [] ->
           process_folder sourceDir outputDir total i folderPath successCount fs
           = (Ok successCount, fs,
              [(Log, lit "[" ++ String_of_N (N.of_nat i + 1) ++ lit "/"
                     ++ String_of_N (N.of_nat total) ++ lit "] Processing: "
                     ++ (if str_eqb folderPath (lit ".") then lit "(root)"
                         else folderPath));
               (Log, lit "  Output: "
                     ++ generateFileName folderPath (N.of_nat i + 1))]
              ++ events_of (getValidPDFs fullFolderPath fs)
              ++ [(Log, lit "  " ++ WARNING_SIGN
                        ++ lit " No valid PDFs found (all files < "
                        ++ formatBytes MIN_FILE_SIZE ++ lit ")" ++ NL)])).
Proof.
  intros outputPath fs. split; [reflexivity|].
  intros sourceDir outputDir total i folderPath successCount fullFolderPath H.
  pose proof (readonly_getValidPDFs fullFolderPath fs) as Hfs.
  unfold process_folder. fold fullFolderPath.
  unfold bind, console, result_of, fs_of, events_of in *.
  destruct (getValidPDFs fullFolderPath fs) as [[r fs'] evs].
  simpl in H, Hfs. subst r fs'. cbn [length Nat.ltb Nat.leb fst snd app].
  unfold ret. reflexivity.
Qed.

Lemma path_join_inj dir a b : path_join dir a = path_join dir b -> a = b.
Proof.
  unfold path_join. intros H. apply app_inv_head in H.
  apply app_inv_head in H. exact H.
Qed.

End Naming.

(** ** Runs on the sample world *)

(** The claim of C1 as the specification states it fails on the sample
    world: both files of [(old)] fail to import, and the merge reports
    success and writes a file. *)
Lemma mergePDFs_all_fail_still_writes :
  ~ (forall (platform : Platform) pdfFiles outputPath fs,
        (2 <= length pdfFiles)%nat ->
        (forall f, In f pdfFiles -> import_fails f fs) ->
        result_of (mergePDFs pdfFiles outputPath fs) = Ok false
        /\ fs_of (mergePDFs pdfFiles outputPath fs) = fs).
Proof.
  intros claim.
  destruct (claim sample_platform [sample_x; sample_y] (lit "/w/merged.pdf")
                  sample_fs) as [H _].
  - simpl. lia.
  - intros f [<-|[<-|[]]]; eexists; reflexivity.
  - vm_compute in H. discriminate H.
Qed.

Lemma mergePDFs_all_imports_fail_witness :
  (let run := @mergePDFs sample_platform [sample_x; sample_y]
                         (lit "/w/merged.pdf") sample_fs in
   result_of run = Ok true
   /\ events_of run
      = [(Log, lit "  Adding: x.pdf (50000 B)");
         (Warn, lit "  Warning: Could not process x.pdf: Failed to parse PDF document");
         (Log, lit "  Adding: y.pdf (50000 B)");
         (Warn, lit "  Warning: Could not process y.pdf: Failed to parse PDF document");
         (Log, lit "  Created merged PDF with 0 pages")]
   /\ lookup (fs_of run) (segments (lit "/w/merged.pdf")) = Some (new_file []))
  /\ (let run := @mergePDFs (full_disk_platform true) [sample_x; sample_y]
                            (lit "/w/z.pdf") sample_fs in
      lookup sample_fs (segments (lit "/w/z.pdf"))
      = Some (sample_file 30000 [Byte.x05])
      /\ result_of run = Ok false
      /\ lookup (fs_of run) (segments (lit "/w/z.pdf")) = Some (new_file [])).
Proof.
  assert (Hlen : (2 <= length [sample_x; sample_y])%nat) by (simpl; lia).
  split.
  - assert (Hall : forall f, In f [sample_x; sample_y] ->
                             @import_fails sample_platform f sample_fs).
    { intros f [<-|[<-|[]]]; eexists; reflexivity. }
    pose proof (@mergePDFs_all_imports_fail sample_platform
                  [sample_x; sample_y] (lit "/w/merged.pdf") sample_fs
                  Hlen Hall) as [_ H].
    vm_compute in H. destruct H as [H1 H2].
    cbv zeta. split; [|split].
    + exact (f_equal (fun r => fst (fst r)) H1).
    + exact (f_equal snd H1).
    + exact (eq_trans (f_equal (fun r => lookup (snd (fst r))
                                            (segments (lit "/w/merged.pdf")))
                               H1) H2).
  - assert (Hall : forall f, In f [sample_x; sample_y] ->
                             @import_fails (full_disk_platform true) f sample_fs).
    { intros f [<-|[<-|[]]]; eexists; reflexivity. }
    pose proof (@mergePDFs_all_imports_fail (full_disk_platform true)
                  [sample_x; sample_y] (lit "/w/z.pdf") sample_fs
                  Hlen Hall) as [_ H].
    vm_compute in H. destruct H as (H1 & _ & H3 & _).
    cbv zeta. split; [reflexivity|]. split; [exact H1|exact H3].
Defined.

(** The claim of C3 about the root fails on the sample world: [(old)]
    comes before ["."]. *)
Lemma scanFolders_root_not_first :
  ~ (forall basePath fs folders,
        result_of (scanFolders basePath fs) = Ok folders ->
        In (lit ".") folders ->
        hd_error folders = Some (lit ".")).
Proof.
  intros claim.
  specialize (claim (lit "/w") sample_fs
                [lit "(old)"; lit "."; lit "A"; lit "B/C"; lit "tmp"]).
  assert (H : hd_error [lit "(old)"; lit "."; lit "A"; lit "B/C"; lit "tmp"]
              = Some (lit ".")).
  { apply claim; [vm_compute; reflexivity|]. right. left. reflexivity. }
  discriminate H.
Qed.

Lemma scanFolders_sorted_witness :
  (exists folders,
      result_of (scanFolders (lit "/v") sample_docs) = Ok folders
      /\ folders = [lit "."; lit "Guides"; lit "Guides/Setup"; lit "api"]
      /\ StronglySorted lex_le folders
      /\ hd_error folders = Some (lit "."))
  /\ (exists folders,
         result_of (scanFolders (lit "/w") sample_fs) = Ok folders
         /\ folders = [lit "(old)"; lit "."; lit "A"; lit "B/C"; lit "tmp"]
         /\ StronglySorted lex_le folders
         /\ ~ (forall p, In p folders -> exists c r, p = c :: r /\ 46 <= c)).
Proof.
  split.
  - destruct (scanFolders_sorted (lit "/v") sample_docs)
      as (folders & E & Hsorted & _ & Hroot).
    exists folders. split; [rewrite E; reflexivity|].
    assert (Ef : folders
                 = [lit "."; lit "Guides"; lit "Guides/Setup"; lit "api"]).
    { vm_compute in E. injection E as <-. reflexivity. }
    split; [exact Ef|]. split; [exact Hsorted|].
    apply Hroot; rewrite Ef.
    + left. reflexivity.
    + intros p Hp. apply root_le_iff. apply str_leb_lex.
      repeat (destruct Hp as [<-|Hp]; [reflexivity|]). contradiction.
  - destruct (scanFolders_sorted (lit "/w") sample_fs)
      as (folders & E & Hsorted & _ & Hroot).
    exists folders. split; [rewrite E; reflexivity|].
    assert (Ef : folders
                 = [lit "(old)"; lit "."; lit "A"; lit "B/C"; lit "tmp"]).
    { vm_compute in E. injection E as <-. reflexivity. }
    split; [exact Ef|]. split; [exact Hsorted|].
    intros Hall. apply Hroot in Hall.
    + rewrite Ef in Hall. discriminate Hall.
    + rewrite Ef. right. left. reflexivity.
Defined.

Lemma generateFileName_by_segments_witness :
  generateFileName (lit "a/b/c") 7 = lit "07-b-c.pdf"
  /\ generateFileName (lit "Getting Started") 12 = lit "12-Getting_Started.pdf".
Proof.
  split.
  - apply (proj1 (proj2 (proj2 (generateFileName_by_segments (lit "a/b/c") 7)))
             [lit "a"] (lit "b") (lit "c")).
    reflexivity.
  - apply (proj1 (proj2 (generateFileName_by_segments (lit "Getting Started") 12))
             (lit "Getting_Started")).
    reflexivity.
Defined.

Lemma strip_hash_exact_witness :
  strip_hash (lit "Catio Academy 21c539b101a3801ca187c6e9ede5a0ee")
  = lit "Catio Academy"
  /\ strip_hash (lit "Setup Guide") = lit "Setup Guide".
Proof.
  split.
  - apply (proj1 (strip_hash_exact _) (lit "Catio Academy")).
    + intros p c E.
      apply (f_equal (fun l => last l 0)) in E. rewrite last_last in E.
      subst c. reflexivity.
    + exists (lit " "), (lit "21c539b101a3801ca187c6e9ede5a0ee").
      repeat split; try reflexivity. discriminate.
  - apply (proj1 (proj2 (strip_hash_exact _))).
    intros pre (ws & hex & E & _ & _ & Hlen & _).
    apply (f_equal (@length N)) in E. rewrite !length_app, Hlen in E.
    simpl in E. lia.
Defined.

Lemma cleanFolderName_idempotent_witness :
  cleanFolderName (cleanFolderName (lit " Docs & Notes "))
  = cleanFolderName (lit " Docs & Notes ").
Proof.
  exact (proj1 (cleanFolderName_idempotent (lit " Docs & Notes "))).
Defined.

Lemma getValidPDFs_threshold_witness :
  (exists validPDFs,
      result_of (@getValidPDFs_with sample_platform 20480 (lit "/w/A") sample_fs)
      = Ok validPDFs
      /\ In {| name := lit "doc1.pdf"; path := lit "/w/A/doc1.pdf";
               size := 20480 |} validPDFs)
  /\ (exists validPDFs,
         result_of (@getValidPDFs_with sample_platform 20480 (lit "/w/A")
                                       sample_fs)
         = Ok validPDFs
         /\ ~ In {| name := lit "stub.PDF"; path := lit "/w/A/stub.PDF";
                    size := 20479 |} validPDFs).
Proof.
  split.
  - destruct (@getValidPDFs_threshold sample_platform 20480 (lit "/w/A")
                sample_fs
                [{| d_name := lit "doc1.pdf"; d_kind := KFile |};
                 {| d_name := lit "stub.PDF"; d_kind := KFile |}]
                {| d_name := lit "doc1.pdf"; d_kind := KFile |} 20480)
      as (validPDFs & E & H); try reflexivity.
    + left. reflexivity.
    + exists validPDFs. split; [exact E|].
      apply (proj1 (proj2 (proj2 H))). reflexivity.
  - destruct (@getValidPDFs_threshold sample_platform 20480 (lit "/w/A")
                sample_fs
                [{| d_name := lit "doc1.pdf"; d_kind := KFile |};
                 {| d_name := lit "stub.PDF"; d_kind := KFile |}]
                {| d_name := lit "stub.PDF"; d_kind := KFile |} 20479)
      as (validPDFs & E & H); try reflexivity.
    + right. left. reflexivity.
    + exists validPDFs. split; [exact E|].
      apply (proj1 (proj2 H)). reflexivity.
Defined.

Lemma mergePDFs_empty_is_noop_witness :
  @process_folder sample_platform (lit "/w") (lit "/w/output") 5 4 (lit "tmp") 2
                  sample_fs
  = (Ok 2, sample_fs,
     [(Log, lit "[5/5] Processing: tmp");
      (Log, lit "  Output: 05-tmp.pdf");
      (Log, lit "  Skipping small file: s.pdf (5000 B)");
      (Log, lit "  " ++ WARNING_SIGN
            ++ lit " No valid PDFs found (all files < 20480 B)" ++ NL)]).
Proof.
  rewrite (proj2 (@mergePDFs_empty_is_noop sample_platform (lit "/w/x.pdf")
                    sample_fs)
             (lit "/w") (lit "/w/output") 5%nat 4%nat (lit "tmp") 2).
  - reflexivity.
  - reflexivity.
Defined.

(** * Further properties *)

(** ** What the tree scan finds *)

(** Induction on a tree, with the property known for every entry of a
    listing. *)
Lemma node_nested_ind (P : node -> Prop) :
  (forall sz d, P (File sz d)) ->
  P Special ->
  (forall m, P (Dir (Throw m))) ->
  (forall items, Forall (fun it => P (snd it)) items -> P (Dir (Ok items))) ->
  forall n, P n.
Proof.
  intros HF HS HT HD. fix IH 1. intros [sz d|[items|m]|].
  - apply HF.
  - apply HD. revert items. fix IHl 1. intros [|[item_name child] rest].
    + constructor.
    + constructor; [apply IH|apply IHl].
  - apply HT.
  - apply HS.
Qed.

(** The pushes and the console events of [scan] on a directory that could
    be listed: its own path when it holds a PDF, then those of its
    subdirectories in listing order. *)
Lemma scan_listed items currentPath relativePath :
  scan (Dir (Ok items)) currentPath relativePath =
  ((if existsb is_pdf_item items then [relativePath] else [])
   ++ flat_map
        (fun it : jsstring * node =>
           match snd it with
           | Dir _ => fst (scan (snd it) (path_join currentPath (fst it))
                                (sub_relative relativePath (fst it)))
           | _ => []
           end) items,
   flat_map
     (fun it : jsstring * node =>
        match snd it with
        | Dir _ => snd (scan (snd it) (path_join currentPath (fst it))
                             (sub_relative relativePath (fst it)))
        | _ => []
        end) items).
Proof.
  change (scan (Dir (Ok items)) currentPath relativePath) with
    (let below :=
       (fix each (its : list (jsstring * node)) : list jsstring * list event :=
          match its with
          | [] => ([], [])
          | (item_name, child) :: rest =>
              match child with
              | Dir _ =>
                  let sub :=
                    scan child (path_join currentPath item_name)
                         (if str_eqb relativePath (lit ".") then item_name
                          else path_join relativePath item_name) in
                  let others := each rest in
                  (fst sub ++ fst others, snd sub ++ snd others)
              | _ => each rest
              end
          end) items in
     ((if existsb is_pdf_item items then [relativePath] else []) ++ fst below,
      snd below)).
  cbv zeta.
  match goal with
  | |- (_ ++ fst ?b, snd ?b) = (_ ++ ?f, ?s) =>
      assert (E : b = (f, s)); [|rewrite E; reflexivity]
  end.
  induction items as [|[item_name child] rest IH]; [reflexivity|].
  cbn [flat_map fst snd]. destruct child as [sz d|entries|].
  - exact IH.
  - rewrite IH. reflexivity.
  - exact IH.
Qed.

Lemma holds_pdf_iff items : existsb is_pdf_item items = true <-> holds_pdf items.
Proof.
  rewrite existsb_exists. unfold holds_pdf. split.
  - intros ([file_name n] & Hin & H).
    unfold is_pdf_item, is_pdf_entry, isFile, dirent_of in H. simpl in H.
    destruct n as [sz d| |]; simpl in H; try discriminate.
    exists file_name, sz, d. auto.
  - intros (file_name & sz & d & Hin & H).
    exists (file_name, File sz d). split; [exact Hin|].
    unfold is_pdf_item, is_pdf_entry, isFile, dirent_of. simpl. exact H.
Qed.

Lemma scan_pushed_sound :
  forall n currentPath relativePath p,
    In p (fst (scan n currentPath relativePath)) ->
    exists names items,
      reaches n names (Dir (Ok items)) /\ holds_pdf items
      /\ p = fold_left sub_relative names relativePath.
Proof.
  intros n. induction n as [sz d| |m|items IH] using node_nested_ind;
    intros currentPath relativePath p H; try contradiction.
  rewrite scan_listed in H. cbn [fst] in H.
  apply in_app_or in H. destruct H as [H|H].
  - destruct (existsb is_pdf_item items) eqn:E; [|contradiction].
    destruct H as [<-|[]].
    exists [], items. repeat split; [constructor|apply holds_pdf_iff; exact E].
  - apply in_flat_map in H. destruct H as ([item_name child] & Hin & H).
    rewrite Forall_forall in IH. specialize (IH _ Hin). cbn [fst snd] in *.
    destruct child as [sz d|entries|]; try contradiction.
    destruct (IH _ _ _ H) as (names & items' & Hr & Hp & ->).
    exists (item_name :: names), items'. repeat split; try assumption.
    apply (reaches_down items item_name (Dir entries)); auto.
Qed.

Lemma scan_pushed_complete n names m :
  reaches n names m ->
  forall items currentPath relativePath,
    m = Dir (Ok items) -> holds_pdf items ->
    In (fold_left sub_relative names relativePath)
       (fst (scan n currentPath relativePath)).
Proof.
  induction 1 as [n|items0 item_name child names m Hin Hk _ IH];
    intros items currentPath relativePath -> Hp.
  - rewrite scan_listed. cbn [fst fold_left]. apply in_or_app. left.
    apply holds_pdf_iff in Hp. rewrite Hp. left. reflexivity.
  - rewrite scan_listed. cbn [fst fold_left]. apply in_or_app. right.
    apply in_flat_map. exists (item_name, child). split; [exact Hin|].
    cbn [fst snd]. destruct child as [sz d|entries|]; try discriminate Hk.
    apply (IH items); auto.
Qed.

(** X1.  The scan returns a path exactly for the directories that it can
    reach from the base through listings that could be read and that
    themselves hold a regular file named [*.pdf]; the path is made of the
    names on the way, ["."] for the base.  A directory is not returned for
    what its subdirectories hold, and nothing is returned from below a
    directory whose listing fails. *)
Theorem scanFolders_finds :
  forall basePath fs p,
    In p (scanned basePath fs)
    <-> exists names items,
          reaches (scan_root basePath fs) names (Dir (Ok items))
          /\ holds_pdf items
          /\ p = fold_left sub_relative names (lit ".").
Proof.
  intros basePath fs p. unfold scanned, scanFolders, result_of. cbn [fst].
  fold (scan_root basePath fs). unfold sort_default. split.
  - intros H.
    apply (Permutation_in _ (Permutation_sym (sort_by_perm _ _ _))) in H.
    apply scan_pushed_sound in H. exact H.
  - intros (names & items & Hr & Hp & ->).
    apply (Permutation_in _ (sort_by_perm _ _ _)).
    apply (scan_pushed_complete _ _ _ Hr items); auto.
Qed.

(** ** More on the eligibility filter *)

Lemma StronglySorted_weaken {A} (R R' : A -> A -> Prop) l :
  (forall a b, R a b -> R' a b) -> StronglySorted R l -> StronglySorted R' l.
Proof.
  intros Himp. induction 1 as [|x r _ IH Hall]; constructor.
  - exact IH.
  - eapply Forall_impl; [|exact Hall]. intros y. apply Himp.
Qed.

Section EligibilityMore.

Context {platform : Platform}.

Lemma eligible_record_in m fp fs item f :
  In f (eligible_record m fp fs item)
  <-> isFile item = true
      /\ endsWith (toLowerCase (d_name item)) (lit ".pdf") = true
      /\ result_of (fs_stat (path_join fp (d_name item)) fs) = Ok (size f)
      /\ m <= size f
      /\ name f = d_name item
      /\ path f = path_join fp (d_name item).
Proof.
  unfold eligible_record, is_pdf_entry. split.
  - intros H. destruct (isFile item); [|contradiction].
    destruct (endsWith _ _); [|contradiction]. cbn [andb] in H.
    destruct (result_of (fs_stat (path_join fp (d_name item)) fs)) as [s|];
      [|contradiction].
    destruct (N.leb_spec m s) as [L|L]; [|contradiction].
    destruct H as [<-|[]]. cbn [name path size]. repeat split; auto.
  - intros (-> & -> & Hs & L & Hn & Hp). cbn [andb]. rewrite Hs.
    apply N.leb_le in L. rewrite L. left.
    destruct f as [n p s]. cbn [name path size] in *. subst. reflexivity.
Qed.

(** X2.  What the filter keeps of a listing: a record is in the result
    exactly when it is the record of an entry that is a regular file, whose
    name ends in [.pdf] in any case, for which [fs.stat] succeeds with a size
    of at least the threshold.  A directory named [x.pdf], a file with
    another extension and a file whose [stat] throws are left out, and none
    of them keeps the other entries from being taken. *)
Theorem getValidPDFs_members :
  forall minFileSize folderPath fs items,
    result_of (fs_readdir folderPath fs) = Ok items ->
    exists validPDFs,
      result_of (getValidPDFs_with minFileSize folderPath fs) = Ok validPDFs
      /\ forall f,
          In f validPDFs
          <-> exists item,
                In item items
                /\ isFile item = true
                /\ endsWith (toLowerCase (d_name item)) (lit ".pdf") = true
                /\ result_of (fs_stat (path_join folderPath (d_name item)) fs)
                   = Ok (size f)
                /\ minFileSize <= size f
                /\ name f = d_name item
                /\ path f = path_join folderPath (d_name item).
Proof.
  intros m fp fs items Hdir.
  destruct (getValidPDFs_with_result m fp fs) as [Hres _].
  rewrite Hdir in Hres. eexists. split; [exact Hres|]. intros f. split.
  - intros H.
    apply (Permutation_in _ (Permutation_sym (sort_by_perm _ _ _))) in H.
    apply in_flat_map in H. destruct H as (item & Hin & H).
    exists item. split; [exact Hin|]. apply eligible_record_in in H. exact H.
  - intros (item & Hin & H).
    apply (Permutation_in _ (sort_by_perm _ _ _)).
    apply in_flat_map. exists item. split; [exact Hin|].
    apply eligible_record_in. exact H.
Qed.

(** X3.  When [localeCompare] orders names (any two names compare one way
    or the other, and the comparison is transitive), the eligible set comes
    back sorted by name, and it holds the eligible records of the listing,
    each as often as the listing gives it. *)
Theorem getValidPDFs_sorted :
  forall minFileSize folderPath fs,
    (forall a b, (localeCompare a b <= 0)%Z \/ (localeCompare b a <= 0)%Z) ->
    (forall a b c, (localeCompare a b <= 0)%Z -> (localeCompare b c <= 0)%Z ->
                   (localeCompare a c <= 0)%Z) ->
    exists validPDFs,
      result_of (getValidPDFs_with minFileSize folderPath fs) = Ok validPDFs
      /\ StronglySorted
           (fun a b => (localeCompare (name a) (name b) <= 0)%Z) validPDFs
      /\ Permutation
           (match result_of (fs_readdir folderPath fs) with
            | Ok items =>
                flat_map (eligible_record minFileSize folderPath fs) items
            | Throw _ => []
            end)
           validPDFs.
Proof.
  intros m fp fs Htotal Htrans.
  destruct (getValidPDFs_with_result m fp fs) as [Hres _].
  eexists. split; [exact Hres|].
  destruct (result_of (fs_readdir fp fs)) as [items|msg].
  - split; [|apply sort_by_perm].
    assert (Hs : StronglySorted (fun a b => by_name a b = true)
                   (sort_by by_name
                      (flat_map (eligible_record m fp fs) items))).
    { apply sort_by_sorted.
      - intros a b. unfold by_name. rewrite !Z.leb_le. apply Htotal.
      - intros a b c. unfold by_name. rewrite !Z.leb_le. apply Htrans. }
    eapply StronglySorted_weaken; [|exact Hs].
    intros a b Hab. unfold by_name in Hab. apply Z.leb_le in Hab. exact Hab.
  - split; constructor.
Qed.

(** X4.  The filter is contained: it never throws and never changes the
    file system.  When the folder cannot be listed it gives the empty set
    and one [console.error] line that names the folder and the error. *)
Theorem getValidPDFs_contained :
  forall minFileSize folderPath fs,
    fs_of (getValidPDFs_with minFileSize folderPath fs) = fs
    /\ (exists validPDFs,
           result_of (getValidPDFs_with minFileSize folderPath fs)
           = Ok validPDFs)
    /\ (forall message,
           result_of (fs_readdir folderPath fs) = Throw message ->
           getValidPDFs_with minFileSize folderPath fs
           = (Ok [], fs,
              [(Error, lit "Error reading folder " ++ folderPath ++ lit ": "
                       ++ message)])).
Proof.
  intros m fp fs.
  destruct (getValidPDFs_with_result m fp fs) as [Hres Hfs].
  split; [exact Hfs|]. split; [eexists; exact Hres|].
  intros message H. pose proof (readonly_readdir fp fs) as Hr.
  unfold getValidPDFs_with, try_catch, bind, console, ret,
    result_of, fs_of in *.
  destruct (fs_readdir fp fs) as [[r fs1] e1] eqn:E.
  cbn [fst snd] in H, Hr. subst r fs1.
  assert (Ee : e1 = []).
  { unfold fs_readdir in E.
    destruct (lookup fs (segments fp)) as [[|[|]|]|]; injection E as _ <-;
      reflexivity. }
  subst e1. reflexivity.
Qed.

End EligibilityMore.

(** ** More on merging *)

Section MergingMore.

Context {platform : Platform}.

(** X5.  One eligible file is copied, not merged: the PDF library is not
    called, so a file that would not load is copied all the same.  When the
    copy succeeds the merge reports success and the output path then reads
    as the very bytes of the source.  When it throws the merge reports
    failure with one [console.error] line.  The file system is then as
    before if the source could not be read or the output could not be
    opened; if the copy failed later, what the output path held before is
    gone: the path is left without a file, or with the bytes copied so far
    where the removal did not work.  Nothing else has changed. *)
Theorem mergePDFs_single_copies :
  forall only outputPath fs,
    let run := mergePDFs [only] outputPath fs in
    let failed message :=
      [(Error, lit "  Error copying single PDF: " ++ message)] in
    match result_of (fs_readFile (path only) fs) with
    | Ok sourceBytes =>
        match put (segments outputPath) (new_file sourceBytes) fs with
        | Ok fs' =>
            match copyFile_fault fs (path only) outputPath with
            | None =>
                run = (Ok true, fs',
                       [(Log, lit "  Copied single PDF: " ++ name only)])
                /\ result_of (fs_readFile outputPath fs') = Ok sourceBytes
                /\ result_of (fs_stat outputPath fs')
                   = Ok (N.of_nat (length sourceBytes))
            | Some (message, NotOpened) => run = (Ok false, fs, failed message)
            | Some (message, Opened written) =>
                result_of run = Ok false
                /\ events_of run = failed message
                /\ lookup (fs_of run) (segments outputPath)
                   = (if copyFile_removes fs outputPath then None
                      else Some (new_file (firstn written sourceBytes)))
                /\ same_elsewhere (segments outputPath) fs (fs_of run)
            end
        | Throw message => run = (Ok false, fs, failed message)
        end
    | Throw message => run = (Ok false, fs, failed message)
    end.
Proof.
  intros only outputPath fs run failed. unfold run, failed.
  rewrite mergePDFs_one_run, copyFile_steps.
  destruct (result_of (fs_readFile (path only) fs)) as [b|m]; [|reflexivity].
  destruct (put (segments outputPath) (new_file b) fs) as [fs'|m] eqn:E;
    [|reflexivity].
  destruct (copyFile_fault fs (path only) outputPath)
    as [[message [|written]]|]; cbn [result_of fs_of events_of fst snd].
  - reflexivity.
  - split; [reflexivity|]. split; [reflexivity|].
    destruct (copyFile_removes fs outputPath).
    + split; [apply (lookup_unlink _ _ _ _ E)|].
      apply touched_elsewhere. apply (touched_removed _ _ _ _ E).
    + split; [apply (lookup_with_file _ _ _ _ _ E)|].
      apply touched_elsewhere. apply (touched_with_file _ _ _ _ _ E).
  - split; [reflexivity|].
    unfold fs_readFile, fs_stat. rewrite (lookup_put _ _ _ _ E).
    split; reflexivity.
Qed.

(** X6.  Two or more eligible files: the document that is saved holds the
    pages of the inputs in the order of the set, an input whose import
    throws bringing none and stopping nothing.  The merge reports success
    exactly when saving that document and writing its bytes succeed, and the
    output path then reads as the saved bytes.  Otherwise it reports
    failure; the file system is then as before if [save] threw or the output
    could not be opened, and if the write failed later the output path holds
    the bytes written so far in place of what it held, nothing else having
    changed. *)
Theorem mergePDFs_many_pages :
  forall pdfFiles outputPath fs,
    (2 <= length pdfFiles)%nat ->
    let run := mergePDFs pdfFiles outputPath fs in
    match PDFDocument_save (flat_map (imported_pages fs) pdfFiles) with
    | Ok saved =>
        match put (segments outputPath) (new_file (snd saved)) fs with
        | Ok fs' =>
            match writeFile_fault fs outputPath (snd saved) with
            | None =>
                result_of run = Ok true
                /\ fs_of run = fs'
                /\ result_of (fs_readFile outputPath fs') = Ok (snd saved)
            | Some (_, NotOpened) => result_of run = Ok false /\ fs_of run = fs
            | Some (_, Opened written) =>
                result_of run = Ok false
                /\ lookup (fs_of run) (segments outputPath)
                   = Some (new_file (firstn written (snd saved)))
                /\ same_elsewhere (segments outputPath) fs (fs_of run)
            end
        | Throw _ => result_of run = Ok false /\ fs_of run = fs
        end
    | Throw _ => result_of run = Ok false /\ fs_of run = fs
    end.
Proof.
  intros files outputPath fs Hlen run. unfold run.
  destruct files as [|f1 [|f2 rest]]; simpl in Hlen; try lia.
  rewrite mergePDFs_many_run. cbv zeta.
  destruct (PDFDocument_save _) as [saved|m]; [|split; reflexivity].
  unfold fs_writeFile.
  destruct (put (segments outputPath) (new_file (snd saved)) fs)
    as [fs'|m] eqn:E; [|split; reflexivity].
  destruct (writeFile_fault fs outputPath (snd saved))
    as [[message [|written]]|]; cbn [result_of fs_of events_of fst snd].
  - split; reflexivity.
  - split; [reflexivity|].
    split; [apply (lookup_with_file _ _ _ _ _ E)|].
    apply touched_elsewhere. apply (touched_with_file _ _ _ _ _ E).
  - split; [reflexivity|]. split; [reflexivity|].
    unfold fs_readFile. rewrite (lookup_put _ _ _ _ E). reflexivity.
Qed.

(** What is found at a position that a write may have changed. *)
Lemma touched_at segs fs fs' :
  touched segs fs fs' ->
  lookup fs' segs = lookup fs segs
  \/ lookup fs' segs = None
  \/ exists b, lookup fs' segs = Some (new_file b).
Proof.
  intros [|b n H|b n H].
  - left. reflexivity.
  - right. right. exists b. apply (lookup_put _ _ _ _ H).
  - right. left. apply (lookup_unlink _ _ _ _ H).
Qed.

(** X7.  A merge touches the tree at the output path only.  The output
    path is taken to hold no [..], so that it leads to the position made of
    its components.  Whatever the merge returns, every position other than
    that one and those of the directories above it holds what it held, and
    every directory that could be listed still can.  At the output path
    there is afterwards what was there before, or nothing, or a regular
    file, and a regular file when the merge reports success.  So a path
    without [..] that leads elsewhere reads and stats as before: the inputs
    are left as they were unless the output path is one of them. *)
Theorem mergePDFs_writes_only_output :
  forall pdfFiles outputPath fs,
    no_dotdot outputPath ->
    let after := fs_of (mergePDFs pdfFiles outputPath fs) in
    same_elsewhere (segments outputPath) fs after
    /\ (forall p items,
           lookup fs p = Some (Dir (Ok items)) ->
           exists items', lookup after p = Some (Dir (Ok items')))
    /\ (lookup after (segments outputPath) = lookup fs (segments outputPath)
        \/ lookup after (segments outputPath) = None
        \/ exists b, lookup after (segments outputPath) = Some (new_file b))
    /\ (result_of (mergePDFs pdfFiles outputPath fs) = Ok true ->
        exists b, lookup after (segments outputPath) = Some (new_file b))
    /\ (forall otherPath,
           no_dotdot otherPath ->
           (forall below, segments outputPath <> segments otherPath ++ below) ->
           fs_readFile otherPath after
           = (result_of (fs_readFile otherPath fs), after, [])
           /\ fs_stat otherPath after
              = (result_of (fs_stat otherPath fs), after, [])).
Proof.
  intros files outputPath fs _ after.
  destruct (mergePDFs_touched files outputPath fs) as [Ht Hok].
  fold after in Ht, Hok.
  pose proof (touched_elsewhere _ _ _ Ht) as Hframe.
  split; [exact Hframe|]. split; [|split; [|split]].
  - intros p items Hl. apply (touched_keeps_listed _ _ _ _ _ Ht Hl).
  - apply touched_at. exact Ht.
  - intros Hres. destruct (Hok Hres) as (b & E). exists b.
    apply (lookup_put _ _ _ _ E).
  - intros otherPath _ Hp. unfold fs_readFile, fs_stat, result_of.
    rewrite (Hframe _ Hp).
    destruct (lookup fs (segments otherPath)) as [[| |]|]; split; reflexivity.
Qed.

End MergingMore.

(** ** The whole run *)

Section RunMore.

Context {platform : Platform}.

Lemma fs_console {A} l msg (k : unit -> M A) fs :
  fs_of (bind (console l msg) k fs) = fs_of (k tt fs).
Proof.
  unfold bind, console, fs_of. destruct (k tt fs) as [[r fs2] e2]. reflexivity.
Qed.

(** One turn of the loop touches the tree at the turn's output path only;
    the count of successes stays, or it grows by one and the output path
    holds the file that was written. *)
Lemma process_folder_step sourceDir outputDir total i folderPath successCount fs :
  let turn :=
    process_folder sourceDir outputDir total i folderPath successCount fs in
  let outputPath :=
    path_join outputDir (generateFileName folderPath (N.of_nat i + 1)) in
  touched (segments outputPath) fs (fs_of turn)
  /\ (result_of turn = Ok successCount
      \/ (result_of turn = Ok (successCount + 1)
          /\ exists b,
              put (segments outputPath) (new_file b) fs = Ok (fs_of turn))).
Proof.
  unfold process_folder.
  set (fullFolderPath := if str_eqb folderPath (lit ".") then sourceDir
                         else path_join sourceDir folderPath).
  set (outputPath := path_join outputDir _).
  cbv zeta. rewrite !result_console, !fs_console. cbv beta.
  rewrite result_bind, fs_bind.
  destruct (nothrow_getValidPDFs fullFolderPath fs) as (pdfFiles & ->).
  rewrite (readonly_getValidPDFs fullFolderPath fs).
  destruct (0 <? length pdfFiles)%nat.
  - rewrite result_bind, fs_bind.
    destruct (mergePDFs_touched pdfFiles outputPath fs) as [Ht Hok].
    destruct (nothrow_mergePDFs pdfFiles outputPath fs) as ([|] & Hr);
      rewrite Hr.
    + destruct (Hok Hr) as (b & Hp).
      rewrite result_bind, fs_bind, (stat_after_put _ _ _ _ Hp).
      cbn [result_of fs_of fst snd].
      rewrite result_console, fs_console.
      split; [exact Ht|]. right. split; [reflexivity|].
      exists b. exact Hp.
    + rewrite result_console, fs_console.
      split; [exact Ht|]. left. reflexivity.
  - rewrite result_console, fs_console. split; [constructor|].
    left. reflexivity.
Qed.

Lemma process_folder_keeps_listed sourceDir outputDir total i folderPath
    successCount fs p items :
  lookup fs p = Some (Dir (Ok items)) ->
  exists items',
    lookup (fs_of (process_folder sourceDir outputDir total i folderPath
                                  successCount fs)) p
    = Some (Dir (Ok items')).
Proof.
  intros Hl.
  destruct (process_folder_step sourceDir outputDir total i folderPath
              successCount fs) as [Ht _].
  apply (touched_keeps_listed _ _ _ _ _ Ht Hl).
Qed.

Lemma process_from_keeps_listed sourceDir outputDir total folders p :
  forall i processedCount successCount fs items,
    lookup fs p = Some (Dir (Ok items)) ->
    exists items',
      lookup (fs_of (process_from sourceDir outputDir total i folders
                                  processedCount successCount fs)) p
      = Some (Dir (Ok items')).
Proof.
  induction folders as [|folderPath rest IH]; intros i pc sc fs items Hl; simpl.
  - eauto.
  - rewrite fs_bind.
    destruct (process_folder_turn sourceDir outputDir total i folderPath sc fs)
      as (_ & sc' & ->).
    destruct (process_folder_keeps_listed sourceDir outputDir total i
                folderPath sc fs p items Hl) as (items1 & Hl1).
    apply (IH _ _ _ _ items1 Hl1).
Qed.

(** X13.  The counts of the loop: every scanned folder is counted as
    processed, whatever becomes of it, and each turn leaves the count of
    successes or adds one to it, so there are never more successes than
    folders. *)
Theorem process_from_counts :
  forall sourceDir outputDir total folders i processedCount successCount fs,
  exists successCount',
    result_of (process_from sourceDir outputDir total i folders
                            processedCount successCount fs)
    = Ok (processedCount + N.of_nat (length folders), successCount')
    /\ successCount <= successCount'
    /\ successCount' <= successCount + N.of_nat (length folders).
Proof.
  intros sourceDir outputDir total folders.
  induction folders as [|folderPath rest IH]; intros i pc sc fs; simpl.
  - exists sc. unfold ret, result_of. cbn [fst]. rewrite N.add_0_r.
    repeat split; lia.
  - rewrite result_bind.
    destruct (process_folder_step sourceDir outputDir total i folderPath sc fs)
      as (_ & [Hr|[Hr _]]); rewrite Hr.
    + destruct (IH (S i) (pc + 1) sc
                  (fs_of (process_folder sourceDir outputDir total i folderPath
                                         sc fs))) as (sc' & -> & H1 & H2).
      exists sc'. split; [f_equal; f_equal; lia|]. lia.
    + destruct (IH (S i) (pc + 1) (sc + 1)
                  (fs_of (process_folder sourceDir outputDir total i folderPath
                                         sc fs))) as (sc' & -> & H1 & H2).
      exists sc'. split; [f_equal; f_equal; lia|]. lia.
Qed.

Lemma nothrow_log_each files : never_throws (log_each files).
Proof.
  induction files as [|file rest IH]; simpl.
  - apply nothrow_ret.
  - apply nothrow_bind; [apply nothrow_console|intros _; exact IH].
Qed.

Lemma bind_ok_inv {A B} (c : M A) (k : A -> M B) fs b :
  result_of (bind c k fs) = Ok b ->
  exists a fs1, result_of (k a fs1) = Ok b.
Proof.
  rewrite result_bind. destruct (result_of (c fs)) as [a|m]; [|discriminate].
  eauto.
Qed.

(** X8.  The exit code of a run.  [main] never throws and ends with 0 or
    1.  When the output directory cannot be made, it ends with 1 at once:
    nothing is scanned or written, and the console shows the four opening
    lines and the fatal error.  When the output directory has been made and
    can be listed, it ends with 0, whatever happened to single folders and
    files on the way. *)
Theorem main_exit_code :
  forall sourceDir fs,
    (result_of (main sourceDir fs) = Ok 0
     \/ result_of (main sourceDir fs) = Ok 1)
    /\ (forall message,
           mkdirp (segments (path_join sourceDir OUTPUT_DIR)) fs
           = Throw message ->
           main sourceDir fs
           = (Ok 1, fs,
              main_header sourceDir
              ++ [(Error, lit "Fatal error: " ++ message)]))
    /\ (forall fs1 items,
           mkdirp (segments (path_join sourceDir OUTPUT_DIR)) fs = Ok fs1 ->
           lookup fs1 (segments (path_join sourceDir OUTPUT_DIR))
           = Some (Dir (Ok items)) ->
           result_of (main sourceDir fs) = Ok 0).
Proof.
  intros sourceDir fs. split; [|split].
  - unfold main. rewrite !result_console. cbv beta. rewrite result_try.
    match goal with
    | |- context [result_of (?body fs)] =>
        destruct (result_of (body fs)) as [code|m] eqn:E
    end.
    + left.
      repeat (apply bind_ok_inv in E; destruct E as (? & ? & E)).
      unfold ret, result_of in E. cbn [fst] in E. symmetry. exact E.
    + right. reflexivity.
  - intros message Hmk. unfold main, main_header.
    unfold bind, console, try_catch, fs_mkdir_recursive, ret. rewrite Hmk.
    reflexivity.
  - intros fs1 items Hmk Hl. unfold main.
    rewrite !result_console. cbv beta. rewrite result_try.
    match goal with
    | |- match result_of (?body fs) with _ => _ end = _ =>
        assert (Hb : result_of (body fs) = Ok 0); [|rewrite Hb; reflexivity]
    end.
    rewrite result_bind.
    unfold fs_mkdir_recursive at 1 2. rewrite Hmk.
    cbn [result_of fs_of fst snd].
    rewrite result_console. cbv beta. rewrite result_bind.
    change (result_of (scanFolders sourceDir fs1))
      with (@Ok (list jsstring) (scanned sourceDir fs1)).
    change (fs_of (scanFolders sourceDir fs1)) with fs1.
    cbv beta iota.
    rewrite result_console. cbv beta. rewrite result_bind.
    destruct (process_from_names sourceDir (path_join sourceDir OUTPUT_DIR)
                (length (scanned sourceDir fs1)) (scanned sourceDir fs1)
                0 0 0 fs1) as (_ & sc & ->).
    destruct (process_from_keeps_listed sourceDir
                (path_join sourceDir OUTPUT_DIR)
                (length (scanned sourceDir fs1)) (scanned sourceDir fs1)
                (segments (path_join sourceDir OUTPUT_DIR))
                0 0 0 fs1 items Hl) as (items' & Hl').
    set (fs2 := fs_of (process_from _ _ _ _ _ _ _ _)) in *.
    rewrite !result_console. cbv beta. rewrite result_bind.
    assert (Hrd : fs_readdir (path_join sourceDir OUTPUT_DIR) fs2
                  = (Ok (List.map dirent_of items'), fs2, [])).
    { unfold fs_readdir. rewrite Hl'. reflexivity. }
    rewrite Hrd. cbn [result_of fs_of fst snd]. rewrite result_bind.
    match goal with
    | |- context [result_of (?c fs2)] =>
        assert (Hc : exists u, result_of (c fs2) = Ok u)
    end.
    { destruct (0 <? length (List.map dirent_of items'))%nat.
      - apply nothrow_bind; [apply nothrow_console|intros _].
        apply nothrow_log_each.
      - apply nothrow_ret. }
    destruct Hc as (u & ->). reflexivity.
Qed.

End RunMore.

(** ** More on names *)

Lemma decided_lt_app u v x y :
  decided_lt u v = true -> str_compare (u ++ x) (v ++ y) = Lt.
Proof.
  revert v. induction u as [|a u IH]; intros [|b v] H; simpl in *;
    try discriminate.
  destruct (N.compare_spec a b) as [->|L|G].
  - rewrite N.ltb_irrefl, N.eqb_refl in H. simpl in H. apply IH. exact H.
  - reflexivity.
  - exfalso. apply orb_true_iff in H. destruct H as [H|H].
    + apply N.ltb_lt in H. lia.
    + apply andb_true_iff in H. destruct H as [H _].
      apply N.eqb_eq in H. lia.
Qed.

Lemma index_range_in first count i :
  N.of_nat first <= i -> i < N.of_nat (first + count) ->
  In i (index_range first count).
Proof.
  intros H1 H2. unfold index_range. apply in_map_iff.
  exists (N.to_nat i). split; [apply N2Nat.id|]. apply in_seq. lia.
Qed.

Lemma padded_order_to_99 :
  forallb (fun i =>
             forallb (fun j => negb (i <? j)
                               || decided_lt (paddedIndex i) (paddedIndex j))
                     (index_range 0 100))
          (index_range 0 100) = true.
Proof. vm_compute. reflexivity. Qed.

Lemma padded_order_past_99 :
  forallb (fun i =>
             forallb (fun j => decided_lt (paddedIndex j) (paddedIndex i))
                     (index_range 100 100))
          (index_range 20 80) = true.
Proof. vm_compute. reflexivity. Qed.

Lemma generateFileName_lt p q i j :
  i < j -> j <= 99 ->
  str_compare (generateFileName p i) (generateFileName q j) = Lt.
Proof.
  intros Hij Hj.
  destruct (generateFileName_prefix p i) as (x & ->).
  destruct (generateFileName_prefix q j) as (y & ->).
  apply decided_lt_app.
  pose proof padded_order_to_99 as H. rewrite forallb_forall in H.
  specialize (H i (index_range_in 0 100 i ltac:(lia) ltac:(simpl; lia))).
  rewrite forallb_forall in H.
  specialize (H j (index_range_in 0 100 j ltac:(lia) ltac:(simpl; lia))).
  apply orb_true_iff in H. destruct H as [H|H]; [|exact H].
  apply negb_true_iff, N.ltb_ge in H. lia.
Qed.

Lemma names_from_in_bound folders :
  forall i x,
    In x (names_from i folders) ->
    exists folderPath k,
      (k < length folders)%nat
      /\ x = generateFileName folderPath (N.of_nat (i + k) + 1).
Proof.
  induction folders as [|f rest IH]; intros i x H; simpl in H.
  - contradiction.
  - destruct H as [<-|H].
    + exists f, 0%nat. rewrite Nat.add_0_r. simpl. split; [lia|reflexivity].
    + destruct (IH (S i) x H) as (g & k & Hk & ->).
      exists g, (S k). simpl. split; [lia|]. do 3 f_equal. lia.
Qed.

Lemma names_from_sorted folders :
  forall i,
    (i + length folders <= 99)%nat ->
    StronglySorted (fun a b => str_compare a b = Lt) (names_from i folders).
Proof.
  induction folders as [|f rest IH]; intros i Hlen; simpl in *; constructor.
  - apply IH. lia.
  - apply Forall_forall. intros x Hx.
    apply names_from_in_bound in Hx. destruct Hx as (g & k & Hk & ->).
    apply generateFileName_lt; lia.
Qed.

(** X9.  Names keep the order of the indices up to 99: of two names made
    with indices [i < j <= 99] the first is the smaller string, whatever the
    paths, so the names of a run over at most 99 folders are in ascending
    order as they are given.  The padding is two digits and no more: every
    name with an index from 100 to 199 is a smaller string than every name
    with an index from 20 to 99. *)
Theorem names_sort_by_index_up_to_99 :
  (forall p q i j,
      i < j -> j <= 99 ->
      str_compare (generateFileName p i) (generateFileName q j) = Lt)
  /\ (forall folders,
         (length folders <= 99)%nat ->
         StronglySorted (fun a b => str_compare a b = Lt)
                        (names_from 0 folders))
  /\ (forall p q i j,
         20 <= i -> i <= 99 -> 100 <= j -> j <= 199 ->
         str_compare (generateFileName q j) (generateFileName p i) = Lt).
Proof.
  split; [|split].
  - apply generateFileName_lt.
  - intros folders Hlen. apply names_from_sorted. simpl. exact Hlen.
  - intros p q i j Hi1 Hi2 Hj1 Hj2.
    destruct (generateFileName_prefix p i) as (x & ->).
    destruct (generateFileName_prefix q j) as (y & ->).
    apply decided_lt_app.
    pose proof padded_order_past_99 as H. rewrite forallb_forall in H.
    specialize (H i (index_range_in 20 80 i ltac:(simpl; lia) ltac:(simpl; lia))).
    rewrite forallb_forall in H.
    apply (H j (index_range_in 100 100 j ltac:(simpl; lia) ltac:(simpl; lia))).
Qed.

(** *** The alphabet of a sanitised name *)

Lemma made_of_weaken (ok ok' : N -> bool) s :
  (forall c, keptCodePoint c = true -> ok c = true -> ok' c = true) ->
  made_of ok s -> made_of ok' s.
Proof.
  intros Himp. induction 1 as [|c r K W _ IH|hi lo r Hh Hl K _ IH].
  - constructor.
  - apply made_unit; auto.
  - apply made_pair; auto.
Qed.

Lemma strip_hash_length s : (length (strip_hash s) <= length s)%nat.
Proof.
  induction s as [|c r IH]; [simpl; lia|].
  unfold strip_hash; fold strip_hash.
  destruct (hash_match_here (c :: r)); simpl; lia.
Qed.

Lemma remove_special_length s :
  (length (remove_special s) <= length s)%nat
  /\ forall c, (length (remove_special (c :: s)) <= S (length s))%nat.
Proof.
  induction s as [|a s [IH1 IH2]].
  - split; [simpl; lia|]. intros c. simpl.
    destruct (keptCodePoint c); simpl; lia.
  - split; [apply IH2|]. intros c.
    change (remove_special (c :: a :: s)) with
      (if isHighSurrogate c && isLowSurrogate a then
         if keptCodePoint (codePoint c a) then c :: a :: remove_special s
         else remove_special s
       else if keptCodePoint c then c :: remove_special (a :: s)
            else remove_special (a :: s)).
    specialize (IH2 a).
    destruct (isHighSurrogate c && isLowSurrogate a);
      [destruct (keptCodePoint (codePoint c a))|destruct (keptCodePoint c)];
      simpl length in *; lia.
Qed.

Lemma collapse_length s : forall b, (length (collapse_from b s) <= length s)%nat.
Proof.
  induction s as [|c r IH]; intros b; simpl; [lia|].
  pose proof (IH true). pose proof (IH false).
  destruct (isWhiteSpace c); [destruct b|]; simpl; lia.
Qed.

Lemma cleanFolderName_word_or_emoji x :
  made_of word_or_emoji (cleanFolderName x).
Proof.
  destruct (cleanFolderName_made x) as [M _].
  eapply made_of_weaken; [|exact M]. intros c K W.
  unfold keptCodePoint in K. unfold not_space in W. unfold word_or_emoji.
  destruct (isWhiteSpace c); [discriminate W|].
  rewrite orb_false_r in K. exact K.
Qed.

Lemma cleanFolderName_units x c :
  In c (cleanFolderName x) ->
  isWhiteSpace c = false /\ c <> 47 /\ c <> 46 /\ c <> 45.
Proof.
  pose proof (cleanFolderName_word_or_emoji x) as M. revert c.
  induction M as [|c r K W _ IH|hi lo r Hh Hl K _ IH]; intros d Hd.
  - contradiction.
  - destruct Hd as [<-|Hd]; [|apply IH; exact Hd].
    unfold word_or_emoji, isWordChar, isEmoji in W.
    unfold isWhiteSpace. repeat split; try (intros ->; discriminate W).
    split_bounds.
  - destruct Hd as [<-|[<-|Hd]]; [| |apply IH; exact Hd].
    + split; [apply high_not_space; exact Hh|].
      repeat split; intros ->; discriminate Hh.
    + split; [apply low_not_space; exact Hl|].
      repeat split; intros ->; discriminate Hl.
Qed.

(** X11.  A sanitised name is made of word characters ([A-Za-z0-9_]) and
    of emoji of the kept ranges only, those above U+FFFF as well-formed
    surrogate pairs.  It holds no whitespace, no ["/"], no ["."] and no
    ["-"], and it is never longer than the name it comes from. *)
Theorem cleanFolderName_alphabet :
  forall folderName,
    made_of word_or_emoji (cleanFolderName folderName)
    /\ (forall c, In c (cleanFolderName folderName) ->
                  isWhiteSpace c = false /\ c <> 47 /\ c <> 46 /\ c <> 45)
    /\ (length (cleanFolderName folderName) <= length folderName)%nat.
Proof.
  intros x. split; [apply cleanFolderName_word_or_emoji|]. split.
  - apply cleanFolderName_units.
  - rewrite (proj2 (cleanFolderName_made x)). unfold collapse_spaces.
    pose proof (collapse_length (remove_special (strip_hash x)) false).
    pose proof (proj1 (remove_special_length (strip_hash x))).
    pose proof (strip_hash_length x). lia.
Qed.

(** *** The output name as a path component *)

Lemma split_on_some sep a : split_on sep a <> [].
Proof.
  destruct a as [|c a]; simpl; [discriminate|].
  destruct (c =? sep); [discriminate|].
  destruct (split_on sep a); discriminate.
Qed.

Lemma split_on_app sep a b :
  split_on sep (a ++ sep :: b) = split_on sep a ++ split_on sep b.
Proof.
  induction a as [|c a IH]; simpl.
  - rewrite N.eqb_refl. reflexivity.
  - destruct (c =? sep); [rewrite IH; reflexivity|].
    rewrite IH. pose proof (split_on_some sep a) as Hne.
    destruct (split_on sep a) as [|h t]; [congruence|reflexivity].
Qed.

Lemma split_on_plain sep b : ~ In sep b -> split_on sep b = [b].
Proof.
  induction b as [|c b IH]; intros H; simpl; [reflexivity|].
  destruct (N.eqb_spec c sep) as [->|_].
  - exfalso. apply H. left. reflexivity.
  - rewrite IH; [reflexivity|]. intros Hin. apply H. right. exact Hin.
Qed.

Lemma uint_units_are_digits u c : In c (uint_units u) -> 48 <= c <= 57.
Proof.
  induction u; simpl; intros H; try contradiction;
    (destruct H as [<-|H]; [lia|apply IHu; exact H]).
Qed.

Lemma paddedIndex_digits i c : In c (paddedIndex i) -> 48 <= c <= 57.
Proof.
  destruct (paddedIndex_decimal i) as (u & -> & _). apply uint_units_are_digits.
Qed.

Lemma paddedIndex_length i : (2 <= length (paddedIndex i))%nat.
Proof.
  unfold paddedIndex, padStart. rewrite length_app, repeat_length. lia.
Qed.

Lemma cleaned_part_plain folderPath k c :
  (k < length (cleanedParts folderPath))%nat ->
  In c (at_index (cleanedParts folderPath) k) -> c <> 47 /\ c <> 46.
Proof.
  intros Hk Hc. unfold at_index in Hc.
  pose proof (nth_In (cleanedParts folderPath) undefined_str Hk) as Hin.
  unfold cleanedParts in Hin at 2. apply in_map_iff in Hin.
  destruct Hin as (part & E & _). rewrite <- E in Hc.
  destruct (cleanFolderName_units part c Hc) as (_ & H1 & H2 & _). auto.
Qed.

(** The name without its extension. *)
Lemma generateFileName_stem folderPath index :
  exists stem,
    generateFileName folderPath index = paddedIndex index ++ stem ++ lit ".pdf"
    /\ forall c, In c stem -> c <> 47 /\ c <> 46.
Proof.
  rewrite generateFileName_unfold.
  set (parts := cleanedParts folderPath).
  destruct (length parts =? 0)%nat eqn:E0.
  - exists (lit "-Root"). split; [reflexivity|].
    intros c Hc. split; intros ->; vm_compute in Hc; intuition discriminate.
  - apply Nat.eqb_neq in E0. destruct (length parts =? 1)%nat eqn:E1.
    + apply Nat.eqb_eq in E1.
      exists (lit "-" ++ at_index parts 0). split.
      * rewrite <- !app_assoc. reflexivity.
      * intros c Hc. change (In c (45 :: at_index parts 0)) in Hc.
        destruct Hc as [<-|Hc]; [split; discriminate|].
        apply (cleaned_part_plain folderPath 0 c); [fold parts; lia|exact Hc].
    + apply Nat.eqb_neq in E1.
      exists (lit "-" ++ at_index parts (length parts - 2) ++ lit "-"
                  ++ at_index parts (length parts - 1)).
      split.
      * rewrite <- !app_assoc. reflexivity.
      * intros c Hc.
        change (In c (45 :: at_index parts (length parts - 2)
                         ++ 45 :: at_index parts (length parts - 1))) in Hc.
        destruct Hc as [<-|Hc]; [split; discriminate|].
        apply in_app_or in Hc. destruct Hc as [Hc|[<-|Hc]].
        -- apply (cleaned_part_plain folderPath (length parts - 2) c);
             [fold parts; lia|exact Hc].
        -- split; discriminate.
        -- apply (cleaned_part_plain folderPath (length parts - 1) c);
             [fold parts; lia|exact Hc].
Qed.

(** X10.  Every output name is a plain file name: it begins with the
    digits of the index, ends in [.pdf], and holds no ["/"] and no ["."]
    before the extension, whatever the folder names hold.  So the output
    path has the components of the output directory and then the name: the
    artifact is made in the output directory itself, never below or outside
    it. *)
Theorem generateFileName_plain_name :
  forall folderPath index,
    ~ In 47 (generateFileName folderPath index)
    /\ (exists stem,
           generateFileName folderPath index = stem ++ lit ".pdf"
           /\ ~ In 46 stem /\ ~ In 47 stem /\ (2 <= length stem)%nat)
    /\ (forall outputDir,
           segments (path_join outputDir (generateFileName folderPath index))
           = segments outputDir ++ [generateFileName folderPath index]).
Proof.
  intros folderPath index.
  destruct (generateFileName_stem folderPath index) as (stem & E & Hstem).
  assert (Hfront : forall c, In c (paddedIndex index ++ stem) ->
                             c <> 47 /\ c <> 46).
  { intros c Hc. apply in_app_or in Hc. destruct Hc as [Hc|Hc].
    - apply paddedIndex_digits in Hc. lia.
    - apply Hstem. exact Hc. }
  assert (Hslash : ~ In 47 (generateFileName folderPath index)).
  { rewrite E, app_assoc. intros H. apply in_app_or in H.
    destruct H as [H|H].
    - apply Hfront in H. tauto.
    - vm_compute in H. intuition discriminate. }
  split; [exact Hslash|]. split.
  - exists (paddedIndex index ++ stem). rewrite <- app_assoc.
    split; [exact E|]. split; [|split].
    + intros H. apply Hfront in H. tauto.
    + intros H. apply Hfront in H. tauto.
    + rewrite length_app. pose proof (paddedIndex_length index). lia.
  - intros outputDir. unfold segments, path_join.
    change (lit "/" ++ generateFileName folderPath index)
      with (47 :: generateFileName folderPath index).
    rewrite split_on_app, filter_app, (split_on_plain _ _ Hslash).
    f_equal. cbn [filter].
    pose proof (paddedIndex_length index) as Hlen.
    destruct (paddedIndex index) as [|d1 [|d2 rest]] eqn:Ep;
      simpl in Hlen; try lia.
    assert (Hd : 48 <= d1 <= 57).
    { apply (paddedIndex_digits index). rewrite Ep. left. reflexivity. }
    rewrite E. change (lit ".") with [46]. cbn [app str_eqb negb andb].
    destruct (N.eqb_spec d1 46) as [->|_]; [lia|]. reflexivity.
Qed.

(** ** The scan and the order of the listings *)

Lemma sorted_perm_unique a :
  forall b,
    StronglySorted lex_le a -> StronglySorted lex_le b -> Permutation a b ->
    a = b.
Proof.
  induction a as [|x a IH]; intros b Ha Hb Hp.
  - apply Permutation_nil in Hp. auto.
  - destruct b as [|y b].
    + apply Permutation_sym, Permutation_nil in Hp. discriminate.
    + inversion Ha as [|? ? Ha' Hxa]; subst.
      inversion Hb as [|? ? Hb' Hyb]; subst.
      rewrite Forall_forall in Hxa, Hyb.
      assert (Exy : x = y).
      { apply lex_le_antisym.
        - assert (Hy : In y (x :: a)).
          { apply (Permutation_in _ (Permutation_sym Hp)). left. reflexivity. }
          destruct Hy as [->|Hy]; [|apply Hxa; exact Hy].
          destruct (lex_le_total y y); assumption.
        - assert (Hx : In x (y :: b)).
          { apply (Permutation_in _ Hp). left. reflexivity. }
          destruct Hx as [->|Hx]; [|apply Hyb; exact Hx].
          destruct (lex_le_total x x); assumption. }
      subst y. f_equal. apply IH; try assumption.
      apply Permutation_cons_inv in Hp. exact Hp.
Qed.

Lemma sort_default_canonical l1 l2 :
  Permutation l1 l2 -> sort_default l1 = sort_default l2.
Proof.
  intros Hp. apply sorted_perm_unique; try apply sort_default_sorted.
  unfold sort_default.
  eapply perm_trans; [apply Permutation_sym, sort_by_perm|].
  eapply perm_trans; [exact Hp|]. apply sort_by_perm.
Qed.

Lemma same_tree_kind a b : same_tree a b -> kind_of a = kind_of b.
Proof. destruct 1; reflexivity. Qed.

Lemma existsb_perm {A} (f : A -> bool) l l' :
  Permutation l l' -> existsb f l = existsb f l'.
Proof.
  induction 1 as [|x l l' _ IH|x y l|l l' l'' _ IH1 _ IH2]; simpl.
  - reflexivity.
  - rewrite IH. reflexivity.
  - destruct (f x), (f y); reflexivity.
  - congruence.
Qed.

Lemma has_pdf_same items1 items2 :
  Forall2 (fun a b : jsstring * node =>
             fst a = fst b /\ same_tree (snd a) (snd b)) items1 items2 ->
  existsb is_pdf_item items1 = existsb is_pdf_item items2.
Proof.
  induction 1 as [|[n1 c1] [n2 c2] r1 r2 [En Hs] _ IH]; simpl;
    [reflexivity|].
  cbn [fst snd] in *. subst n2. rewrite IH. f_equal.
  unfold is_pdf_item, is_pdf_entry, isFile, dirent_of. cbn [d_kind d_name fst snd].
  rewrite (same_tree_kind _ _ Hs). reflexivity.
Qed.

(** The pushes of the walk on two trees that differ in the order of their
    listings only are the same up to order. *)
Lemma scan_same_tree :
  forall n1 n2 currentPath1 currentPath2 relativePath,
    same_tree n1 n2 ->
    Permutation (fst (scan n1 currentPath1 relativePath))
                (fst (scan n2 currentPath2 relativePath)).
Proof.
  intros n1. induction n1 as [sz d| |m|items1 IH] using node_nested_ind;
    intros n2 cp1 cp2 r Hs; inversion Hs; subst; try apply Permutation_refl.
  rename items2 into items2, reordered into mid.
  rewrite !scan_listed. cbn [fst].
  match goal with
  | Hp : Permutation items2 mid, Hf : Forall2 _ items1 mid |- _ =>
      rewrite (existsb_perm _ _ _ Hp), <- (has_pdf_same _ _ Hf);
      apply Permutation_app_head;
      eapply perm_trans;
      [|apply Permutation_sym, Permutation_flat_map; exact Hp];
      clear Hp Hs; induction Hf as [|[a1 c1] [a2 c2] r1 r2 [En Hc] _ IHf]
  end.
  - apply Permutation_refl.
  - cbn [flat_map fst snd] in *. subst a2.
    inversion IH as [|? ? IHc IHr]; subst. cbn [snd] in IHc.
    apply Permutation_app; [|apply IHf; exact IHr].
    pose proof Hc as Hc'.
    destruct Hc'; try apply Permutation_refl; apply IHc; exact Hc.
Qed.

(** X12.  The scan does not depend on the order in which [readdir] lists
    the entries: on two trees that differ only in the order of their
    listings, at any depth, [scanFolders] returns the same list, so every
    folder gets the same index in both. *)
Theorem scanFolders_order_independent :
  forall basePath fs1 fs2,
    same_tree (scan_root basePath fs1) (scan_root basePath fs2) ->
    scanned basePath fs1 = scanned basePath fs2.
Proof.
  intros basePath fs1 fs2 Hs. unfold scanned, scanFolders, result_of.
  cbn [fst]. fold (scan_root basePath fs1) (scan_root basePath fs2).
  apply sort_default_canonical. apply scan_same_tree. exact Hs.
Qed.

(** ** Further runs on the sample world *)

Lemma getValidPDFs_members_witness :
  exists validPDFs,
    result_of (@getValidPDFs_with sample_platform 20480 (lit "/w/A") sample_fs)
    = Ok validPDFs
    /\ forall f,
        In f validPDFs
        <-> exists item,
              In item [{| d_name := lit "doc1.pdf"; d_kind := KFile |};
                       {| d_name := lit "stub.PDF"; d_kind := KFile |}]
              /\ isFile item = true
              /\ endsWith (toLowerCase (d_name item)) (lit ".pdf") = true
              /\ result_of (fs_stat (path_join (lit "/w/A") (d_name item))
                                    sample_fs)
                 = Ok (size f)
              /\ 20480 <= size f
              /\ name f = d_name item
              /\ path f = path_join (lit "/w/A") (d_name item).
Proof.
  exact (@getValidPDFs_members sample_platform 20480 (lit "/w/A") sample_fs
           [{| d_name := lit "doc1.pdf"; d_kind := KFile |};
            {| d_name := lit "stub.PDF"; d_kind := KFile |}]
           eq_refl).
Defined.

Lemma sample_compare_le a b :
  (@localeCompare sample_platform a b <= 0)%Z <-> str_leb a b = true.
Proof.
  unfold str_leb. cbn [localeCompare sample_platform].
  destruct (str_compare a b); split; intros H; try reflexivity;
    try discriminate; try lia.
Qed.

Lemma getValidPDFs_sorted_witness :
  exists validPDFs,
    result_of (@getValidPDFs_with sample_platform 20480 (lit "/w/B/C")
                                  sample_fs)
    = Ok validPDFs
    /\ StronglySorted
         (fun a b => (@localeCompare sample_platform (name a) (name b) <= 0)%Z)
         validPDFs.
Proof.
  destruct (@getValidPDFs_sorted sample_platform 20480 (lit "/w/B/C")
              sample_fs) as (validPDFs & E & S & _).
  - intros a b. rewrite !sample_compare_le. apply str_leb_total.
  - intros a b c. rewrite !sample_compare_le. apply str_leb_trans.
  - exists validPDFs. split; [exact E|exact S].
Defined.

Lemma mergePDFs_single_copies_witness :
  (let only := {| name := lit "doc1.pdf"; path := lit "/w/A/doc1.pdf";
                  size := 20480 |} in
   let run := @mergePDFs sample_platform [only] (lit "/w/copy.pdf") sample_fs in
   result_of run = Ok true
   /\ events_of run = [(Log, lit "  Copied single PDF: doc1.pdf")]
   /\ result_of (fs_readFile (lit "/w/copy.pdf") (fs_of run)) = Ok [Byte.x01])
  /\ (let only := {| name := lit "doc1.pdf"; path := lit "/w/A/doc1.pdf";
                     size := 20480 |} in
      let run := @mergePDFs (full_disk_platform true) [only] (lit "/w/z.pdf")
                            sample_fs in
      lookup sample_fs (segments (lit "/w/z.pdf"))
      = Some (sample_file 30000 [Byte.x05])
      /\ result_of run = Ok false
      /\ events_of run
         = [(Error, lit "  Error copying single PDF: " ++ ENOSPC)]
      /\ lookup (fs_of run) (segments (lit "/w/z.pdf")) = None).
Proof.
  split.
  - intros only run.
    pose proof (@mergePDFs_single_copies sample_platform only
                  (lit "/w/copy.pdf") sample_fs) as H.
    cbv zeta in H. vm_compute in H. destruct H as (H1 & H2 & _).
    split; [exact (f_equal (fun r => fst (fst r)) H1)|].
    split; [exact (f_equal snd H1)|].
    exact (eq_trans (f_equal (fun r => result_of (fs_readFile (lit "/w/copy.pdf")
                                                             (snd (fst r))))
                             H1) H2).
  - intros only run.
    pose proof (@mergePDFs_single_copies (full_disk_platform true) only
                  (lit "/w/z.pdf") sample_fs) as H.
    cbv zeta in H. vm_compute in H. destruct H as (H1 & H2 & H3 & _).
    split; [reflexivity|]. split; [exact H1|]. split; [exact H2|exact H3].
Defined.

Lemma mergePDFs_many_pages_witness :
  (let pdfFiles :=
     [{| name := lit "doc2.pdf"; path := lit "/w/B/C/doc2.pdf"; size := 50000 |};
      sample_x;
      {| name := lit "doc3.pdf"; path := lit "/w/B/C/doc3.pdf"; size := 50000 |}] in
   let run := @mergePDFs sample_platform pdfFiles (lit "/w/m.pdf") sample_fs in
   result_of run = Ok true
   /\ result_of (fs_readFile (lit "/w/m.pdf") (fs_of run))
      = Ok [Byte.x03; Byte.x04])
  /\ (let pdfFiles :=
        [{| name := lit "doc2.pdf"; path := lit "/w/B/C/doc2.pdf";
            size := 50000 |};
         {| name := lit "doc3.pdf"; path := lit "/w/B/C/doc3.pdf";
            size := 50000 |}] in
      let run := @mergePDFs (full_disk_platform true) pdfFiles (lit "/w/z.pdf")
                            sample_fs in
      lookup sample_fs (segments (lit "/w/z.pdf"))
      = Some (sample_file 30000 [Byte.x05])
      /\ result_of run = Ok false
      /\ lookup (fs_of run) (segments (lit "/w/z.pdf")) = Some (new_file [])).
Proof.
  split.
  - intros pdfFiles run.
    assert (Hlen : (2 <= length pdfFiles)%nat) by (simpl; lia).
    pose proof (@mergePDFs_many_pages sample_platform pdfFiles (lit "/w/m.pdf")
                  sample_fs Hlen) as H.
    cbv zeta in H. vm_compute in H. destruct H as (H1 & H2 & H3).
    split; [exact H1|].
    exact (eq_trans (f_equal (fun n => result_of (fs_readFile (lit "/w/m.pdf") n))
                             H2) H3).
  - intros pdfFiles run.
    assert (Hlen : (2 <= length pdfFiles)%nat) by (simpl; lia).
    pose proof (@mergePDFs_many_pages (full_disk_platform true) pdfFiles
                  (lit "/w/z.pdf") sample_fs Hlen) as H.
    cbv zeta in H. vm_compute in H. destruct H as (H1 & H2 & _).
    split; [reflexivity|]. split; [exact H1|exact H2].
Defined.

Lemma mergePDFs_writes_only_output_witness :
  let pdfFiles :=
    [{| name := lit "doc2.pdf"; path := lit "/w/B/C/doc2.pdf"; size := 50000 |};
     {| name := lit "doc3.pdf"; path := lit "/w/B/C/doc3.pdf"; size := 50000 |}] in
  let after :=
    fs_of (@mergePDFs (full_disk_platform false) pdfFiles (lit "/w/z.pdf")
                      sample_fs) in
  result_of (fs_readFile (lit "/w/B/C/doc2.pdf") after) = Ok [Byte.x03]
  /\ result_of (fs_stat (lit "/w/A/doc1.pdf") after) = Ok 20480
  /\ exists items, lookup after (segments (lit "/w")) = Some (Dir (Ok items)).
Proof.
  intros pdfFiles after.
  assert (Hout : no_dotdot (lit "/w/z.pdf")).
  { intros H. vm_compute in H. intuition discriminate. }
  pose proof (@mergePDFs_writes_only_output (full_disk_platform false) pdfFiles
                (lit "/w/z.pdf") sample_fs Hout) as (_ & Hdirs & _ & _ & Hother).
  fold after in Hdirs, Hother.
  split; [|split].
  - destruct (Hother (lit "/w/B/C/doc2.pdf")) as [Hr _].
    + intros H. vm_compute in H. intuition discriminate.
    + intros below H. vm_compute in H. discriminate H.
    + rewrite Hr. reflexivity.
  - destruct (Hother (lit "/w/A/doc1.pdf")) as [_ Hs].
    + intros H. vm_compute in H. intuition discriminate.
    + intros below H. vm_compute in H. discriminate H.
    + rewrite Hs. reflexivity.
  - apply (Hdirs (segments (lit "/w")) _ eq_refl).
Defined.

Lemma same_tree_refl : forall n, same_tree n n.
Proof.
  intros n. induction n as [sz d| |m|items IH] using node_nested_ind;
    try constructor.
  apply (same_listed items items items); [apply Permutation_refl|].
  induction IH as [|it r Hit _ IHr]; constructor; auto.
Qed.

Lemma scanFolders_order_independent_witness :
  scanned (lit "/w") sample_fs = scanned (lit "/w") sample_fs_reversed.
Proof.
  apply scanFolders_order_independent.
  match goal with
  | |- same_tree ?a ?b =>
      let a' := eval vm_compute in a in
      let b' := eval vm_compute in b in
      change (same_tree a' b')
  end.
  match goal with
  | |- same_tree (Dir (Ok ?items)) _ =>
      apply (same_listed items (rev items) items)
  end.
  - apply Permutation_sym, Permutation_rev.
  - repeat constructor; apply same_tree_refl.
Defined.

(** ** The analysis pass *)

Lemma own_stat_replace key v stats k :
  (exists x, own_stat k (replace_stat key v stats) = Some x)
  <-> (exists x, own_stat k stats = Some x).
Proof.
  induction stats as [|[k0 v0] rest IH]; simpl; [tauto|].
  destruct (str_eqb k0 key) eqn:E; simpl.
  - destruct (str_eqb k0 k); [split; eauto|tauto].
  - destruct (str_eqb k0 k); [split; eauto|exact IH].
Qed.

Lemma own_stat_app key v stats k :
  own_stat k (stats ++ [(key, v)]) =
  match own_stat k stats with
  | Some x => Some x
  | None => if str_eqb key k then Some v else None
  end.
Proof.
  induction stats as [|[k0 v0] rest IH]; simpl; [reflexivity|].
  destruct (str_eqb k0 k); [reflexivity|exact IH].
Qed.

Lemma update_stat_keys key change stats stats' k :
  update_stat key change stats = Ok stats' ->
  ((exists x, own_stat k stats' = Some x)
   <-> (exists x, own_stat k stats = Some x)).
Proof.
  unfold update_stat. destruct (own_stat key stats) as [v|].
  - intros H. injection H as <-. apply own_stat_replace.
  - destruct (is_inherited key); [|discriminate].
    intros H. injection H as <-. tauto.
Qed.

Lemma in_existsb_str key l : existsb (str_eqb key) l = true <-> In key l.
Proof.
  rewrite existsb_exists. split.
  - intros (x & Hx & E). apply str_eqb_eq in E. subst. exact Hx.
  - intros H. exists key. split; [exact H|apply str_eqb_refl].
Qed.

Lemma set_add_in key l k : In k (set_add key l) <-> k = key \/ In k l.
Proof.
  unfold set_add. destruct (existsb (str_eqb key) l) eqn:E.
  - apply in_existsb_str in E. split; [tauto|].
    intros [->|H]; assumption.
  - rewrite in_app_iff. simpl. split; intros H; intuition congruence.
Qed.

Lemma keys_match_init rel a :
  keys_match a ->
  keys_match {| folderStats := init_stat rel (folderStats a);
                allFolders := set_add rel (allFolders a) |}.
Proof.
  intros Hk key. cbn [folderStats allFolders]. rewrite set_add_in.
  specialize (Hk key) as Hkey. pose proof (Hk rel) as Hrel.
  unfold init_stat. destruct (own_stat rel (folderStats a)) as [v|] eqn:Eo.
  - rewrite Hkey. split; [tauto|]. intros [[->|H] Hi]; [|tauto].
    apply Hrel. eauto.
  - destruct (is_inherited rel) eqn:Ei.
    + rewrite Hkey. split; [tauto|]. intros [[->|H] Hi]; [congruence|tauto].
    + rewrite own_stat_app.
      destruct (own_stat key (folderStats a)) as [x|] eqn:Ek.
      * split; [|eauto]. intros _. destruct Hkey as [Hkey _].
        destruct (Hkey (ex_intro _ x eq_refl)). tauto.
      * destruct (str_eqb rel key) eqn:E.
        -- apply str_eqb_eq in E. subst key. split; [|eauto]. tauto.
        -- split; [intros (x & Hx); discriminate|].
           intros [[->|H] Hi].
           ++ rewrite str_eqb_refl in E. discriminate.
           ++ destruct Hkey as [_ Hkey].
              destruct (Hkey (conj H Hi)) as (x & Hx). discriminate.
Qed.

Lemma keys_match_update rel change a stats :
  keys_match a ->
  update_stat rel change (folderStats a) = Ok stats ->
  keys_match (with_stats a stats).
Proof.
  intros Hk Hu key. cbn [with_stats folderStats allFolders].
  rewrite (update_stat_keys _ _ _ _ key Hu). apply Hk.
Qed.

Lemma file_step_keeps fullPath rel stat_size a :
  keys_match a ->
  keys_match (fst (file_step fullPath rel stat_size a))
  /\ allFolders (fst (file_step fullPath rel stat_size a)) = allFolders a.
Proof.
  intros Hk. unfold file_step. destruct stat_size as [sz|m]; [|auto].
  destruct (update_stat rel count_file (folderStats a)) as [s1|m] eqn:E1;
    [|auto].
  pose proof (keys_match_update _ _ _ _ Hk E1) as Hk1.
  destruct (update_stat rel (add_size sz) s1) as [s2|m] eqn:E2; [|auto].
  split; [|reflexivity].
  apply (keys_match_update rel (add_size sz) (with_stats a s1) s2 Hk1 E2).
Qed.

(** The invariant goes through the loop when it goes through the walk of
    every entry. *)
Lemma each_item_keeps walk currentPath rel items :
  Forall (fun it : jsstring * node =>
            forall cp a, keys_match a ->
                         keys_match (fst (walk (snd it) cp a))
                         /\ incl (allFolders a)
                                 (allFolders (fst (walk (snd it) cp a))))
         items ->
  forall a,
    keys_match a ->
    keys_match (fst (fst (each_item walk currentPath rel items a)))
    /\ incl (allFolders a)
            (allFolders (fst (fst (each_item walk currentPath rel items a)))).
Proof.
  induction 1 as [|[item_name child] rest Hc _ IH]; intros a Hk;
    cbn [each_item fst snd].
  - split; [exact Hk|apply incl_refl].
  - cbn [snd] in Hc. destruct child as [sz d|entries|].
    + destruct (file_step_keeps (path_join currentPath item_name) rel sz a Hk)
        as [Hk1 Ea].
      destruct (IH _ Hk1) as [Hk2 Hi]. cbn [fst]. split; [exact Hk2|].
      rewrite <- Ea. exact Hi.
    + destruct (update_stat rel count_folder (folderStats a)) as [stats|m]
        eqn:E; cbn [fst snd].
      * pose proof (keys_match_update _ _ _ _ Hk E) as Hk1.
        destruct (Hc (path_join currentPath item_name) _ Hk1) as [Hk2 Hi2].
        destruct (IH _ Hk2) as [Hk3 Hi3]. split; [exact Hk3|].
        eapply incl_tran; [|exact Hi3]. exact Hi2.
      * split; [exact Hk|apply incl_refl].
    + apply IH. exact Hk.
Qed.

Lemma scanDirectory_keeps basePath :
  forall n currentPath a,
    keys_match a ->
    keys_match (fst (scanDirectory basePath n currentPath a))
    /\ incl (allFolders a)
            (allFolders (fst (scanDirectory basePath n currentPath a))).
Proof.
  intros n. induction n as [sz d| |m|items IH] using node_nested_ind;
    intros currentPath a Hk; try (split; [exact Hk|apply incl_refl]).
  cbn [scanDirectory].
  set (rel := match path_relative basePath currentPath with
              | [] => lit "."
              | _ => path_relative basePath currentPath
              end).
  pose proof (keys_match_init rel a Hk) as Hk1.
  destruct (each_item_keeps (scanDirectory basePath) currentPath rel items IH
              _ Hk1) as [Hk2 Hi].
  destruct (each_item (scanDirectory basePath) currentPath rel items _)
    as [[a2 evs] [u|m]]; cbn [fst snd] in *;
    (split; [exact Hk2|]); intros k Hin; apply Hi;
    cbn [allFolders]; apply set_add_in; right; exact Hin.
Qed.

(** X14.  The two results of [analyzeDirectory] fit together: a key has
    statistics in [folderStats] exactly when it is a folder of [allFolders]
    and not the name of a member of [Object.prototype].  So when no folder
    has such a relative path, every folder that [main] lists has its own
    record of counts. *)
Theorem analyzeDirectory_keys :
  forall dirPath fs,
  exists analysis events,
    analyzeDirectory dirPath fs = (Ok analysis, fs, events)
    /\ (forall key,
           (exists v, own_stat key (folderStats analysis) = Some v)
           <-> (In key (allFolders analysis) /\ is_inherited key = false))
    /\ ((forall key, In key (allFolders analysis) -> is_inherited key = false)
        -> forall key, In key (allFolders analysis) ->
                       exists v, own_stat key (folderStats analysis) = Some v).
Proof.
  intros dirPath fs. unfold analyzeDirectory.
  set (start := {| folderStats := []; allFolders := [] |}).
  assert (H0 : keys_match start).
  { intros key. cbn. split; [intros (v & Hv); discriminate|tauto]. }
  destruct (scanDirectory_keeps dirPath (scan_root dirPath fs) dirPath start H0)
    as [Hk _].
  eexists. eexists. split; [reflexivity|]. split; [exact Hk|].
  intros Hno key Hin. apply Hk. split; [exact Hin|apply Hno; exact Hin].
Qed.

(** *** What the counts add up to *)

Ltac stat_arith :=
  repeat match goal with
         | v : FolderStat |- _ => destruct v
         end;
  unfold stat_add, stat_zero, count_folder, count_file, add_size in *;
  cbn [fileCount totalSize folderCount] in *;
  try (f_equal; lia).

Lemma stat_add_zero_r x : stat_add x stat_zero = x.
Proof. stat_arith. Qed.

Lemma stat_add_assoc x y z : stat_add (stat_add x y) z = stat_add x (stat_add y z).
Proof. stat_arith. Qed.

Lemma stat_add_cancel_r x y z : stat_add x z = stat_add y z -> x = y.
Proof.
  destruct x, y, z. unfold stat_add. cbn [fileCount totalSize folderCount].
  intros H. injection H as H1 H2 H3. f_equal; lia.
Qed.

Lemma stats_total_app stats kv :
  stats_total (stats ++ [kv]) = stat_add (stats_total stats) (snd kv).
Proof.
  induction stats as [|[k v] rest IH]; simpl.
  - destruct kv as [k v]. simpl. stat_arith.
  - rewrite IH. destruct kv as [k0 v0]. simpl. stat_arith.
Qed.

Lemma stats_total_init rel stats :
  stats_total (init_stat rel stats) = stats_total stats.
Proof.
  unfold init_stat. destruct (own_stat rel stats); [reflexivity|].
  destruct (is_inherited rel); [reflexivity|].
  rewrite stats_total_app. apply stat_add_zero_r.
Qed.

Lemma stats_total_replace key v v' stats :
  own_stat key stats = Some v ->
  stat_add (stats_total (replace_stat key v' stats)) v
  = stat_add (stats_total stats) v'.
Proof.
  induction stats as [|[k0 v0] rest IH]; simpl; [discriminate|].
  destruct (str_eqb k0 key).
  - intros H. injection H as ->. simpl. stat_arith.
  - intros H. simpl. specialize (IH H).
    rewrite stat_add_assoc, IH, <- stat_add_assoc. reflexivity.
Qed.

Lemma additive_count_folder : additive count_folder.
Proof. intros v. stat_arith. Qed.

Lemma additive_count_file : additive count_file.
Proof. intros v. stat_arith. Qed.

Lemma additive_add_size sz : additive (add_size sz).
Proof. intros v. stat_arith. Qed.

Lemma update_stat_total rel change stats v :
  additive change ->
  own_stat rel stats = Some v ->
  update_stat rel change stats = Ok (replace_stat rel (change v) stats)
  /\ stats_total (replace_stat rel (change v) stats)
     = stat_add (stats_total stats) (change stat_zero).
Proof.
  intros Hadd Ho. unfold update_stat. rewrite Ho. split; [reflexivity|].
  pose proof (stats_total_replace rel v (change v) stats Ho) as H.
  apply (stat_add_cancel_r _ _ v). rewrite H, (Hadd v).
  generalize (stats_total stats) (change stat_zero). intros x y. stat_arith.
Qed.

Lemma stat_add_zero_l x : stat_add stat_zero x = x.
Proof. stat_arith. Qed.

Lemma update_stat_ok rel change a :
  keys_match a -> In rel (allFolders a) ->
  exists stats, update_stat rel change (folderStats a) = Ok stats.
Proof.
  intros Hk Hin. unfold update_stat.
  destruct (own_stat rel (folderStats a)) as [v|] eqn:Eo; [eauto|].
  destruct (is_inherited rel) eqn:Ei; [eauto|].
  destruct (proj2 (Hk rel) (conj Hin Ei)) as (v & Hv). congruence.
Qed.

Lemma own_of_listed a rel :
  keys_match a -> In rel (allFolders a) -> is_inherited rel = false ->
  exists v, own_stat rel (folderStats a) = Some v.
Proof. intros Hk Hin Hi. apply Hk. auto. Qed.

Lemma each_item_totals basePath currentPath rel items :
  Forall (fun it : jsstring * node =>
            forall cp a,
              keys_match a ->
              (forall k, In k (allFolders (fst (scanDirectory basePath (snd it)
                                                              cp a))) ->
                         is_inherited k = false) ->
              stats_total (folderStats (fst (scanDirectory basePath (snd it)
                                                           cp a)))
              = stat_add (stats_total (folderStats a)) (tree_totals (snd it)))
         items ->
  forall a,
    keys_match a -> In rel (allFolders a) ->
    (forall k,
        In k (allFolders
                (fst (fst (each_item (scanDirectory basePath) currentPath rel
                                     items a)))) ->
        is_inherited k = false) ->
    stats_total
      (folderStats
         (fst (fst (each_item (scanDirectory basePath) currentPath rel
                              items a))))
    = stat_add (stats_total (folderStats a)) (sum_items tree_totals items)
    /\ snd (each_item (scanDirectory basePath) currentPath rel items a) = Ok tt.
Proof.
  assert (Hkeep : forall its a0,
             keys_match a0 ->
             keys_match (fst (fst (each_item (scanDirectory basePath)
                                             currentPath rel its a0)))
             /\ incl (allFolders a0)
                     (allFolders (fst (fst (each_item (scanDirectory basePath)
                                                      currentPath rel its
                                                      a0))))).
  { intros its. apply each_item_keeps. apply Forall_forall.
    intros it _ cp a. apply scanDirectory_keeps. }
  induction 1 as [|[item_name child] rest Hc _ IH]; intros a Hk Hrel Hfinal;
    cbn [each_item fst snd sum_items] in *.
  - rewrite stat_add_zero_r. auto.
  - cbn [snd] in Hc. destruct child as [[sz|m] d|entries|].
    + (* a regular file whose size is known *)
      set (fullPath := path_join currentPath item_name) in *.
      destruct (file_step_keeps fullPath rel (Ok sz) a Hk) as [Hk1 Ea].
      destruct (Hkeep rest _ Hk1) as [_ Hincl].
      assert (Hi : is_inherited rel = false).
      { apply Hfinal, Hincl. rewrite Ea. exact Hrel. }
      destruct (own_of_listed a rel Hk Hrel Hi) as (v & Hv).
      destruct (update_stat_total rel count_file _ v additive_count_file Hv)
        as [E1 T1].
      set (stats1 := replace_stat rel (count_file v) (folderStats a)) in *.
      assert (Hv1 : exists v1, own_stat rel stats1 = Some v1).
      { apply (update_stat_keys _ _ _ _ rel E1). eauto. }
      destruct Hv1 as (v1 & Hv1).
      destruct (update_stat_total rel (add_size sz) _ v1
                  (additive_add_size sz) Hv1) as [E2 T2].
      set (stats2 := replace_stat rel (add_size sz v1) stats1) in *.
      assert (Estep : file_step fullPath rel (Ok sz) a = (with_stats a stats2, [])).
      { unfold file_step. rewrite E1, E2. reflexivity. }
      rewrite Estep in *. cbn [fst snd app] in *.
      destruct (IH (with_stats a stats2) Hk1 Hrel Hfinal) as [-> ->].
      split; [|reflexivity]. cbn [with_stats folderStats]. rewrite T2, T1.
      generalize (stats_total (folderStats a))
                 (sum_items tree_totals rest). intros x y. stat_arith.
    + (* a regular file whose [stat] throws *)
      cbn [file_step fst snd] in *.
      destruct (IH a Hk Hrel Hfinal) as [-> ->].
      rewrite stat_add_zero_l. auto.
    + (* a directory *)
      destruct (update_stat_ok rel count_folder a Hk Hrel) as (stats & E).
      rewrite E in *. cbn [fst snd] in *.
      set (fullPath := path_join currentPath item_name) in *.
      pose proof (keys_match_update _ _ _ _ Hk E) as Hk1.
      destruct (scanDirectory_keeps basePath (Dir entries) fullPath _ Hk1)
        as [Hk2 Hi2].
      destruct (Hkeep rest _ Hk2) as [_ Hi3].
      assert (Hi : is_inherited rel = false).
      { apply Hfinal, Hi3, Hi2. exact Hrel. }
      destruct (own_of_listed a rel Hk Hrel Hi) as (v & Hv).
      destruct (update_stat_total rel count_folder _ v additive_count_folder Hv)
        as [E' T1].
      rewrite E in E'. injection E' as ->.
      assert (Hrel2 : In rel (allFolders
                                (fst (scanDirectory basePath (Dir entries)
                                        fullPath (with_stats a
                                           (replace_stat rel (count_folder v)
                                              (folderStats a))))))).
      { apply Hi2. exact Hrel. }
      destruct (IH _ Hk2 Hrel2 Hfinal) as [-> ->].
      split; [|reflexivity].
      rewrite (Hc fullPath _ Hk1).
      * cbn [with_stats folderStats]. rewrite T1.
        generalize (stats_total (folderStats a))
                   (tree_totals (Dir entries))
                   (sum_items tree_totals rest). intros x y z. stat_arith.
      * intros k Hin. apply Hfinal, Hi3. exact Hin.
    + (* neither a file nor a directory *)
      destruct (IH a Hk Hrel Hfinal) as [-> ->].
      rewrite stat_add_zero_l. auto.
Qed.

Lemma scanDirectory_totals basePath :
  forall n currentPath a,
    keys_match a ->
    (forall k, In k (allFolders (fst (scanDirectory basePath n currentPath a))) ->
               is_inherited k = false) ->
    stats_total (folderStats (fst (scanDirectory basePath n currentPath a)))
    = stat_add (stats_total (folderStats a)) (tree_totals n).
Proof.
  intros n. induction n as [sz d| |m|items IH] using node_nested_ind;
    intros currentPath a Hk Hfinal;
    try (cbn [scanDirectory tree_totals fst]; rewrite stat_add_zero_r;
         reflexivity).
  cbn [scanDirectory tree_totals] in *.
  set (rel := match path_relative basePath currentPath with
              | [] => lit "."
              | _ => path_relative basePath currentPath
              end) in *.
  set (a1 := {| folderStats := init_stat rel (folderStats a);
                allFolders := set_add rel (allFolders a) |}) in *.
  pose proof (keys_match_init rel a Hk) as Hk1. fold a1 in Hk1.
  assert (Hrel : In rel (allFolders a1)).
  { cbn [a1 allFolders]. apply set_add_in. left. reflexivity. }
  pose proof (each_item_totals basePath currentPath rel items IH a1 Hk1 Hrel)
    as Hloop.
  destruct (each_item (scanDirectory basePath) currentPath rel items a1)
    as [[a2 evs] [u|m]]; cbn [fst snd] in *.
  - destruct (Hloop Hfinal) as [-> _]. cbn [a1 folderStats].
    rewrite stats_total_init. reflexivity.
  - destruct (Hloop Hfinal) as [_ E]. discriminate E.
Qed.

Lemma file_step_folders fullPath rel sz a :
  allFolders (fst (file_step fullPath rel sz a)) = allFolders a.
Proof.
  unfold file_step. destruct sz as [s|]; [|reflexivity].
  destruct (update_stat rel count_file (folderStats a)) as [s1|];
    [|reflexivity].
  destruct (update_stat rel (add_size s) s1); reflexivity.
Qed.

Lemma each_item_count walk currentPath rel items :
  Forall (fun it : jsstring * node =>
            forall cp a,
              (length (allFolders (fst (walk (snd it) cp a)))
               <= length (allFolders a) + 1
                  + N.to_nat (folderCount (tree_totals (snd it))))%nat)
         items ->
  forall a,
    (length (allFolders (fst (fst (each_item walk currentPath rel items a))))
     <= length (allFolders a)
        + N.to_nat (folderCount (sum_items tree_totals items)))%nat.
Proof.
  induction 1 as [|[item_name child] rest Hc _ IH]; intros a;
    cbn [each_item fst snd sum_items].
  - lia.
  - cbn [snd] in Hc. destruct child as [sz d|entries|].
    + specialize (IH (fst (file_step (path_join currentPath item_name) rel sz a))).
      rewrite file_step_folders in IH.
      destruct sz;
        cbn [fst snd stat_add folderCount add_size count_file stat_zero] in *;
        lia.
    + destruct (update_stat rel count_folder (folderStats a)) as [stats|m];
        cbn [fst snd].
      * pose proof (Hc (path_join currentPath item_name) (with_stats a stats))
          as Hc1.
        specialize (IH (fst (walk (Dir entries)
                                  (path_join currentPath item_name)
                                  (with_stats a stats)))).
        cbn [with_stats allFolders] in Hc1.
        cbn [stat_add folderCount count_folder].
        rewrite !N2Nat.inj_add. change (N.to_nat 1) with 1%nat. lia.
      * lia.
    + specialize (IH a). cbn [fst snd stat_add folderCount stat_zero]. lia.
Qed.

Lemma set_add_length key l : (length (set_add key l) <= length l + 1)%nat.
Proof.
  unfold set_add. destruct (existsb (str_eqb key) l); [lia|].
  rewrite length_app. simpl. lia.
Qed.

Lemma scanDirectory_count basePath :
  forall n currentPath a,
    (length (allFolders (fst (scanDirectory basePath n currentPath a)))
     <= length (allFolders a) + 1 + N.to_nat (folderCount (tree_totals n)))%nat.
Proof.
  intros n. induction n as [sz d| |m|items IH] using node_nested_ind;
    intros currentPath a; try (cbn [scanDirectory fst]; lia).
  cbn [scanDirectory tree_totals].
  set (rel := match path_relative basePath currentPath with
              | [] => lit "."
              | _ => path_relative basePath currentPath
              end).
  set (a1 := {| folderStats := init_stat rel (folderStats a);
                allFolders := set_add rel (allFolders a) |}).
  pose proof (each_item_count (scanDirectory basePath) currentPath rel items
                IH a1) as Hloop.
  pose proof (set_add_length rel (allFolders a)) as Hadd.
  destruct (each_item (scanDirectory basePath) currentPath rel items a1)
    as [[a2 evs] [u|m]]; cbn [fst snd a1 allFolders] in *; lia.
Qed.

(** X15.  What the counts of the analysis add up to.  When no folder has
    the name of a member of [Object.prototype] as its relative path, the
    counts summed over [folderStats] are exactly what the walk saw in the
    directories it could list: the regular files whose [stat] succeeded,
    their sizes, and the entries that are directories, a directory that
    cannot be listed included.  The folders listed, the root apart, are
    then at most as many as the subfolders counted: a directory that cannot
    be listed is counted by its parent and has no row of its own. *)
Theorem analyzeDirectory_totals :
  forall dirPath fs,
  exists analysis events,
    analyzeDirectory dirPath fs = (Ok analysis, fs, events)
    /\ ((forall key, In key (allFolders analysis) -> is_inherited key = false)
        -> stats_total (folderStats analysis)
           = tree_totals (scan_root dirPath fs)
           /\ N.of_nat (length (allFolders analysis))
              <= 1 + folderCount (stats_total (folderStats analysis))).
Proof.
  intros dirPath fs. unfold analyzeDirectory.
  set (start := {| folderStats := []; allFolders := [] |}).
  assert (H0 : keys_match start).
  { intros key. cbn. split; [intros (v & Hv); discriminate|tauto]. }
  eexists. eexists. split; [reflexivity|]. intros Hno.
  pose proof (scanDirectory_totals dirPath (scan_root dirPath fs) dirPath start
                H0 Hno) as Ht.
  cbn [start folderStats stats_total fold_right] in Ht.
  rewrite stat_add_zero_l in Ht. split; [exact Ht|].
  rewrite Ht.
  pose proof (scanDirectory_count dirPath (scan_root dirPath fs) dirPath start)
    as Hc.
  cbn [start allFolders length] in Hc. lia.
Qed.

(** ** The output directory and the next scan *)

Lemma segments_join_plain dir entry :
  ~ In 47 entry ->
  (exists d rest, entry = d :: rest /\ d <> 46) ->
  segments (path_join dir entry) = segments dir ++ [entry].
Proof.
  intros Hslash (d & rest & -> & Hd). unfold segments, path_join.
  change (lit "/" ++ d :: rest) with (47 :: d :: rest).
  rewrite split_on_app, filter_app, (split_on_plain _ _ Hslash).
  f_equal. change (lit ".") with [46]. cbn [filter str_eqb negb andb].
  destruct (N.eqb_spec d 46) as [->|_]; [congruence|]. reflexivity.
Qed.

Lemma generateFileName_no_slash folderPath index :
  ~ In 47 (generateFileName folderPath index).
Proof.
  destruct (generateFileName_stem folderPath index) as (stem & -> & Hstem).
  intros H. apply in_app_or in H. destruct H as [H|H].
  - apply paddedIndex_digits in H. lia.
  - apply in_app_or in H. destruct H as [H|H].
    + apply Hstem in H. tauto.
    + vm_compute in H. intuition discriminate.
Qed.

Lemma generateFileName_head folderPath index :
  exists d rest, generateFileName folderPath index = d :: rest /\ d <> 46.
Proof.
  destruct (generateFileName_prefix folderPath index) as (x & ->).
  pose proof (paddedIndex_length index) as Hlen.
  destruct (paddedIndex index) as [|d rest] eqn:E; [simpl in Hlen; lia|].
  exists d, (rest ++ 45 :: x). split; [reflexivity|].
  assert (Hd : 48 <= d <= 57).
  { apply (paddedIndex_digits index). rewrite E. left. reflexivity. }
  lia.
Qed.

Lemma lookup_app p :
  forall n q,
    lookup n (p ++ q) =
    match lookup n p with
    | Some m => lookup m q
    | None => None
    end.
Proof.
  induction p as [|s p IH]; intros n q; [reflexivity|].
  cbn [app lookup]. destruct n as [| [items|m] |]; try reflexivity.
  destruct (find_entry s items); [apply IH|reflexivity].
Qed.

Lemma find_entry_in key items c :
  find_entry key items = Some c -> In (key, c) items.
Proof.
  induction items as [|[k0 c0] rest IH]; simpl; [discriminate|].
  destruct (str_eqb k0 key) eqn:E.
  - intros H. injection H as ->. apply str_eqb_eq in E. subst. left. reflexivity.
  - intros H. right. apply IH. exact H.
Qed.

Lemma endsWith_pdf stem :
  endsWith (toLowerCase (stem ++ lit ".pdf")) (lit ".pdf") = true.
Proof.
  unfold endsWith, toLowerCase. rewrite map_app.
  change (List.map lowerUnit (lit ".pdf")) with (lit ".pdf").
  rewrite length_app. apply andb_true_iff. split.
  - apply Nat.leb_le. lia.
  - replace (length (List.map lowerUnit stem) + length (lit ".pdf")
             - length (lit ".pdf"))%nat
      with (length (List.map lowerUnit stem) + 0)%nat by lia.
    rewrite skipn_app, Nat.add_0_r, skipn_all.
    replace (length (List.map lowerUnit stem) - length (List.map lowerUnit stem))%nat
      with 0%nat by lia.
    reflexivity.
Qed.

Lemma set_entry_same s c items :
  find_entry s items = Some c -> set_entry s c items = items.
Proof.
  induction items as [|[n c0] rest IH]; simpl; [discriminate|].
  destruct (str_eqb n s).
  - intros H. injection H as ->. reflexivity.
  - intros H. rewrite (IH H). reflexivity.
Qed.

(** Making a directory that is there changes nothing. *)
Lemma mkdirp_existing segs :
  forall n entries, lookup n segs = Some (Dir entries) -> mkdirp segs n = Ok n.
Proof.
  induction segs as [|s rest IH]; intros n entries H.
  - cbn [lookup] in H. injection H as ->. reflexivity.
  - cbn [lookup] in H. destruct n as [| [items|m] |]; try discriminate.
    cbn [mkdirp].
    destruct (find_entry s items) as [c|] eqn:Ef; [|discriminate].
    rewrite (IH c entries H), (set_entry_same _ _ _ Ef). reflexivity.
Qed.

Lemma generateFileName_output index :
  generateFileName OUTPUT_DIR index = paddedIndex index ++ lit "-output.pdf".
Proof. reflexivity. Qed.

Section NextRun.

Context {platform : Platform}.

(** X16.  The scan does not leave out the output directory.  Once an
    artifact has been written under [output] in the source directory, a scan
    of the source directory returns the folder ["output"] itself, and the
    next run of [main] gives it an index like any other folder and announces
    an artifact [NN-output.pdf] for it. *)
Theorem scanFolders_finds_output :
  forall sourceDir fs folderPath index artifact fs',
    put (segments (path_join (path_join sourceDir OUTPUT_DIR)
                             (generateFileName folderPath index)))
        (new_file artifact) fs = Ok fs' ->
    In OUTPUT_DIR (scanned sourceDir fs')
    /\ exists k,
        nth_error (scanned sourceDir fs') k = Some OUTPUT_DIR
        /\ nth_error (output_names (events_of (main sourceDir fs'))) k
           = Some (paddedIndex (N.of_nat k + 1) ++ lit "-output.pdf").
Proof.
  intros sourceDir fs folderPath index artifact fs' Hput.
  apply lookup_put in Hput.
  rewrite (segments_join_plain _ _ (generateFileName_no_slash folderPath index)
             (generateFileName_head folderPath index)) in Hput.
  assert (Eout : segments (path_join sourceDir OUTPUT_DIR)
                 = segments sourceDir ++ [OUTPUT_DIR]).
  { apply segments_join_plain.
    - vm_compute. intuition discriminate.
    - exists 111, (lit "utput"). split; [reflexivity|discriminate]. }
  rewrite Eout in Hput.
  rewrite <- app_assoc, lookup_app in Hput. cbn [app] in Hput.
  destruct (lookup fs' (segments sourceDir)) as [root|] eqn:Eroot;
    [|discriminate].
  cbn [lookup] in Hput.
  destruct root as [| [items|m] |]; try discriminate.
  destruct (find_entry OUTPUT_DIR items) as [outputNode|] eqn:Efind;
    [|discriminate].
  destruct outputNode as [| [outputItems|m] |]; try discriminate.
  destruct (find_entry (generateFileName folderPath index) outputItems)
    as [written|] eqn:Ew; [|discriminate].
  injection Hput as ->.
  assert (Hdir : lookup fs' (segments (path_join sourceDir OUTPUT_DIR))
                 = Some (Dir (Ok outputItems))).
  { rewrite Eout, lookup_app, Eroot. cbn [lookup]. rewrite Efind. reflexivity. }
  apply find_entry_in in Efind, Ew.
  assert (Hpdf : holds_pdf outputItems).
  { destruct (generateFileName_stem folderPath index) as (stem & E & _).
    exists (generateFileName folderPath index), (Ok (N.of_nat (length artifact))),
      (Ok artifact).
    split; [exact Ew|]. rewrite E, app_assoc. apply endsWith_pdf. }
  assert (Hin : In OUTPUT_DIR (scanned sourceDir fs')).
  { unfold scanned, scanFolders, result_of. cbn [fst].
    fold (scan_root sourceDir fs'). unfold scan_root. rewrite Eroot.
    apply (Permutation_in _ (sort_by_perm _ _ _)).
    apply (scan_pushed_complete (Dir (Ok items)) [OUTPUT_DIR]
             (Dir (Ok outputItems))
             (reaches_down items OUTPUT_DIR (Dir (Ok outputItems)) []
                (Dir (Ok outputItems)) Efind eq_refl (reaches_here _))
             outputItems sourceDir (lit ".") eq_refl Hpdf). }
  split; [exact Hin|].
  destruct (In_nth_error _ _ Hin) as (k & Hk). exists k.
  split; [exact Hk|].
  rewrite main_names, (mkdirp_existing _ _ _ Hdir).
  rewrite (names_from_nth _ 0 k OUTPUT_DIR Hk). cbn [Nat.add].
  rewrite generateFileName_output. reflexivity.
Qed.

End NextRun.

(** ** Further runs on the sample world, continued *)

Lemma analyzeDirectory_totals_witness :
  exists analysis,
    result_of (analyzeDirectory (lit "/w") sample_fs) = Ok analysis
    /\ stats_total (folderStats analysis)
       = {| fileCount := 8; totalSize := 275959; folderCount := 5 |}
    /\ N.of_nat (length (allFolders analysis)) <= 1 + 5.
Proof.
  destruct (analyzeDirectory_totals (lit "/w") sample_fs)
    as (analysis & events & E & H).
  exists analysis. split; [rewrite E; reflexivity|].
  assert (Hno : forall key, In key (allFolders analysis) ->
                            is_inherited key = false).
  { vm_compute in E. injection E as <- _. intros key Hin.
    cbn [allFolders] in Hin.
    repeat (destruct Hin as [<-|Hin]; [reflexivity|]). contradiction. }
  destruct (H Hno) as [Ht Hc]. rewrite Ht in Hc. split; [exact Ht|exact Hc].
Defined.

Lemma scanFolders_finds_output_witness :
  scanned (lit "/w") sample_fs_written
  = [lit "(old)"; lit "."; lit "A"; lit "B/C"; lit "output"; lit "tmp"]
  /\ nth_error (output_names
                  (events_of (@main sample_platform (lit "/w")
                                    sample_fs_written))) 4
     = Some (lit "05-output.pdf").
Proof.
  split; [reflexivity|].
  destruct (@scanFolders_finds_output sample_platform (lit "/w")
              sample_fs_output (lit "A") 3 [Byte.x01] sample_fs_written)
    as (_ & k & Hk & Hname).
  - vm_compute. reflexivity.
  - assert (Ek : k = 4%nat).
    { vm_compute in Hk.
      do 4 (destruct k as [|k]; [discriminate Hk|]).
      destruct k as [|k]; [reflexivity|].
      destruct k as [|k]; [discriminate Hk|]. destruct k; discriminate Hk. }
    subst k. exact Hname.
Defined.

(** * The run and its artifacts *)

Lemma bind_assoc {A B C} (c : M A) (k : A -> M B) (k' : B -> M C) fs :
  bind (bind c k) k' fs = bind c (fun a => bind (k a) k') fs.
Proof.
  unfold bind. destruct (c fs) as [[[a|m] fs1] e1]; [|reflexivity].
  destruct (k a fs1) as [[[b|m] fs2] e2]; [|reflexivity].
  destruct (k' b fs2) as [[r fs3] e3]. rewrite app_assoc. reflexivity.
Qed.

Lemma bind_ext {A B} (c : M A) (k k' : A -> M B) fs :
  (forall a fs1, k a fs1 = k' a fs1) -> bind c k fs = bind c k' fs.
Proof.
  intros H. unfold bind. destruct (c fs) as [[[a|m] fs1] e1]; [|reflexivity].
  rewrite H. reflexivity.
Qed.

Lemma bind_ret {A B} (a : A) (k : A -> M B) fs : bind (ret a) k fs = k a fs.
Proof. unfold bind, ret. destruct (k a fs) as [[r fs2] e2]. reflexivity. Qed.

Lemma nth_error_parts {A} (l : list A) :
  forall k x,
    nth_error l k = Some x ->
    l = firstn k l ++ x :: skipn (S k) l /\ length (firstn k l) = k.
Proof.
  induction l as [|y l IH]; intros [|k] x H; simpl in H; try discriminate.
  - injection H as ->. split; reflexivity.
  - destruct (IH k x H) as [E Hlen]. cbn [firstn skipn app length].
    split; [f_equal; exact E|f_equal; exact Hlen].
Qed.

(** The artifacts of two indices lie at positions of which neither is the
    other nor above it. *)
Lemma positions_apart outputDir p q i j :
  i <> j ->
  forall below,
    segments (path_join outputDir (generateFileName p i))
    <> segments (path_join outputDir (generateFileName q j)) ++ below.
Proof.
  intros Hne below.
  rewrite !(segments_join_plain _ _ (generateFileName_no_slash _ _)
              (generateFileName_head _ _)).
  rewrite <- app_assoc. intros H. apply app_inv_head in H.
  cbn [app] in H. injection H as H _.
  apply generateFileName_inj_index in H. contradiction.
Qed.

Lemma readFile_same p fs1 fs2 :
  lookup fs1 (segments p) = lookup fs2 (segments p) ->
  result_of (fs_readFile p fs1) = result_of (fs_readFile p fs2).
Proof.
  intros H. unfold fs_readFile, result_of. rewrite H.
  destruct (lookup fs2 (segments p)) as [[| |]|]; reflexivity.
Qed.

Section Artifacts.

Context {platform : Platform}.

(** The loop over [before ++ rest] is the loop over [before] and then the
    loop over [rest], from the index and the counts reached. *)
Lemma process_from_app sourceDir outputDir total before rest :
  forall i processedCount successCount fs,
    process_from sourceDir outputDir total i (before ++ rest)
                 processedCount successCount fs
    = bind (process_from sourceDir outputDir total i before
                         processedCount successCount)
           (fun counts =>
              process_from sourceDir outputDir total (i + length before) rest
                           (fst counts) (snd counts)) fs.
Proof.
  induction before as [|folderPath before IH]; intros i pc sc fs.
  - cbn [app process_from length]. rewrite bind_ret, Nat.add_0_r. reflexivity.
  - cbn [app process_from length]. rewrite bind_assoc. apply bind_ext.
    intros sc' fs1. rewrite IH, Nat.add_succ_r. reflexivity.
Qed.

(** A run of the loop goes through the turn of each folder, with the
    folder's position as the index. *)
Lemma run_through_turn sourceDir outputDir total folders k folderPath fs :
  nth_error folders k = Some folderPath ->
  process_from sourceDir outputDir total 0 folders 0 0 fs
  = bind (process_from sourceDir outputDir total 0 (firstn k folders) 0 0)
         (fun counts =>
            bind (process_folder sourceDir outputDir total k folderPath
                                 (snd counts))
                 (fun successCount' =>
                    process_from sourceDir outputDir total (S k)
                                 (skipn (S k) folders)
                                 (fst counts + 1) successCount')) fs.
Proof.
  intros Hk. destruct (nth_error_parts folders k folderPath Hk) as [E Hlen].
  rewrite E at 1. rewrite process_from_app, Hlen. reflexivity.
Qed.

(** A turn hands the eligible set of its folder to [mergePDFs] with the
    output path made from the folder and the turn's index plus one. *)
Lemma process_folder_merges sourceDir outputDir total i folderPath successCount
    fs pdfFiles :
  let fullFolderPath :=
    if str_eqb folderPath (lit ".") then sourceDir
    else path_join sourceDir folderPath in
  let outputPath :=
    path_join outputDir (generateFileName folderPath (N.of_nat i + 1)) in
  let turn :=
    process_folder sourceDir outputDir total i folderPath successCount fs in
  result_of (getValidPDFs fullFolderPath fs) = Ok pdfFiles ->
  pdfFiles <> [] ->
  fs_of turn = fs_of (mergePDFs pdfFiles outputPath fs)
  /\ (result_of (mergePDFs pdfFiles outputPath fs) = Ok true ->
      result_of turn = Ok (successCount + 1))
  /\ (result_of (mergePDFs pdfFiles outputPath fs) = Ok false ->
      result_of turn = Ok successCount).
Proof.
  intros fullFolderPath outputPath turn Hv Hne.
  subst turn. unfold process_folder. fold fullFolderPath. fold outputPath.
  cbv zeta. rewrite !result_console, !fs_console. cbv beta.
  rewrite result_bind, fs_bind, Hv, (readonly_getValidPDFs fullFolderPath fs).
  destruct pdfFiles as [|f rest]; [congruence|].
  change (0 <? length (f :: rest))%nat with true. cbv iota.
  rewrite result_bind, fs_bind.
  destruct (nothrow_mergePDFs (f :: rest) outputPath fs) as ([|] & Hr);
    rewrite Hr.
  - destruct (mergePDFs_true _ _ _ Hr) as (b & Hp).
    rewrite result_bind, fs_bind, (stat_after_put _ _ _ _ Hp).
    cbn [result_of fs_of fst snd]. rewrite result_console, fs_console.
    split; [reflexivity|]. split; [reflexivity|discriminate].
  - rewrite result_console, fs_console.
    split; [reflexivity|]. split; [discriminate|reflexivity].
Qed.

(** The loop changes the tree only at the positions of the artifacts that
    it names. *)
Lemma process_from_elsewhere sourceDir outputDir total folders p :
  forall i processedCount successCount fs,
    (forall j folderPath,
        nth_error folders j = Some folderPath ->
        forall below,
          segments (path_join outputDir
                      (generateFileName folderPath (N.of_nat (i + j) + 1)))
          <> p ++ below) ->
    lookup (fs_of (process_from sourceDir outputDir total i folders
                                processedCount successCount fs)) p
    = lookup fs p.
Proof.
  induction folders as [|folderPath rest IH]; intros i pc sc fs Hp;
    [reflexivity|].
  cbn [process_from]. rewrite fs_bind.
  destruct (process_folder_turn sourceDir outputDir total i folderPath sc fs)
    as (_ & sc' & ->).
  rewrite IH.
  - destruct (process_folder_step sourceDir outputDir total i folderPath sc fs)
      as [Ht _].
    apply (touched_elsewhere _ _ _ Ht).
    specialize (Hp 0%nat folderPath eq_refl). rewrite Nat.add_0_r in Hp.
    exact Hp.
  - intros j g Hj below. specialize (Hp (S j) g Hj below).
    rewrite Nat.add_succ_r in Hp. exact Hp.
Qed.

(** What a turn does to the tree. *)
Lemma process_folder_artifact sourceDir outputDir total i folderPath
    successCount fs :
  let outputPath :=
    path_join outputDir (generateFileName folderPath (N.of_nat i + 1)) in
  let turn :=
    process_folder sourceDir outputDir total i folderPath successCount fs in
  same_elsewhere (segments outputPath) fs (fs_of turn)
  /\ (result_of turn = Ok successCount
      \/ result_of turn = Ok (successCount + 1))
  /\ (result_of turn = Ok (successCount + 1) ->
      exists b, lookup (fs_of turn) (segments outputPath) = Some (new_file b)).
Proof.
  intros outputPath turn.
  destruct (process_folder_step sourceDir outputDir total i folderPath
              successCount fs) as [Ht Hr].
  fold outputPath in Ht, Hr. fold turn in Ht, Hr.
  split; [apply touched_elsewhere; exact Ht|]. split.
  - destruct Hr as [Hr|[Hr _]]; auto.
  - intros Hs. destruct Hr as [Hr|[_ (b & Hp)]].
    + rewrite Hr in Hs. injection Hs as Hs. lia.
    + exists b. apply (lookup_put _ _ _ _ Hp).
Qed.

(** The state in which the turn of the folder at position [k] begins, and
    the file system in which the run ends. *)
Lemma run_after_turn sourceDir outputDir total folders k folderPath fs :
  nth_error folders k = Some folderPath ->
  let before :=
    process_from sourceDir outputDir total 0 (firstn k folders) 0 0 fs in
  let run := process_from sourceDir outputDir total 0 folders 0 0 fs in
  exists successCount successCount',
    result_of before = Ok (N.of_nat k, successCount)
    /\ result_of (process_folder sourceDir outputDir total k folderPath
                                 successCount (fs_of before))
       = Ok successCount'
    /\ fs_of run
       = fs_of (process_from sourceDir outputDir total (S k)
                             (skipn (S k) folders) (N.of_nat k + 1)
                             successCount'
                             (fs_of (process_folder sourceDir outputDir total k
                                       folderPath successCount (fs_of before)))).
Proof.
  intros Hk before run.
  destruct (nth_error_parts folders k folderPath Hk) as [_ Hlen].
  destruct (process_from_names sourceDir outputDir total (firstn k folders)
              0 0 0 fs) as (_ & sc & Hb).
  rewrite Hlen in Hb. cbn [N.add] in Hb. fold before in Hb.
  destruct (process_folder_turn sourceDir outputDir total k folderPath sc
              (fs_of before)) as (_ & sc' & Ht).
  exists sc, sc'. split; [exact Hb|]. split; [exact Ht|].
  unfold run. rewrite (run_through_turn _ _ _ _ _ _ _ Hk).
  fold before. rewrite fs_bind. fold before. rewrite Hb. cbn [fst snd].
  rewrite fs_bind, Ht. reflexivity.
Qed.

Lemma readonly_log_each files : readonly (log_each files).
Proof.
  induction files as [|file rest IH]; simpl.
  - apply readonly_ret.
  - apply readonly_bind; [apply readonly_console|intros _; exact IH].
Qed.

Lemma fs_bind_readonly {A B} (c : M A) (k : A -> M B) fs :
  (forall a, readonly (k a)) -> fs_of (bind c k fs) = fs_of (c fs).
Proof.
  intros Hk. rewrite fs_bind.
  destruct (result_of (c fs)); [apply Hk|reflexivity].
Qed.

(** A run of [main] ends in the file system in which its loop ends: what
    comes after the loop only reads. *)
Lemma main_fs sourceDir fs fs1 :
  mkdirp (segments (path_join sourceDir OUTPUT_DIR)) fs = Ok fs1 ->
  fs_of (main sourceDir fs)
  = fs_of (process_from sourceDir (path_join sourceDir OUTPUT_DIR)
                        (length (scanned sourceDir fs1)) 0
                        (scanned sourceDir fs1) 0 0 fs1).
Proof.
  intros Hmk. unfold main. rewrite !fs_console. cbv beta.
  rewrite fs_try.
  match goal with
  | |- match result_of (?body fs) with _ => _ end = _ =>
      assert (Hb : fs_of (body fs)
                   = fs_of (process_from sourceDir
                              (path_join sourceDir OUTPUT_DIR)
                              (length (scanned sourceDir fs1)) 0
                              (scanned sourceDir fs1) 0 0 fs1));
      [|destruct (result_of (body fs)); [exact Hb|];
        rewrite fs_console; exact Hb]
  end.
  rewrite fs_bind. unfold fs_mkdir_recursive at 1 2. rewrite Hmk.
  cbn [result_of fs_of fst snd]. rewrite fs_console. cbv beta.
  rewrite fs_bind.
  change (result_of (scanFolders sourceDir fs1))
    with (@Ok (list jsstring) (scanned sourceDir fs1)).
  change (fs_of (scanFolders sourceDir fs1)) with fs1.
  cbv beta iota. rewrite fs_console. cbv beta.
  apply fs_bind_readonly. intros counts.
  repeat (apply readonly_bind; [apply readonly_console|intros _]).
  apply readonly_bind; [apply readonly_readdir|intros outputFiles].
  apply readonly_bind; [|intros _; apply readonly_ret].
  destruct (0 <? length outputFiles)%nat; [|apply readonly_ret].
  apply readonly_bind; [apply readonly_console|intros _].
  apply readonly_log_each.
Qed.

(** C4.  In the loop of [main] over a scan result, the directory at
    position [k] (from 0) is given the name made with index [k + 1], its
    position among all scanned directories.  The loop visits every
    directory, and each turn announces that name whatever the file system
    holds, so a directory whose eligible set is empty uses up its index like
    any other.  The same holds for a whole run of [main] over the result of
    its own scan.  The index names the artifact and not only the console
    line: the run goes through the turn of the directory at position [k]
    with index [k]; a turn hands the eligible set, when it is not empty, to
    [mergePDFs] with the output path made from the directory and the turn's
    index plus one, whatever the count of successes is; it changes the tree
    at that path only, and when it counts a success a regular file is
    there.  So a run changes the tree only at the paths named by scan
    position, and a run of [main] ends in the file system in which its loop
    over its own scan ends. *)
Theorem naming_index_is_scan_position :
  forall sourceDir outputDir total folders fs,
    let run := process_from sourceDir outputDir total 0 folders 0 0 fs in
    (exists successCount,
        result_of run = Ok (N.of_nat (length folders), successCount))
    /\ length (output_names (events_of run)) = length folders
    /\ (forall k folderPath,
           nth_error folders k = Some folderPath ->
           nth_error (output_names (events_of run)) k
           = Some (generateFileName folderPath (N.of_nat k + 1)))
    /\ (forall i folderPath successCount fs',
           output_names
             (events_of (process_folder sourceDir outputDir total i folderPath
                                        successCount fs'))
           = [generateFileName folderPath (N.of_nat i + 1)])
    /\ (forall fs1 k folderPath,
           mkdirp (segments (path_join sourceDir OUTPUT_DIR)) fs = Ok fs1 ->
           nth_error (scanned sourceDir fs1) k = Some folderPath ->
           nth_error (output_names (events_of (main sourceDir fs))) k
           = Some (generateFileName folderPath (N.of_nat k + 1)))
    /\ (forall k folderPath,
           nth_error folders k = Some folderPath ->
           run
           = bind (process_from sourceDir outputDir total 0 (firstn k folders)
                                0 0)
                  (fun counts =>
                     bind (process_folder sourceDir outputDir total k
                                          folderPath (snd counts))
                          (fun successCount' =>
                             process_from sourceDir outputDir total (S k)
                                          (skipn (S k) folders)
                                          (fst counts + 1) successCount')) fs)
    /\ (forall i folderPath successCount fs' pdfFiles,
           let fullFolderPath :=
             if str_eqb folderPath (lit ".") then sourceDir
             else path_join sourceDir folderPath in
           let outputPath :=
             path_join outputDir
                       (generateFileName folderPath (N.of_nat i + 1)) in
           let turn :=
             process_folder sourceDir outputDir total i folderPath
                            successCount fs' in
           result_of (getValidPDFs fullFolderPath fs') = Ok pdfFiles ->
           pdfFiles <> [] ->
           fs_of turn = fs_of (mergePDFs pdfFiles outputPath fs')
           /\ (result_of (mergePDFs pdfFiles outputPath fs') = Ok true ->
               result_of turn = Ok (successCount + 1))
           /\ (result_of (mergePDFs pdfFiles outputPath fs') = Ok false ->
               result_of turn = Ok successCount))
    /\ (forall i folderPath successCount fs',
           let outputPath :=
             path_join outputDir
                       (generateFileName folderPath (N.of_nat i + 1)) in
           let turn :=
             process_folder sourceDir outputDir total i folderPath
                            successCount fs' in
           same_elsewhere (segments outputPath) fs' (fs_of turn)
           /\ (result_of turn = Ok successCount
               \/ result_of turn = Ok (successCount + 1))
           /\ (result_of turn = Ok (successCount + 1) ->
               exists b,
                 lookup (fs_of turn) (segments outputPath)
                 = Some (new_file b)))
    /\ (forall p,
           (forall k folderPath,
               nth_error folders k = Some folderPath ->
               forall below,
                 segments (path_join outputDir
                             (generateFileName folderPath (N.of_nat k + 1)))
                 <> p ++ below) ->
           lookup (fs_of run) p = lookup fs p)
    /\ (forall fs1,
           mkdirp (segments (path_join sourceDir OUTPUT_DIR)) fs = Ok fs1 ->
           fs_of (main sourceDir fs)
           = fs_of (process_from sourceDir (path_join sourceDir OUTPUT_DIR)
                                 (length (scanned sourceDir fs1)) 0
                                 (scanned sourceDir fs1) 0 0 fs1)).
Proof.
  intros sourceDir outputDir total folders fs run.
  destruct (process_from_names sourceDir outputDir total folders 0 0 0 fs)
    as (Hnames & sc & Hres).
  fold run in Hnames, Hres.
  split; [exists sc; exact Hres|].
  split; [rewrite Hnames; apply names_from_length|].
  split.
  { intros k folderPath Hk. rewrite Hnames.
    apply (names_from_nth folders 0 k folderPath Hk). }
  split.
  { intros i folderPath successCount fs'.
    apply (process_folder_turn sourceDir outputDir total i folderPath
             successCount fs'). }
  split.
  { intros fs1 k folderPath Hmk Hk. rewrite main_names, Hmk.
    apply (names_from_nth _ 0 k folderPath Hk). }
  split.
  { intros k folderPath Hk. apply run_through_turn. exact Hk. }
  split.
  { intros i folderPath successCount fs' pdfFiles.
    apply process_folder_merges. }
  split.
  { intros i folderPath successCount fs'. apply process_folder_artifact. }
  split.
  { intros p Hp. apply process_from_elsewhere. exact Hp. }
  intros fs1 Hmk. apply main_fs. exact Hmk.
Qed.

(** C10.  Two names made with different indices differ, whatever the
    paths: the padded index is all digits and determines the index, the
    first ["-"] of a name comes right after it, and a sanitised segment
    holds no ["-"].  So the names that one run gives are pairwise different,
    and so are the paths under the output directory and the positions they
    lead to.  No artifact is overwritten by the artifact of another
    directory: a turn of the loop leaves alone every path that another index
    names, and in a run the path named for the directory at position [k]
    holds at the end what the turn of that directory left there, a regular
    file when the turn counted a success.  A run of [main] ends in the file
    system in which its loop over its own scan ends. *)
Theorem output_names_never_collide :
  (forall p q i j, i <> j -> generateFileName p i <> generateFileName q j)
  /\ (forall i j, paddedIndex i = paddedIndex j -> i = j)
  /\ (forall i, ~ In 45 (paddedIndex i))
  /\ (forall segment, ~ In 45 (cleanFolderName segment))
  /\ (forall sourceDir outputDir total folders fs,
         NoDup (output_names
                  (events_of (process_from sourceDir outputDir total 0 folders
                                           0 0 fs))))
  /\ (forall sourceDir fs, NoDup (output_names (events_of (main sourceDir fs))))
  /\ (forall outputDir a b,
         path_join outputDir a = path_join outputDir b -> a = b)
  /\ (forall outputDir p q i j,
         i <> j ->
         forall below,
           segments (path_join outputDir (generateFileName p i))
           <> segments (path_join outputDir (generateFileName q j)) ++ below)
  /\ (forall sourceDir outputDir total i folderPath successCount fs other j,
         j <> i ->
         let otherPath :=
           path_join outputDir (generateFileName other (N.of_nat j + 1)) in
         let turn :=
           process_folder sourceDir outputDir total i folderPath
                          successCount fs in
         lookup (fs_of turn) (segments otherPath)
         = lookup fs (segments otherPath))
  /\ (forall sourceDir outputDir total folders fs k folderPath,
         nth_error folders k = Some folderPath ->
         let before :=
           process_from sourceDir outputDir total 0 (firstn k folders) 0 0 fs in
         let run := process_from sourceDir outputDir total 0 folders 0 0 fs in
         let outputPath :=
           path_join outputDir
                     (generateFileName folderPath (N.of_nat k + 1)) in
         exists successCount,
           result_of before = Ok (N.of_nat k, successCount)
           /\ let turn :=
                process_folder sourceDir outputDir total k folderPath
                               successCount (fs_of before) in
              (result_of turn = Ok (successCount + 1) ->
               exists b,
                 lookup (fs_of turn) (segments outputPath)
                 = Some (new_file b))
              /\ lookup (fs_of run) (segments outputPath)
                 = lookup (fs_of turn) (segments outputPath)
              /\ result_of (fs_readFile outputPath (fs_of run))
                 = result_of (fs_readFile outputPath (fs_of turn)))
  /\ (forall sourceDir fs fs1,
         mkdirp (segments (path_join sourceDir OUTPUT_DIR)) fs = Ok fs1 ->
         fs_of (main sourceDir fs)
         = fs_of (process_from sourceDir (path_join sourceDir OUTPUT_DIR)
                               (length (scanned sourceDir fs1)) 0
                               (scanned sourceDir fs1) 0 0 fs1)).
Proof.
  split.
  { intros p q i j Hne E. apply Hne.
    apply (generateFileName_inj_index p q i j E). }
  split; [apply paddedIndex_inj|].
  split; [apply paddedIndex_no_dash|].
  split.
  { intros segment. apply made_no_dash.
    apply (proj1 (cleanFolderName_made segment)). }
  split.
  { intros sourceDir outputDir total folders fs.
    rewrite (proj1 (process_from_names sourceDir outputDir total folders
                      0 0 0 fs)).
    apply names_from_NoDup. }
  split.
  { intros sourceDir fs. rewrite main_names.
    destruct (mkdirp _ fs); [apply names_from_NoDup|constructor]. }
  split; [apply path_join_inj|].
  split; [apply positions_apart|].
  split.
  { intros sourceDir outputDir total i folderPath successCount fs other j Hne
           otherPath turn.
    destruct (process_folder_step sourceDir outputDir total i folderPath
                successCount fs) as [Ht _].
    apply (touched_elsewhere _ _ _ Ht).
    unfold otherPath. apply positions_apart. lia. }
  split; [|intros sourceDir fs fs1 Hmk; apply main_fs; exact Hmk].
  intros sourceDir outputDir total folders fs k folderPath Hk before run
         outputPath.
  destruct (run_after_turn sourceDir outputDir total folders k folderPath fs Hk)
    as (sc & sc' & Hb & Ht & Hrun).
  fold before in Hb, Ht, Hrun. fold run in Hrun.
  exists sc. split; [exact Hb|]. cbv zeta.
  assert (Hkeep : lookup (fs_of run) (segments outputPath)
                  = lookup (fs_of (process_folder sourceDir outputDir total k
                                     folderPath sc (fs_of before)))
                           (segments outputPath)).
  { rewrite Hrun. apply process_from_elsewhere.
    intros j g _. unfold outputPath. apply positions_apart. lia. }
  split; [|split].
  - apply (process_folder_artifact sourceDir outputDir total k folderPath sc
             (fs_of before)).
  - exact Hkeep.
  - apply readFile_same. exact Hkeep.
Qed.

End Artifacts.

(** ** Runs on the sample world, with their artifacts *)

Lemma naming_index_is_scan_position_witness :
  (nth_error (output_names (events_of (@main sample_platform (lit "/w")
                                             sample_fs))) 1
   = Some (lit "02-Root.pdf")
   /\ nth_error (output_names (events_of (@main sample_platform (lit "/w")
                                                sample_fs))) 4
      = Some (lit "05-tmp.pdf"))
  /\ (let turn := @process_folder sample_platform (lit "/w") (lit "/w/output")
                                  5 2 (lit "A") 0 sample_fs_output in
      result_of turn = Ok 1
      /\ exists b,
          lookup (fs_of turn) (segments (lit "/w/output/03-A.pdf"))
          = Some (new_file b)).
Proof.
  destruct (@naming_index_is_scan_position sample_platform (lit "/w")
              (lit "/w/output") 5%nat [] sample_fs)
    as (_ & _ & _ & _ & H & _ & _ & Hturn & _ & _).
  split; [split|].
  - eapply (H _ 1%nat (lit ".")); vm_compute; reflexivity.
  - eapply (H _ 4%nat (lit "tmp")); vm_compute; reflexivity.
  - intros turn. split; [vm_compute; reflexivity|].
    apply (Hturn 2%nat (lit "A") 0 sample_fs_output).
    vm_compute. reflexivity.
Defined.

Lemma output_names_never_collide_witness :
  (generateFileName (lit "A") 1 <> generateFileName (lit "A") 2
   /\ generateFileName (lit "1-A") 1 <> generateFileName (lit "A") 11)
  /\ (let run :=
        @process_from sample_platform (lit "/w") (lit "/w/output") 5 0
          [lit "(old)"; lit "."; lit "A"; lit "B/C"; lit "tmp"] 0 0
          sample_fs_output in
      result_of (fs_readFile (lit "/w/output/02-Root.pdf") (fs_of run))
      = Ok [Byte.x05]
      /\ result_of (fs_readFile (lit "/w/output/03-A.pdf") (fs_of run))
         = Ok [Byte.x01]).
Proof.
  split; [split|].
  - apply (proj1 (@output_names_never_collide sample_platform)). discriminate.
  - apply (proj1 (@output_names_never_collide sample_platform)). discriminate.
  - intros run.
    destruct (@output_names_never_collide sample_platform)
      as (_ & _ & _ & _ & _ & _ & _ & _ & _ & Hrun & _).
    split.
    + destruct (Hrun (lit "/w") (lit "/w/output") 5%nat
                  [lit "(old)"; lit "."; lit "A"; lit "B/C"; lit "tmp"]
                  sample_fs_output 1%nat (lit ".") eq_refl)
        as (sc & _ & _ & _ & Hread).
      fold run in Hread.
      change (path_join (lit "/w/output")
                (generateFileName (lit ".") (N.of_nat 1 + 1)))
        with (lit "/w/output/02-Root.pdf") in Hread.
      rewrite Hread. vm_compute. reflexivity.
    + destruct (Hrun (lit "/w") (lit "/w/output") 5%nat
                  [lit "(old)"; lit "."; lit "A"; lit "B/C"; lit "tmp"]
                  sample_fs_output 2%nat (lit "A") eq_refl)
        as (sc & _ & _ & _ & Hread).
      fold run in Hread.
      change (path_join (lit "/w/output")
                (generateFileName (lit "A") (N.of_nat 2 + 1)))
        with (lit "/w/output/03-A.pdf") in Hread.
      rewrite Hread. vm_compute. reflexivity.
Defined.
